(** * InspireTree: the node state model and the batched render gate

    A shallow embedding of [src/src/dom.js] (the batch controller of
    [InspireDOM]), of [TreeNode] (markDirty, state, visible, recurseUp,
    select, refreshIndeterminateState, expand, loadChildren; the walks
    getParents, getTextualHierarchy, indexPath and expandParents; the
    moves between visible nodes; remove and set) and of
    [src/src/treenodes.ts] (node, nodes, deepest, addNode, insertAt).

    TreeNode objects live in a heap keyed by object identity; the parent
    back-reference [itree.parent] and the children collections are
    references into that heap, so that a mutation made through a parent
    link is seen by every holder of the node.  Recursion that follows
    heap links carries fuel; [None] means that the fuel ran out or that a
    reference dangles. *)

From Stdlib Require Import ZArith Lia.
From stdpp Require Import base option list gmap strings pretty.

Open Scope Z_scope.

Set Default Proof Using "Type".

(** ** Data model *)

(** Identity of a [TreeNode] object. *)
Abbreviation ref := nat.

(** [TreeNode.children]: undefined, a boolean ([true] is the marker of
    children that are still to be loaded), or a [TreeNodes] collection
    whose [_context] is the node that holds it. *)
Inductive Children :=
| ChUndefined
| ChBool (b : bool)
| ChNodes (l : list ref).

(** [node.itree]: the bookkeeping record of a node. *)
Record ITree := mkITree {
  itree_dirty : bool;
  itree_parent : option ref;
  itree_state : gmap string bool
}.

Record TreeNode := mkTreeNode {
  id : string;
  text : string;
  children : Children;
  itree : ITree
}.

(** Named notifications sent through [tree.emit]. *)
Inductive Event :=
| EvStateChanged (n : ref) (name : string) (oldVal : option bool) (newVal : bool)
| EvNode (name : string) (n : ref)
| EvLoadError (err : string).

(** Node data as handed to [addNode] and [insertAt]: a plain object
    with an id (the empty string stands for a missing id, which is falsy
    as well), a label, the state flags it carries in [itree.state], and
    children: none, a boolean, or an array of node data. *)
Inductive NodeData : Type :=
| mkNodeData (i : string) (txt : string) (st : gmap string bool)
    (c : DataChildren)
with DataChildren : Type :=
| DUndefined
| DBool (b : bool)
| DArray (l : list NodeData).

Definition d_id (o : NodeData) : string :=
  match o with mkNodeData i _ _ _ => i end.
Definition d_text (o : NodeData) : string :=
  match o with mkNodeData _ txt _ _ => txt end.
Definition d_state (o : NodeData) : gmap string bool :=
  match o with mkNodeData _ _ st _ => st end.
Definition d_children (o : NodeData) : DataChildren :=
  match o with mkNodeData _ _ _ c => c end.

(** Number of node objects in a piece of node data. *)
Fixpoint dataSize (o : NodeData) : nat :=
  match o with
  | mkNodeData _ _ _ c =>
    S (match c with
       | DArray l =>
         (fix sizes (l : list NodeData) : nat :=
            match l with
            | [] => O
            | x :: r => (dataSize x + sizes r)%nat
            end) l
       | _ => O
       end)
  end.


(** The ids that a piece of node data carries: its own, then those of
    its children data, at any depth, in order. *)
Fixpoint dataIds (o : NodeData) : list string :=
  match o with
  | mkNodeData i _ _ c =>
    i :: match c with
         | DArray l =>
           (fix ids (l : list NodeData) : list string :=
              match l with
              | [] => []
              | x :: r => dataIds x ++ ids r
              end) l
         | _ => []
         end
  end.

Definition dataIdsOf (l : list NodeData) : list string :=
  foldr (fun x s => dataIds x ++ s) [] l.

(** The ids that the children of a piece of node data carry, at any
    depth. *)
Definition childIds (o : NodeData) : list string :=
  match d_children o with
  | DArray l => dataIdsOf l
  | _ => []
  end.

(** The part of [tree.config] (and the cached [isDynamic]) that the
    modelled methods read. [selection_allow] is [config.selection.allow]:
    [None] stands for a result that is not a boolean. [sort], when a sort
    is configured, is the insertion index that [_.sortedIndexBy] computes
    from the nodes of a collection and the data to insert. *)
Record Config := mkConfig {
  showCheckboxes : bool;
  autoSelectChildren : bool;
  selection_require : bool;
  selection_allow : TreeNode -> option bool;
  isDynamic : bool;
  sort : option (list TreeNode -> NodeData -> nat)
}.

(** State of a promise created by [loadChildren] or [expand]. *)
Inductive Promise :=
| Pending
| ResolvedNode (n : ref)
| ResolvedChildren (l : list ref)
| Rejected (err : string).

#[global] Instance Promise_eq_dec : EqDecision Promise.
Proof. solve_decision. Defined.

#[global] Instance Children_eq_dec : EqDecision Children.
Proof. solve_decision. Defined.

(** The fields of [InspireDOM] that gate rendering. *)
Record InspireDOM := mkDOM {
  batching : Z;
  rendering : bool
}.

(** One tree instance: the heap of nodes, the root collection
    [tree.model], the configuration, the renderer [tree.dom], and the
    observable traces: emitted events, calls of [renderNodes] and render
    passes carried out, invocations of the data loader, promises and the
    [then]/[catch] forwarding between them. *)
Record Tree := mkTree {
  nodes : gmap ref TreeNode;
  model : list ref;
  config : Config;
  dom : InspireDOM;
  lastSelectedNode : option ref;
  events : list Event;
  renderCalls : nat;
  renders : nat;
  loaderCalls : list ref;
  promises : list Promise;
  links : list (nat * nat)
}.

(** [tree.canAutoDeselect()], [tree.deselectDeep()] and the generator
    of ids for data without one belong to [tree.ts], which is not among
    the sources, and the specification is silent on them: the methods
    that call them take them as given. *)
Record TreeMethods := mkTreeMethods {
  canAutoDeselect : Tree -> bool;
  deselectDeep : Tree -> Tree;
  generateId : Tree -> string
}.

(** Field updates. *)
Definition set_dirty (b : bool) (nd : TreeNode) : TreeNode :=
  mkTreeNode (id nd) (text nd) (children nd)
    (mkITree b (itree_parent (itree nd)) (itree_state (itree nd))).

Definition set_parent (p : option ref) (nd : TreeNode) : TreeNode :=
  mkTreeNode (id nd) (text nd) (children nd)
    (mkITree (itree_dirty (itree nd)) p (itree_state (itree nd))).

Definition set_state (st : gmap string bool) (nd : TreeNode) : TreeNode :=
  mkTreeNode (id nd) (text nd) (children nd)
    (mkITree (itree_dirty (itree nd)) (itree_parent (itree nd)) st).

Definition set_children (c : Children) (nd : TreeNode) : TreeNode :=
  mkTreeNode (id nd) (text nd) c (itree nd).

Definition set_nodes (h : gmap ref TreeNode) (t : Tree) : Tree :=
  mkTree h (model t) (config t) (dom t) (lastSelectedNode t) (events t)
    (renderCalls t) (renders t) (loaderCalls t) (promises t) (links t).

Definition set_model (m : list ref) (t : Tree) : Tree :=
  mkTree (nodes t) m (config t) (dom t) (lastSelectedNode t) (events t)
    (renderCalls t) (renders t) (loaderCalls t) (promises t) (links t).


Definition set_dom (d : InspireDOM) (t : Tree) : Tree :=
  mkTree (nodes t) (model t) (config t) d (lastSelectedNode t) (events t)
    (renderCalls t) (renders t) (loaderCalls t) (promises t) (links t).


Definition set_promises (ps : list Promise) (t : Tree) : Tree :=
  mkTree (nodes t) (model t) (config t) (dom t) (lastSelectedNode t) (events t)
    (renderCalls t) (renders t) (loaderCalls t) ps (links t).

Definition set_links (ls : list (nat * nat)) (t : Tree) : Tree :=
  mkTree (nodes t) (model t) (config t) (dom t) (lastSelectedNode t) (events t)
    (renderCalls t) (renders t) (loaderCalls t) (promises t) ls.


(** [tree.emit(...)]: the notification is appended to the trace. *)
Definition emit (e : Event) (t : Tree) : Tree :=
  mkTree (nodes t) (model t) (config t) (dom t) (lastSelectedNode t)
    (events t ++ [e]) (renderCalls t) (renders t) (loaderCalls t)
    (promises t) (links t).

(** The call [config.data(node, complete, error)] is recorded. *)
Definition callLoader (n : ref) (t : Tree) : Tree :=
  mkTree (nodes t) (model t) (config t) (dom t) (lastSelectedNode t)
    (events t) (renderCalls t) (renders t) (loaderCalls t ++ [n])
    (promises t) (links t).

(** JavaScript truthiness of a flag read from [itree.state]. *)
Definition truthy (v : option bool) : bool :=
  match v with
  | Some true => true
  | _ => false
  end.

Definition getChildNodes (nd : TreeNode) : list ref :=
  match children nd with
  | ChNodes l => l
  | _ => []
  end.

(** Calls made on the renderer from outside. *)
Inductive DomCall := Batch | End | ApplyChanges.

(** Every prefix of the call sequence has at least as many [batch()] as
    [end()] calls, [d] batches being open at its start. *)
Fixpoint nested (d : nat) (cs : list DomCall) : bool :=
  match cs with
  | [] => true
  | Batch :: r => nested (S d) r
  | End :: r => match d with O => false | S d' => nested d' r end
  | ApplyChanges :: r => nested d r
  end.

(** ** A small tree used to exercise the model

    Two root nodes, "1" (A) and "2" (B); "2" holds the children "3" (C)
    and "4" (D); "3" holds "5" (E). Nodes are collapsed and selectable,
    as a tree is once its data is loaded. *)

Definition initialState : gmap string bool :=
  {[ "collapsed" := true; "selectable" := true ]}.

Definition newNode (i txt : string) (c : Children) (p : option ref) : TreeNode :=
  mkTreeNode i txt c (mkITree false p initialState).

Definition exampleNodes : gmap ref TreeNode :=
  {[ 0%nat := newNode "1" "A" ChUndefined None;
     1%nat := newNode "2" "B" (ChNodes [2%nat; 3%nat]) None;
     2%nat := newNode "3" "C" (ChNodes [4%nat]) (Some 1%nat);
     3%nat := newNode "4" "D" ChUndefined (Some 1%nat);
     4%nat := newNode "5" "E" ChUndefined (Some 2%nat) ]}.

Definition exampleConfig : Config :=
  mkConfig true true false (fun _ => None) false None.

Definition exampleTree : Tree :=
  mkTree exampleNodes [0%nat; 1%nat] exampleConfig (mkDOM 0 false) None
    [] 0 0 [] [] [].

(** A render pass that rebuilds every node: each one is marked
    [rendered] and is clean afterwards. *)
Definition renderEveryNode (h : gmap ref TreeNode)
    : gmap ref TreeNode * list Event :=
  ((fun nd => set_dirty false
                (set_state (<["rendered" := true]> (itree_state (itree nd))) nd))
     <$> h, []).

(** A dynamic tree: one root node whose children are still to be
    loaded. *)
Definition dynamicConfig : Config :=
  mkConfig true true false (fun _ => None) true None.

Definition dynamicTree : Tree :=
  mkTree {[ 0%nat := newNode "1" "A" (ChBool true) None ]} [0%nat]
    dynamicConfig (mkDOM 0 false) None [] 0 0 [] [] [].

(** The dynamic tree once [loadChildren()] has been called on its node
    and the loader has not answered yet. *)
Definition loadingTree : Tree :=
  mkTree
    {[ 0%nat := mkTreeNode "1" "A" (ChBool true)
                  (mkITree false None
                     (<["rendered" := true]> (<["loading" := true]> initialState))) ]}
    [0%nat] dynamicConfig (mkDOM 0 false) None
    [EvStateChanged 0 "loading" None true] 1 1 [0%nat] [Pending] [].

(** The example tree without checkboxes. *)
Definition plainConfig : Config :=
  mkConfig false true false (fun _ => None) false None.

Definition plainTree : Tree :=
  mkTree exampleNodes [0%nat; 1%nat] plainConfig (mkDOM 0 false) None
    [] 0 0 [] [] [].

(** A tree that never deselects on its own: [canAutoDeselect()] is
    false, so that [deselectDeep()] is never called. *)
Definition noAutoDeselect : TreeMethods :=
  mkTreeMethods (fun _ => false) (fun t => t)
    (fun t => String.append "node-" (pretty (size (nodes t)))).



(** The links of a heap agree, as a check that computes. *)
Definition linkedb (h : gmap ref TreeNode) : bool :=
  forallb
    (fun e : ref * TreeNode =>
       forallb
         (fun c => match h !! c with
                   | Some cd => bool_decide (itree_parent (itree cd) = Some e.1)
                   | None => false
                   end)
         (match children e.2 with ChNodes l => l | _ => [] end)
       && match itree_parent (itree e.2) with
          | None => true
          | Some q =>
            match h !! q with
            | Some qd =>
              bool_decide (e.1 ∈ match children qd with ChNodes l => l | _ => [] end)
            | None => false
            end
          end)
    (map_to_list h).


(** The parent chain of [n], as a function that computes: there is no
    answer when the chain leaves the heap or outlasts the fuel. *)
Fixpoint chainOf (fuel : nat) (h : gmap ref TreeNode) (n : ref)
    : option (list ref) :=
  match fuel with
  | O => None
  | S fuel' =>
    nd ← h !! n;
    match itree_parent (itree nd) with
    | None => Some []
    | Some p => l ← chainOf fuel' h p; Some (p :: l)
    end
  end.

(** The parent chains of the heap are shorter than [D] and the nodes of
    the root collection are nodes of the heap, as a check that
    computes. *)
Definition chainsBelowb (D : nat) (t : Tree) : bool :=
  forallb
    (fun e : ref * TreeNode =>
       match chainOf D (nodes t) e.1 with
       | Some l => (length l <? D)%nat
       | None => false
       end)
    (map_to_list (nodes t))
  && forallb (fun m => bool_decide (is_Some (nodes t !! m))) (model t).


Section Model.

(** The effect of one render pass on the model. [createOrderedList]
    builds the virtual nodes through [VCache], which is not part of the
    sources at hand; what the builders of [dom.js] do to a node they
    rebuild is [node.state('rendered', true)] and
    [node.itree.dirty = false].  The pass is therefore a parameter: it
    maps the heap to the heap after the pass and the events emitted. *)
Variable renderPass : gmap ref TreeNode -> gmap ref TreeNode * list Event.

(** ** InspireDOM: the batch controller ([src/src/dom.js]) *)

(** [renderNodes()]: suppressed while a pass is in progress; otherwise
    one pass is carried out and [rendering] is false again at its end. *)
Definition renderNodes (t : Tree) : Tree :=
  if rendering (dom t) then
    mkTree (nodes t) (model t) (config t) (dom t) (lastSelectedNode t)
      (events t) (S (renderCalls t)) (renders t) (loaderCalls t)
      (promises t) (links t)
  else
    mkTree (renderPass (nodes t)).1 (model t) (config t)
      (mkDOM (batching (dom t)) false) (lastSelectedNode t)
      (events t ++ (renderPass (nodes t)).2) (S (renderCalls t))
      (S (renders t)) (loaderCalls t) (promises t) (links t).

(** [applyChanges()] *)
Definition applyChanges (t : Tree) : Tree :=
  if 0 <? batching (dom t) then t else renderNodes t.

(** [batch()] *)
Definition batch (t : Tree) : Tree :=
  let b := if batching (dom t) <? 0 then 0 else batching (dom t) in
  set_dom (mkDOM (b + 1) (rendering (dom t))) t.

(** [end()] *)
Definition end_ (t : Tree) : Tree :=
  let t1 := set_dom (mkDOM (batching (dom t) - 1) (rendering (dom t))) t in
  if batching (dom t1) =? 0 then applyChanges t1 else t1.

Definition call (t : Tree) (c : DomCall) : Tree :=
  match c with
  | Batch => batch t
  | End => end_ t
  | ApplyChanges => applyChanges t
  end.

Definition run (cs : list DomCall) (t : Tree) : Tree := fold_left call cs t.

(** ** TreeNode *)

(** [getParent()], [hasParent()], [hasChildren()] *)
Definition getParent (nd : TreeNode) : option ref := itree_parent (itree nd).

Definition hasParent (nd : TreeNode) : bool :=
  match itree_parent (itree nd) with
  | Some _ => true
  | None => false
  end.

Definition hasChildren (nd : TreeNode) : bool :=
  match children nd with
  | ChNodes (_ :: _) => true
  | _ => false
  end.

(** The read form [state(name)]: the stored value, [None] for undefined. *)
Definition getState (name : string) (nd : TreeNode) : option bool :=
  itree_state (itree nd) !! name.

Definition collapsed (nd : TreeNode) : option bool := getState "collapsed" nd.
Definition hidden (nd : TreeNode) : option bool := getState "hidden" nd.
Definition removed (nd : TreeNode) : option bool := getState "removed" nd.
Definition selected (nd : TreeNode) : option bool := getState "selected" nd.
Definition indeterminate (nd : TreeNode) : option bool := getState "indeterminate" nd.
Definition loading (nd : TreeNode) : option bool := getState "loading" nd.


(** [markDirty()] *)
Fixpoint markDirty (fuel : nat) (n : ref) (t : Tree) : option Tree :=
  match fuel with
  | O => None
  | S fuel' =>
    nd ← nodes t !! n;
    if itree_dirty (itree nd) then Some t
    else
      let t1 := set_nodes (<[n := set_dirty true nd]> (nodes t)) t in
      match getParent nd with
      | Some p => markDirty fuel' p t1
      | None => Some t1
      end
  end.

(** [state(name, newVal)]: the tree after the call and the value returned. *)
Definition state (fuel : nat) (n : ref) (name : string) (newVal : option bool)
    (t : Tree) : option (Tree * option bool) :=
  nd ← nodes t !! n;
  let oldVal := itree_state (itree nd) !! name in
  match newVal with
  | Some v =>
    if decide (oldVal = Some v) then Some (t, oldVal)
    else
      let st := <[name := v]> (itree_state (itree nd)) in
      t1 ← markDirty fuel n (set_nodes (<[n := set_state st nd]> (nodes t)) t);
      Some (emit (EvStateChanged n name oldVal v) t1, Some v)
  | None => Some (t, oldVal)
  end.

(** [visible()] *)
Fixpoint visible (fuel : nat) (n : ref) (t : Tree) : option bool :=
  match fuel with
  | O => None
  | S fuel' =>
    nd ← nodes t !! n;
    if truthy (hidden nd) || truthy (removed nd) then Some false
    else
      match getParent nd with
      | Some p =>
        pd ← nodes t !! p;
        if truthy (collapsed pd) then Some false else visible fuel' p t
      | None => Some true
      end
  end.

(** Values an iteratee may return. *)
Inductive JSValue :=
| JSUndefined
| JSNull
| JSBool (b : bool)
| JSNumber (z : Z)
| JSString (s : string)
| JSObject.

(** [v === false] *)
Definition is_false (v : JSValue) : bool :=
  match v with
  | JSBool false => true
  | _ => false
  end.

(** [!v]: the falsy values. *)
Definition falsy (v : JSValue) : bool :=
  match v with
  | JSUndefined | JSNull | JSBool false | JSNumber 0 | JSString "" => true
  | _ => false
  end.

(** [recurseUp(iteratee)]: the iteratee carries its own state [A] (the
    variables it closes over) and returns a value. *)
Fixpoint recurseUp {A : Type} (fuel : nat) (iteratee : ref -> A -> A * JSValue)
    (n : ref) (t : Tree) (a : A) : option A :=
  match fuel with
  | O => None
  | S fuel' =>
    nd ← nodes t !! n;
    let (a1, result) := iteratee n a in
    if negb (is_false result) && hasParent nd then
      p ← getParent nd; recurseUp fuel' iteratee p t a1
    else Some a1
  end.

(** ** Notions used to state the properties *)

(** [ancestors h n l]: following [itree.parent] from [n] reaches the
    nodes of [l] in turn (parent first) and ends at a node without
    parent. Such a list exists exactly when the walk up ends. *)
Inductive ancestors (h : gmap ref TreeNode) : ref -> list ref -> Prop :=
| ancestors_root n nd :
    h !! n = Some nd -> getParent nd = None -> ancestors h n []
| ancestors_step n nd p l :
    h !! n = Some nd -> getParent nd = Some p -> ancestors h p l ->
    ancestors h n (p :: l).

(** The nodes at the head of [l] that are not dirty, up to the first
    dirty one. *)
Fixpoint cleanPrefix (h : gmap ref TreeNode) (l : list ref) : list ref :=
  match l with
  | [] => []
  | m :: r =>
    match h !! m with
    | Some nd => if itree_dirty (itree nd) then [] else m :: cleanPrefix h r
    | None => []
    end
  end.

(** The heap in which the nodes of [l] are dirty. *)
Definition markAll (l : list ref) (h : gmap ref TreeNode) : gmap ref TreeNode :=
  foldr (fun m h' => alter (set_dirty true) m h') h l.

Definition isDirty (h : gmap ref TreeNode) (n : ref) : bool :=
  match h !! n with
  | Some nd => itree_dirty (itree nd)
  | None => false
  end.

(** The walk that visits the nodes of [l] in turn and stops after the
    first one at which the value returned satisfies [stop]. *)
Fixpoint visitChain {A : Type} (stop : JSValue -> bool)
    (iteratee : ref -> A -> A * JSValue) (l : list ref) (a : A) : A :=
  match l with
  | [] => a
  | m :: r =>
    let (a1, result) := iteratee m a in
    if stop result then a1 else visitChain stop iteratee r a1
  end.

(** An iteratee that records the nodes it is called on and returns
    [v node]. *)
Definition logger (v : ref -> JSValue) (m : ref) (log : list ref)
    : list ref * JSValue :=
  (log ++ [m], v m).

(** The nodes of [l] up to and including the first one at which [v]
    returns a value that satisfies [stop]. *)
Fixpoint visitedUntil (stop : JSValue -> bool) (v : ref -> JSValue)
    (l : list ref) : list ref :=
  match l with
  | [] => []
  | m :: r => if stop (v m) then [m] else m :: visitedUntil stop v r
  end.

(** ** Promises *)

(** [new Promise(...)]: the next free slot, pending. *)
Definition newPromise (t : Tree) : Tree * nat :=
  (set_promises (promises t ++ [Pending]) t, length (promises t)).

(** A promise is settled once; later calls of its [resolve] or [reject]
    change nothing. *)
Definition settleOne (p : nat) (o : Promise) (ps : list Promise) : list Promise :=
  match ps !! p with
  | Some Pending => <[p := o]> ps
  | _ => ps
  end.

Definition followers (p : nat) (ls : list (nat * nat)) : list nat :=
  (filter (fun l => l.1 = p) ls).*2.

(** [resolve(v)] or [reject(err)] of promise [p]; the outcome is passed on
    to the promises that follow [p] through [then(resolve).catch(reject)]. *)
Definition settle (p : nat) (o : Promise) (t : Tree) : Tree :=
  match promises t !! p with
  | Some Pending =>
    set_promises
      (foldr (fun q ps => settleOne q o ps) (<[p := o]> (promises t))
         (followers p (links t))) t
  | _ => t
  end.

(** [src.then(resolve).catch(reject)] where [resolve] and [reject] are
    those of [dst]. *)
Definition follow (src dst : nat) (t : Tree) : Tree :=
  match promises t !! src with
  | Some Pending | None => set_links (links t ++ [(src, dst)]) t
  | Some o => settle dst o t
  end.

(** ** Dynamic loading *)

(** [this.children === true] *)
Definition childrenIsTrue (nd : TreeNode) : bool :=
  match children nd with
  | ChBool true => true
  | _ => false
  end.

Definition notDynamicError : string :=
  "Node does not have or support dynamic children.".

(** [loadChildren()] up to its return: the promise is created; the
    guard rejects it without leaving the function; the node is marked
    as loading and dirty, changes are applied and the data loader is
    called with the node and the two callbacks [complete] and [error]
    (there is a loader to call exactly when the tree is dynamic). A
    failure that the loader reports, at once or later, through the
    callback or through the promise it returns, is a call of
    [loadChildren_error]; the callback [complete] is not modelled. *)
Definition loadChildren (fuel : nat) (n : ref) (t : Tree) : option (Tree * nat) :=
  let (t0, p) := newPromise t in
  nd ← nodes t0 !! n;
  let t1 :=
    if negb (isDynamic (config t0)) || negb (childrenIsTrue nd)
    then settle p (Rejected notDynamicError) t0 else t0 in
  '(t2, _) ← state fuel n "loading" (Some true) t1;
  t3 ← markDirty fuel n t2;
  let t4 := applyChanges t3 in
  Some (if isDynamic (config t4) then callLoader n t4 else t4, p).

(** The callback [error] of the call of [loadChildren] on [n] that
    returned [p]. *)
Definition loadChildren_error (fuel : nat) (n : ref) (p : nat) (err : string)
    (t : Tree) : option Tree :=
  '(t1, _) ← state fuel n "loading" (Some false) t;
  nd ← nodes t1 !! n;
  let t2 := set_nodes (<[n := set_children (ChNodes []) nd]> (nodes t1)) t1 in
  t3 ← markDirty fuel n t2;
  let t4 := applyChanges t3 in
  Some (emit (EvLoadError err) (settle p (Rejected err) t4)).

(** [expand()] *)
Definition expand (fuel : nat) (n : ref) (t : Tree) : option (Tree * nat) :=
  let (t0, p) := newPromise t in
  nd ← nodes t0 !! n;
  let unloaded := isDynamic (config t0) && childrenIsTrue nd in
  let allow := hasChildren nd || unloaded in
  if allow && (truthy (collapsed nd) || truthy (hidden nd)) then
    '(t1, _) ← state fuel n "collapsed" (Some false) t0;
    '(t2, _) ← state fuel n "hidden" (Some false) t1;
    let t3 := emit (EvNode "node.expanded" n) t2 in
    nd3 ← nodes t3 !! n;
    if isDynamic (config t3) && childrenIsTrue nd3 then
      '(t4, pl) ← loadChildren fuel n t3;
      Some (follow pl p t4, p)
    else
      t4 ← markDirty fuel n t3;
      Some (settle p (ResolvedNode n) (applyChanges t4), p)
  else Some (settle p (ResolvedNode n) t0, p).

(** ** Frames *)

(** [nodeKept P nd nd']: [nd'] is [nd] up to its dirty bit and the flags
    named by [P]. *)
Definition nodeKept (P : string -> Prop) (nd nd' : TreeNode) : Prop :=
  id nd' = id nd /\ text nd' = text nd /\ children nd' = children nd /\
  getParent nd' = getParent nd /\
  forall k, ~ P k -> getState k nd' = getState k nd.

(** [kept P h h']: the heaps hold the same nodes, and each node is kept
    up to its dirty bit and the flags named by [P]. *)
Definition kept (P : ref -> string -> Prop) (h h' : gmap ref TreeNode) : Prop :=
  forall m,
    match h !! m with
    | Some nd => exists nd', h' !! m = Some nd' /\ nodeKept (P m) nd nd'
    | None => h' !! m = None
    end.

Definition isLoadError (e : Event) : bool :=
  match e with
  | EvLoadError _ => true
  | _ => false
  end.

(** Number of [tree.loaderror] notifications in a trace. *)
Fixpoint countLoadErrors (evs : list Event) : nat :=
  match evs with
  | [] => O
  | e :: r => ((if isLoadError e then 1 else 0) + countLoadErrors r)%nat
  end.

(** [quiet P t t']: a step that stays inside the node model: nodes are
    kept up to [P], and the configuration, the root collection, the
    loader calls and the promises are untouched; no load error is
    reported. *)
Definition quiet (P : ref -> string -> Prop) (t t' : Tree) : Prop :=
  kept P (nodes t) (nodes t') /\ config t' = config t /\ model t' = model t /\
  loaderCalls t' = loaderCalls t /\ promises t' = promises t /\
  links t' = links t /\
  countLoadErrors (events t') = countLoadErrors (events t).

(** What is assumed of a render pass: it keeps every node up to its
    dirty bit and its [rendered] flag, and the events it emits are state
    changes. *)
Definition renderFrame
    (rp : gmap ref TreeNode -> gmap ref TreeNode * list Event) : Prop :=
  forall h, kept (fun _ k => k = "rendered") h (rp h).1 /\
            countLoadErrors (rp h).2 = 0%nat.

(** ** Selection *)

(** [_.each(list, iteratee)] for an iteratee that may fail. *)
Fixpoint forEach {A S : Type} (iteratee : A -> S -> option S) (l : list A)
    (s : S) : option S :=
  match l with
  | [] => Some s
  | m :: r => s1 ← iteratee m s; forEach iteratee r s1
  end.

(** Modelled from the spec: the function [recurseDown] of
    [lib/recurse-down], which is not among the sources. It "visits a node
    then all descendants in collection order, with no abort in the
    concrete entity walk": the iteratee is called on the node, then the
    walk goes through the children collection of a node that has
    children, in order. The iteratee works on a state [S] of which the
    tree is a part ([view]). *)
Fixpoint recurseDown {S : Type} (view : S -> Tree) (fuel : nat)
    (iteratee : ref -> S -> option S) (n : ref) (s : S) : option S :=
  match fuel with
  | O => None
  | S fuel' =>
    s1 ← iteratee n s;
    nd ← nodes (view s1) !! n;
    if hasChildren nd then
      forEach (recurseDown view fuel' iteratee) (getChildNodes nd) s1
    else Some s1
  end.

(** [TreeNodes.recurseDown(iteratee)]: the walk over each node of a
    collection in turn. *)
Definition recurseDownNodes {S : Type} (view : S -> Tree) (fuel : nat)
    (iteratee : ref -> S -> option S) (l : list ref) (s : S) : option S :=
  forEach (recurseDown view fuel iteratee) l s.

(** Modelled from the spec: [tree.baseStateChange(prop, value, verb,
    node)] of [tree.ts], which is not among the sources. A state-changing
    operation "fails silently (no-op) if already in target state";
    otherwise the flag is written, the notification [node.<verb>] is
    emitted, the node (and its ancestors) is marked dirty and the render
    pipeline is invoked, "respecting the batch controller". *)
Definition baseStateChange (fuel : nat) (prop : string) (value : bool)
    (verb : string) (n : ref) (t : Tree) : option Tree :=
  nd ← nodes t !! n;
  if decide (getState prop nd = Some value) then Some t
  else
    '(t1, _) ← state fuel n prop (Some value) t;
    t2 ← markDirty fuel n (emit (EvNode (String.append "node." verb) n) t1);
    Some (applyChanges t2).

(** The number of nodes of [l] whose flag [name] is truthy. *)
Fixpoint countFlag (name : string) (l : list ref) (h : gmap ref TreeNode)
    : option nat :=
  match l with
  | [] => Some O
  | m :: r =>
    md ← h !! m;
    c ← countFlag name r h;
    Some (if truthy (getState name md) then S c else c)
  end.

(** [refreshIndeterminateState()] *)
Fixpoint refreshIndeterminateState (fuel : nat) (n : ref) (t : Tree)
    : option Tree :=
  match fuel with
  | O => None
  | S fuel' =>
    nd ← nodes t !! n;
    let oldValue := indeterminate nd in
    '(t1, _) ← state fuel n "indeterminate" (Some false) t;
    if showCheckboxes (config t1) then
      nd1 ← nodes t1 !! n;
      t3 ← (if hasChildren nd1 then
              let childrenCount := length (getChildNodes nd1) in
              sel ← countFlag "selected" (getChildNodes nd1) (nodes t1);
              ind ← countFlag "indeterminate" (getChildNodes nd1) (nodes t1);
              '(t2, _) ← state fuel n "selected"
                           (Some (sel =? childrenCount)%nat) t1;
              nd2 ← nodes t2 !! n;
              if negb (truthy (selected nd2)) then
                '(t3, _) ← state fuel n "indeterminate"
                             (Some ((0 <? ind)%nat
                                    || ((0 <? childrenCount)%nat && (0 <? sel)%nat
                                        && (sel <? childrenCount)%nat))) t2;
                Some t3
              else Some t2
            else Some t1);
      nd3 ← nodes t3 !! n;
      t4 ← match getParent nd3 with
           | Some p => refreshIndeterminateState fuel' p t3
           | None => Some t3
           end;
      nd4 ← nodes t4 !! n;
      if decide (oldValue = indeterminate nd4) then Some t4
      else markDirty fuel n t4
    else Some t1
  end.



(** A member of a children collection is a node of the heap and has
    the holder of the collection as its parent. *)
Definition linkedDown (h : gmap ref TreeNode) : Prop :=
  forall p pd c, h !! p = Some pd -> c ∈ getChildNodes pd ->
    exists cd, h !! c = Some cd /\ getParent cd = Some p.

(** A node with a parent is a member of the children collection of that
    parent. *)
Definition linkedUp (h : gmap ref TreeNode) : Prop :=
  forall c cd p, h !! c = Some cd -> getParent cd = Some p ->
    exists pd, h !! p = Some pd /\ c ∈ getChildNodes pd.

(** The links between parents and children agree. *)
Definition linked (h : gmap ref TreeNode) : Prop :=
  linkedDown h /\ linkedUp h.

(** [depthLe h n d]: below [n] the children collections go at most
    [d - 1] levels deep. *)
Inductive depthLe (h : gmap ref TreeNode) : ref -> nat -> Prop :=
| depthLe_node n nd d :
    h !! n = Some nd ->
    (forall c, c ∈ getChildNodes nd -> depthLe h c d) ->
    depthLe h n (S d).

(** [descendant h n c]: [c] is reached from [n] through children
    collections, in one step or more. *)
Inductive descendant (h : gmap ref TreeNode) (n : ref) : ref -> Prop :=
| descendant_child nd c :
    h !! n = Some nd -> c ∈ getChildNodes nd -> descendant h n c
| descendant_step m md c :
    descendant h n m -> h !! m = Some md -> c ∈ getChildNodes md ->
    descendant h n c.

(** The flag [name] of node [m] is truthy in heap [h]. *)
Definition flagSet (name : string) (h : gmap ref TreeNode) (m : ref) : Prop :=
  exists md, h !! m = Some md /\ truthy (getState name md) = true.

(** [refreshed h b]: the state [refreshIndeterminateState] leaves at a
    node with children: it is selected exactly when all its direct
    children are, and a selected node is not indeterminate. *)
Definition refreshed (h : gmap ref TreeNode) (b : ref) : Prop :=
  exists bd, h !! b = Some bd /\
    (hasChildren bd = true ->
       (truthy (selected bd) = true <->
          forall c, c ∈ getChildNodes bd -> flagSet "selected" h c) /\
       (truthy (selected bd) = true -> truthy (indeterminate bd) = false)).

(** The flags that [refreshIndeterminateState] may write along a chain. *)
Definition onChain (l : list ref) : ref -> string -> Prop :=
  fun m k => m ∈ l /\ (k = "selected" \/ k = "indeterminate").

(** ** Collections and insertion ([src/src/treenodes.ts]) *)

(** A [TreeNodes] collection of the tree: the root collection
    [tree.model], which has no [_context], or the children collection of
    a node, which is its [_context]. *)
Inductive Collection :=
| CRoot
| CKids (owner : ref).

Definition collNodes (c : Collection) (t : Tree) : option (list ref) :=
  match c with
  | CRoot => Some (model t)
  | CKids q =>
    nd ← nodes t !! q;
    match children nd with
    | ChNodes l => Some l
    | _ => None
    end
  end.

Definition setCollNodes (c : Collection) (l : list ref) (t : Tree) : option Tree :=
  match c with
  | CRoot => Some (set_model l t)
  | CKids q =>
    nd ← nodes t !! q;
    Some (set_nodes (<[q := set_children (ChNodes l) nd]> (nodes t)) t)
  end.

(** [node(id)]: the walk records the node whose id matches; the answer
    is [None] when no node matched. *)
Definition node (fuel : nat) (c : Collection) (i : string) (t : Tree)
    : option (option ref) :=
  l ← collNodes c t;
  r ← recurseDownNodes fst fuel
        (fun m (s : Tree * option ref) =>
           md ← nodes s.1 !! m;
           Some (s.1, if decide (id md = i) then Some m else s.2))
        l (t, None);
  Some r.2.

(** [restore()] and [show()] *)
Definition restore (fuel : nat) (n : ref) (t : Tree) : option Tree :=
  baseStateChange fuel "removed" false "restored" n t.

Definition show (fuel : nat) (n : ref) (t : Tree) : option Tree :=
  baseStateChange fuel "hidden" false "shown" n t.

(** Modelled from the spec: [tree.objectToModel(object, parent)] and
    [tree.collectionToModel(array, parent)] of [tree.ts], which is not
    among the sources. A node is created for the data: it has the id of
    the data (one is generated when the data has none: an id is "assigned
    at creation"), its label, the flags the data carries ("absence of a
    flag means false"), no dirty mark yet, and the parent given; its
    children are "absent", the marker of children to be loaded, or "a
    concrete collection" of the nodes created in order from the children
    data, with the new node as their parent. The new objects are fresh in
    the heap. *)
Fixpoint objectToModel (api : TreeMethods) (fuel : nat) (object : NodeData)
    (parent : option ref) (t : Tree) : option (Tree * ref) :=
  match fuel with
  | O => None
  | S fuel' =>
    let r := fresh (base.dom (nodes t)) in
    let i := if decide (d_id object = "") then generateId api t else d_id object in
    let c0 := match d_children object with
              | DBool b => ChBool b
              | DArray _ => ChNodes []
              | DUndefined => ChUndefined
              end in
    let nd := mkTreeNode i (d_text object) c0
                (mkITree false parent (d_state object)) in
    let t1 := set_nodes (<[r := nd]> (nodes t)) t in
    match d_children object with
    | DArray l =>
      '(t2, kids) ← forEach
                      (fun child (s : Tree * list ref) =>
                         '(t', k) ← objectToModel api fuel' child (Some r) s.1;
                         Some (t', s.2 ++ [k]))
                      l (t1, []);
      nd2 ← nodes t2 !! r;
      Some (set_nodes (<[r := set_children (ChNodes kids) nd2]> (nodes t2)) t2, r)
    | _ => Some (t1, r)
    end
  end.

(** The insertion index of [addNode]: the length of the collection, or
    the sorted index when a sort is configured. *)
Definition addNodeIndex (c : Collection) (object : NodeData) (t : Tree)
    : option nat :=
  l ← collNodes c t;
  match sort (config t) with
  | Some sortedIndexBy =>
    nds ← mapM (fun m => nodes t !! m) l;
    Some (sortedIndexBy nds object)
  | None => Some (length l)
  end.

(** [insertAt(index, object)] for node data [object]; the result is the
    tree after the call and the node returned. *)
Fixpoint insertAt (api : TreeMethods) (fuel : nat) (c : Collection)
    (index : nat) (object : NodeData) (t : Tree) : option (Tree * ref) :=
  match fuel with
  | O => None
  | S fuel' =>
    existingNode ← (if decide (d_id object = "") then Some None
                    else node fuel c (d_id object) t);
    match existingNode with
    | Some e =>
      t1 ← restore fuel e t;
      t2 ← show fuel e t1;
      ed ← nodes t2 !! e;
      t4 ← match d_children object with
           | DArray l =>
             let t3 :=
               match children ed with
               | ChNodes _ => t2
               | _ => set_nodes (<[e := set_children (ChNodes []) ed]> (nodes t2)) t2
               end in
             forEach
               (fun child s =>
                  idx ← addNodeIndex (CKids e) child s;
                  '(s', _) ← insertAt api fuel' (CKids e) idx child s;
                  Some s')
               l t3
           | DBool true =>
             match children ed with
             | ChBool _ =>
               Some (set_nodes (<[e := set_children (ChBool true) ed]> (nodes t2)) t2)
             | _ => Some t2
             end
           | _ => Some t2
           end;
      t5 ← markDirty fuel e t4;
      Some (applyChanges t5, e)
    | None =>
      '(t1, r) ← objectToModel api fuel object None t;
      l ← collNodes c t1;
      t2 ← setCollNodes c (take index l ++ r :: drop index l) t1;
      t3 ← match c with
           | CKids q =>
             rd ← nodes t2 !! r;
             t2' ← refreshIndeterminateState fuel q
                     (set_nodes (<[r := set_parent (Some q) rd]> (nodes t2)) t2);
             markDirty fuel q t2'
           | CRoot => Some t2
           end;
      t5 ← markDirty fuel r (emit (EvNode "node.added" r) t3);
      Some (applyChanges t5, r)
    end
  end.

(** [addNode(object)] *)
Definition addNode (api : TreeMethods) (fuel : nat) (c : Collection)
    (object : NodeData) (t : Tree) : option (Tree * ref) :=
  index ← addNodeIndex c object t;
  insertAt api fuel c index object t.

(** Every node of the heap has a parent chain of fewer than [D] nodes. *)
Definition chainsBelow (D : nat) (h : gmap ref TreeNode) : Prop :=
  forall m md, h !! m = Some md ->
    exists anc, ancestors h m anc /\ (length anc < D)%nat.

(** A heap in which insertion works: the members of the children
    collections are linked to their holder and the parent chains are
    finite, below [D]. *)
Definition wfDown (D : nat) (h : gmap ref TreeNode) : Prop :=
  linkedDown h /\ chainsBelow D h.

(** The same for a tree, whose root collection holds nodes of the heap. *)
Definition wfTree (D : nat) (t : Tree) : Prop :=
  wfDown D (nodes t) /\ forall m, m ∈ model t -> is_Some (nodes t !! m).

(** [within h l m]: [m] is a node of the collection [l] or a descendant
    of one: the nodes [node(id)] looks through. *)
Definition within (h : gmap ref TreeNode) (l : list ref) (m : ref) : Prop :=
  m ∈ l \/ exists k, k ∈ l /\ descendant h k m.

(** What an insertion may do to a node that exists already: identity,
    label and parent stay; a children collection stays a collection and
    keeps its members, in order; a flag [removed] or [hidden] that is
    false stays false. *)
Definition nodeGrows (nd nd' : TreeNode) : Prop :=
  id nd' = id nd /\ text nd' = text nd /\ getParent nd' = getParent nd /\
  sublist (getChildNodes nd) (getChildNodes nd') /\
  (forall l, children nd = ChNodes l -> exists l', children nd' = ChNodes l') /\
  (forall k, k = "removed" \/ k = "hidden" ->
     getState k nd = Some false -> getState k nd' = Some false).

Definition grows (t t' : Tree) : Prop :=
  (forall m nd, nodes t !! m = Some nd ->
     exists nd', nodes t' !! m = Some nd' /\ nodeGrows nd nd') /\
  config t' = config t.

(** An insertion into the children of [q] leaves the root collection
    alone, and the children of every node that is neither [q] nor below
    [q]. *)
Definition untouchedOutside (q : ref) (t t' : Tree) : Prop :=
  model t' = model t /\
  forall m nd anc, nodes t !! m = Some nd -> ancestors (nodes t) m anc ->
    m <> q -> q ∉ anc ->
    exists nd', nodes t' !! m = Some nd' /\ children nd' = children nd.

(** [extends h h']: [h'] holds the nodes of [h] as they are, and
    possibly more. *)
Definition extends (h h' : gmap ref TreeNode) : Prop :=
  forall m nd, h !! m = Some nd -> h' !! m = Some nd.

(** [calm t t']: a step that writes flags and dirty marks only, and
    brings no node back to the [removed] or [hidden] state: the heaps
    hold the same nodes with their identity, label, children and parent;
    the configuration and the root collection are untouched. *)
Definition nodeCalm (nd nd' : TreeNode) : Prop :=
  id nd' = id nd /\ text nd' = text nd /\ children nd' = children nd /\
  getParent nd' = getParent nd /\
  forall k, k = "removed" \/ k = "hidden" ->
    getState k nd = Some false -> getState k nd' = Some false.

Definition calm (t t' : Tree) : Prop :=
  (forall m,
     match nodes t !! m with
     | Some nd => exists nd', nodes t' !! m = Some nd' /\ nodeCalm nd nd'
     | None => nodes t' !! m = None
     end) /\
  config t' = config t /\ model t' = model t.

(** [idsKept h h']: the nodes of [h] are nodes of [h'], with their
    ids. *)
Definition idsKept (h h' : gmap ref TreeNode) : Prop :=
  forall m md, h !! m = Some md ->
    exists md', h' !! m = Some md' /\ id md' = id md.

(** [newIds L h h']: the nodes that [h'] holds and [h] does not, the
    nodes created between the two, carry ids of the list [L]; when no id
    occurs twice in [L], no two of them carry the same id. *)
Definition newIds (L : list string) (h h' : gmap ref TreeNode) : Prop :=
  (forall k kd, h !! k = None -> h' !! k = Some kd -> id kd ∈ L) /\
  (NoDup L ->
   forall k k' kd kd', h !! k = None -> h !! k' = None ->
     h' !! k = Some kd -> h' !! k' = Some kd' -> id kd = id kd' -> k = k').



(** Sets of flags that a step may write, by node and flag name. *)
Definition loadingOrRendered (n : ref) : ref -> string -> Prop :=
  fun m k => (m = n /\ k = "loading") \/ k = "rendered".




Definition ownFlags (a : ref) : ref -> string -> Prop :=
  fun m k => m = a /\ (k = "selected" \/ k = "indeterminate").

(** The iteratee of the walk of [node(id)]. *)
Definition lookupStep (i : string) (m : ref) (s : Tree * option ref)
    : option (Tree * option ref) :=
  md ← nodes s.1 !! m;
  Some (s.1, if decide (id md = i) then Some m else s.2).

(** The relation along which the walk of [node(id)] goes: the tree is
    not touched, and what is found is a node of the heap with the id
    looked for. *)
Definition looking (i : string) (s s' : Tree * option ref) : Prop :=
  s'.1 = s.1 /\
  (s'.2 = s.2 \/
   exists e ed, s'.2 = Some e /\ nodes s.1 !! e = Some ed /\ id ed = i).

(** What is known, in the state [s] of the loop over the children data
    of a new node [r] (the tree and the nodes created so far), of the
    nodes created since the tree [t1]. *)
Definition creating (t1 : Tree) (r : ref) (base : list ref) (B : nat)
    (s : Tree * list ref) : Prop :=
  extends (nodes t1) (nodes s.1) /\ s.1 = set_nodes (nodes s.1) t1 /\
  linkedDown (nodes s.1) /\
  (forall k, k ∈ s.2 ->
     nodes t1 !! k = None /\
     exists kd, nodes s.1 !! k = Some kd /\ getParent kd = Some r) /\
  (forall m md, nodes t1 !! m = None -> nodes s.1 !! m = Some md ->
     exists path, ancestors (nodes s.1) m (path ++ r :: base) /\
                  (length path < B)%nat).

(** ** TreeNode: the walks up and the moves between visible nodes
    ([src/unnamed/part_001]) *)

(** [getParents()]: when the node has a parent, the walk up from the
    parent pushes every node it visits. *)
Definition getParents (fuel : nat) (n : ref) (t : Tree) : option (list ref) :=
  nd ← nodes t !! n;
  if hasParent nd then
    p ← getParent nd;
    recurseUp fuel
      (fun m (parents : list ref) => (parents ++ [m], JSUndefined)) p t []
  else Some [].

(** [node.text] for the node [m] of the tree (the walks below call it on
    nodes of the heap only). *)
Definition textOf (t : Tree) (m : ref) : string :=
  from_option text "" (nodes t !! m).

(** [getTextualHierarchy()]: the walk up from the node puts each text at
    the front of [paths]. *)
Definition getTextualHierarchy (fuel : nat) (n : ref) (t : Tree)
    : option (list string) :=
  recurseUp fuel
    (fun m (paths : list string) => (textOf t m :: paths, JSUndefined)) n t [].

(** [_.indexOf(array, value)]: the first position at which the array
    holds the object [value], or -1. *)
Fixpoint indexOf (l : list ref) (x : ref) : Z :=
  match l with
  | [] => -1
  | y :: r =>
    if decide (y = x) then 0
    else let i := indexOf r x in if i <? 0 then -1 else i + 1
  end.

(** [context()]: the children of the parent, or the root collection
    [tree.model]. The functions of lodash that read it ([_.indexOf],
    [_.findIndex], [_.slice], [_.find]) take a value that is not
    array-like for an empty array, which is what [getChildNodes] gives
    for children that are not a collection. *)
Definition context (nd : TreeNode) (t : Tree) : option (list ref) :=
  match getParent nd with
  | Some p => pd ← nodes t !! p; Some (getChildNodes pd)
  | None => Some (model t)
  end.

(** The array [indices] of [indexPath()] at the end of the walk up: the
    position of each node in its context, the node itself first. *)
Definition indexPathIndices (fuel : nat) (n : ref) (t : Tree)
    : option (list Z) :=
  r ← recurseUp fuel
        (fun m (indices : option (list Z)) =>
           (ixs ← indices; md ← nodes t !! m; c ← context md t;
            Some (ixs ++ [indexOf c m]), JSUndefined))
        n t (Some []);
  r.

(** [indexPath()]: [indices.reverse().join('.')] *)
Definition indexPath (fuel : nat) (n : ref) (t : Tree) : option string :=
  ixs ← indexPathIndices fuel n t;
  Some (String.concat "." (pretty <$> reverse ixs)).

(** [_.find(list, node => node.visible())]: the first node of the list
    that is visible, or undefined. *)
Fixpoint findVisible (fuel : nat) (l : list ref) (t : Tree)
    : option (option ref) :=
  match l with
  | [] => Some None
  | m :: r =>
    v ← visible fuel m t;
    if (v : bool) then Some (Some m) else findVisible fuel r t
  end.

(** [_.findLast(list, node => node.visible())]: the same from the end of
    the list. *)
Definition findLastVisible (fuel : nat) (l : list ref) (t : Tree)
    : option (option ref) :=
  findVisible fuel (reverse l) t.

(** [nextVisibleChildNode()] *)
Definition nextVisibleChildNode (fuel : nat) (n : ref) (t : Tree)
    : option (option ref) :=
  nd ← nodes t !! n;
  if hasChildren nd then findVisible fuel (getChildNodes nd) t else Some None.

(** [_.findIndex(context, { id: i })]: the first position at which the
    node has the id [i], or -1. *)
Fixpoint findIndexById (h : gmap ref TreeNode) (i : string) (l : list ref)
    : option Z :=
  match l with
  | [] => Some (-1)
  | m :: r =>
    md ← h !! m;
    if decide (id md = i) then Some 0
    else k ← findIndexById h i r; Some (if k <? 0 then -1 else k + 1)
  end.

(** [tree.nodes()], called without ids: [tree.ts] is not among the
    sources; the method it forwards to, [TreeNodes.nodes(refs)] of
    [src/src/treenodes.ts], returns the collection itself when [refs] is
    not an array, here the root collection. *)
Definition treeNodes (t : Tree) : list ref := model t.

(** The collection in which the moves between siblings look:
    [hasParent() ? getParent().children : this._tree.nodes()]. *)
Definition siblings (nd : TreeNode) (t : Tree) : option (list ref) :=
  match getParent nd with
  | Some p => pd ← nodes t !! p; Some (getChildNodes pd)
  | None => Some (treeNodes t)
  end.

(** [nextVisibleSiblingNode()]: [_.slice(context, i + 1)] is the whole
    context when no node of it has the id ([i] is -1). *)
Definition nextVisibleSiblingNode (fuel : nat) (n : ref) (t : Tree)
    : option (option ref) :=
  nd ← nodes t !! n;
  ctx ← siblings nd t;
  i ← findIndexById (nodes t) (id nd) ctx;
  findVisible fuel (drop (Z.to_nat (i + 1)) ctx) t.

(** [_.slice(array, 0, i)]: a negative end counts from the end of the
    array. *)
Definition sliceTo (i : Z) (l : list ref) : list ref :=
  if i <? 0 then take (Z.to_nat (Z.of_nat (length l) + i)) l
  else take (Z.to_nat i) l.

(** [previousVisibleSiblingNode()] *)
Definition previousVisibleSiblingNode (fuel : nat) (n : ref) (t : Tree)
    : option (option ref) :=
  nd ← nodes t !! n;
  ctx ← siblings nd t;
  i ← findIndexById (nodes t) (id nd) ctx;
  findLastVisible fuel (sliceTo i ctx) t.

(** [nextVisibleAncestralSiblingNode()] *)
Fixpoint nextVisibleAncestralSiblingNode (fuel : nat) (n : ref) (t : Tree)
    : option (option ref) :=
  match fuel with
  | O => None
  | S fuel' =>
    nd ← nodes t !! n;
    match getParent nd with
    | Some p =>
      next ← nextVisibleSiblingNode fuel p t;
      match next with
      | Some x => Some (Some x)
      | None => nextVisibleAncestralSiblingNode fuel' p t
      end
    | None => Some None
    end
  end.

(** [nextVisibleNode()]: a visible child, else a sibling, else a sibling
    of an ancestor. *)
Definition nextVisibleNode (fuel : nat) (n : ref) (t : Tree)
    : option (option ref) :=
  c ← nextVisibleChildNode fuel n t;
  match c with
  | Some x => Some (Some x)
  | None =>
    s ← nextVisibleSiblingNode fuel n t;
    match s with
    | Some x => Some (Some x)
    | None => nextVisibleAncestralSiblingNode fuel n t
    end
  end.

(** The outcome of a call that may throw: the value returned, or the
    [TypeError] of a method call on [undefined]. *)
Inductive Result (A : Type) :=
| Returns (a : A)
| TypeError.

#[global] Arguments Returns {A} a.
#[global] Arguments TypeError {A}.

(** [lastDeepestVisibleChild()]: [found.lastDeepestVisibleChild()] is
    called on whatever [_.findLast] gave, undefined included. *)
Fixpoint lastDeepestVisibleChild (fuel : nat) (n : ref) (t : Tree)
    : option (Result (option ref)) :=
  match fuel with
  | O => None
  | S fuel' =>
    nd ← nodes t !! n;
    if hasChildren nd && negb (truthy (collapsed nd)) then
      found ← findLastVisible fuel (getChildNodes nd) t;
      match found with
      | None => Some TypeError
      | Some f =>
        res ← lastDeepestVisibleChild fuel' f t;
        match res with
        | TypeError => Some TypeError
        | Returns (Some r) => Some (Returns (Some r))
        | Returns None => Some (Returns (Some f))
        end
      end
    else Some (Returns None)
  end.

(** [previousVisibleNode()] *)
Definition previousVisibleNode (fuel : nat) (n : ref) (t : Tree)
    : option (Result (option ref)) :=
  nd ← nodes t !! n;
  prev ← previousVisibleSiblingNode fuel n t;
  prev2 ← match prev with
          | Some p =>
            pd ← nodes t !! p;
            if hasChildren pd && negb (truthy (collapsed pd))
            then lastDeepestVisibleChild fuel p t
            else Some (Returns (Some p))
          | None => Some (Returns None)
          end;
  match prev2 with
  | TypeError => Some TypeError
  | Returns (Some x) => Some (Returns (Some x))
  | Returns None => Some (Returns (if hasParent nd then getParent nd else None))
  end.

(** [firstVisible fuel t l r]: [r] is the first visible node of the list
    [l], or nothing when no node of [l] is visible. *)
Definition firstVisible (fuel : nat) (t : Tree) (l : list ref)
    (r : option ref) : Prop :=
  match r with
  | Some x =>
    exists l1 l2, l = l1 ++ x :: l2 /\ visible fuel x t = Some true /\
                  forall m, m ∈ l1 -> visible fuel m t = Some false
  | None => forall m, m ∈ l -> visible fuel m t = Some false
  end.

(** [deepestWalk fuel t n x]: the walk of [lastDeepestVisibleChild()]
    that starts at [n] reaches [x]. The walk goes on from a node that
    has children and is not collapsed, to the last of its children that
    is visible. *)
Inductive deepestWalk (fuel : nat) (t : Tree) : ref -> ref -> Prop :=
| deepestWalk_here n : deepestWalk fuel t n n
| deepestWalk_down n nd f x :
    nodes t !! n = Some nd ->
    hasChildren nd && negb (truthy (collapsed nd)) = true ->
    firstVisible fuel t (reverse (getChildNodes nd)) (Some f) ->
    deepestWalk fuel t f x ->
    deepestWalk fuel t n x.

(** ** Removal and root properties ([src/unnamed/part_001]) *)

(** [_.remove(array, { id: i })]: every node with the id [i] leaves the
    array; the others keep their order. *)
Fixpoint removeById (h : gmap ref TreeNode) (i : string) (l : list ref)
    : option (list ref) :=
  match l with
  | [] => Some []
  | m :: r =>
    md ← h !! m;
    r' ← removeById h i r;
    Some (if decide (id md = i) then r' else m :: r')
  end.

(** [remove()]: the node leaves the children of its parent, or the root
    collection [tree.model]; [_.remove] does nothing to children that are
    not a collection. The parent, if any, refreshes its indeterminate
    state; [node.removed] is emitted and changes are applied. The
    function returns, and the event carries, the plain object that
    [export()] builds from the node; that copy is not modelled, the
    event records the node it is made from. *)
Definition remove (fuel : nat) (n : ref) (t : Tree) : option Tree :=
  nd ← nodes t !! n;
  t1 ← match getParent nd with
       | Some p =>
         pd ← nodes t !! p;
         match children pd with
         | ChNodes l =>
           l' ← removeById (nodes t) (id nd) l;
           Some (set_nodes (<[p := set_children (ChNodes l') pd]> (nodes t)) t)
         | _ => Some t
         end
       | None =>
         l' ← removeById (nodes t) (id nd) (model t);
         Some (set_model l' t)
       end;
  t2 ← match getParent nd with
       | Some p => refreshIndeterminateState fuel p t1
       | None => Some t1
       end;
  Some (applyChanges (emit (EvNode "node.removed" n) t2)).

Definition set_id (i : string) (nd : TreeNode) : TreeNode :=
  mkTreeNode i (text nd) (children nd) (itree nd).

Definition set_text (s : string) (nd : TreeNode) : TreeNode :=
  mkTreeNode (id nd) s (children nd) (itree nd).

(** The root properties of a node that hold a string. *)
Inductive Property :=
| PropId
| PropText.

(** [set(property, value)] for these properties: the property is
    written and the node is marked dirty. *)
Definition set (fuel : nat) (n : ref) (property : Property) (value : string)
    (t : Tree) : option Tree :=
  nd ← nodes t !! n;
  let nd1 := match property with
             | PropId => set_id value nd
             | PropText => set_text value nd
             end in
  markDirty fuel n (set_nodes (<[n := nd1]> (nodes t)) t).

(** ** TreeNodes: queries over a collection ([src/src/treenodes.ts]) *)

(** [!node.children]: children that are undefined or [false]. A
    collection is an object, which is truthy even when it is empty. *)
Definition childrenFalsy (nd : TreeNode) : bool :=
  match children nd with
  | ChUndefined | ChBool false => true
  | _ => false
  end.

(** [deepest()]: the walk down pushes the nodes whose children are
    falsy. *)
Definition deepest (fuel : nat) (l : list ref) (t : Tree)
    : option (list ref) :=
  r ← recurseDownNodes fst fuel
        (fun m (s : Tree * list ref) =>
           md ← nodes s.1 !! m;
           Some (s.1, if childrenFalsy md then s.2 ++ [m] else s.2))
        l (t, []);
  Some r.2.

(** [nodes(refs)] for an array [refs] of ids (strings; a number among
    them is converted first): the walk down pushes the nodes whose id is
    in [refs]. *)
Definition nodes_refs (fuel : nat) (refs : list string) (l : list ref)
    (t : Tree) : option (list ref) :=
  r ← recurseDownNodes fst fuel
        (fun m (s : Tree * list ref) =>
           md ← nodes s.1 !! m;
           Some (s.1, if bool_decide (id md ∈ refs) then s.2 ++ [m] else s.2))
        l (t, []);
  Some r.2.

(** The iteratee of a walk that pushes the nodes that satisfy [P]. *)
Definition collectStep (P : TreeNode -> bool) (m : ref)
    (s : Tree * list ref) : option (Tree * list ref) :=
  md ← nodes s.1 !! m;
  Some (s.1, if P md then s.2 ++ [m] else s.2).

(** ** Expanding the ancestors ([src/unnamed/part_001]) *)

(** [recurseUp(function(node) { node.expand(); })]: the walk up on the
    tree that the calls of [expand()] change; the iteratee returns
    undefined, so the walk goes on to the root. *)
Fixpoint expandUp (fuel : nat) (n : ref) (t : Tree) : option Tree :=
  match fuel with
  | O => None
  | S fuel' =>
    '(t1, _) ← expand fuel n t;
    nd ← nodes t1 !! n;
    if hasParent nd then p ← getParent nd; expandUp fuel' p t1 else Some t1
  end.

(** [expandParents()] *)
Definition expandParents (fuel : nat) (n : ref) (t : Tree) : option Tree :=
  nd ← nodes t !! n;
  if hasParent nd then p ← getParent nd; expandUp fuel p t else Some t.

(** The flags that [expand()] on the node [a] and the render pass may
    write. *)
Definition openOrRendered (a : ref) : ref -> string -> Prop :=
  fun m k => (m = a /\ (k = "collapsed" \/ k = "hidden")) \/ k = "rendered".

(** The flags that [expandParents()] may write along the chain [l]. *)
Definition openChainOrRendered (l : list ref) : ref -> string -> Prop :=
  fun m k => (m ∈ l /\ (k = "collapsed" \/ k = "hidden")) \/ k = "rendered".

(** ** More trees to exercise the model *)

(** The example tree with B and C expanded: every node is visible. *)
Definition openState : gmap string bool :=
  {[ "collapsed" := false; "selectable" := true ]}.

Definition openB : TreeNode :=
  mkTreeNode "2" "B" (ChNodes [2%nat; 3%nat]) (mkITree false None openState).

Definition openC : TreeNode :=
  mkTreeNode "3" "C" (ChNodes [4%nat]) (mkITree false (Some 1%nat) openState).

Definition openNodes : gmap ref TreeNode :=
  {[ 0%nat := newNode "1" "A" ChUndefined None;
     1%nat := openB;
     2%nat := openC;
     3%nat := newNode "4" "D" ChUndefined (Some 1%nat);
     4%nat := newNode "5" "E" ChUndefined (Some 2%nat) ]}.

Definition openTree : Tree :=
  mkTree openNodes [0%nat; 1%nat] exampleConfig (mkDOM 0 false) None
    [] 0 0 [] [] [].

(** The same tree with a node F that names B as its parent and is not
    among the children of B, as a node is once [remove()] has taken it
    out. *)
Definition strayF : TreeNode := newNode "6" "F" ChUndefined (Some 1%nat).

Definition strayTree : Tree :=
  mkTree (<[5%nat := strayF]> openNodes) [0%nat; 1%nat] exampleConfig
    (mkDOM 0 false) None [] 0 0 [] [] [].

(** Node data with an id that no node of the example trees has, and
    node data without id. *)
Definition newData : NodeData := mkNodeData "9" "N" ∅ DUndefined.

Definition anonymousData : NodeData := mkNodeData "" "N" ∅ DUndefined.

(** No node of the heap has the id [i], as a check that computes. *)
Definition idAbsentb (i : string) (h : gmap ref TreeNode) : bool :=
  forallb (fun e : ref * TreeNode => bool_decide (id e.2 <> i)) (map_to_list h).

(** * Properties *)

(** ** The batch controller *)

Lemma run_app (cs1 cs2 : list DomCall) (t : Tree) :
  run (cs1 ++ cs2) t = run cs2 (run cs1 t).
Proof. unfold run. apply fold_left_app. Qed.

Lemma applyChanges_batching (t : Tree) :
  batching (dom (applyChanges t)) = batching (dom t).
Proof.
  unfold applyChanges, renderNodes.
  destruct (0 <? batching (dom t)); [done|].
  by destruct (rendering (dom t)).
Qed.

Lemma applyChanges_gated (t : Tree) :
  0 < batching (dom t) -> applyChanges t = t.
Proof.
  intros Hb. unfold applyChanges.
  by rewrite (proj2 (Z.ltb_lt _ _) Hb).
Qed.

Lemma run_batches (N : nat) (t : Tree) :
  0 <= batching (dom t) ->
  run (repeat Batch N) t
  = set_dom (mkDOM (batching (dom t) + Z.of_nat N) (rendering (dom t))) t.
Proof.
  revert t. induction N as [|N IH]; intros t Hb.
  - cbn. rewrite Z.add_0_r. by destruct t as [? ? ? []].
  - change (repeat Batch (S N)) with ([Batch] ++ repeat Batch N).
    rewrite run_app. cbn [run fold_left call]. fold (run (repeat Batch N)).
    rewrite IH; unfold batch; cbn;
      rewrite (proj2 (Z.ltb_ge _ _) Hb); [|lia].
    unfold set_dom; cbn. do 2 f_equal. lia.
Qed.

Lemma run_ends (k : nat) (t : Tree) :
  Z.of_nat k < batching (dom t) ->
  run (repeat End k) t
  = set_dom (mkDOM (batching (dom t) - Z.of_nat k) (rendering (dom t))) t.
Proof.
  revert t. induction k as [|k IH]; intros t Hb.
  - cbn. rewrite Z.sub_0_r. by destruct t as [? ? ? []].
  - change (repeat End (S k)) with ([End] ++ repeat End k).
    rewrite run_app. cbn [run fold_left call]. fold (run (repeat End k)).
    assert (Hne : (batching (dom t) - 1 =? 0) = false) by (apply Z.eqb_neq; lia).
    unfold end_; cbn. rewrite Hne.
    rewrite IH; cbn; [|lia].
    unfold set_dom; cbn. do 2 f_equal. lia.
Qed.

Lemma run_applies_gated (m : nat) (t : Tree) :
  0 < batching (dom t) -> run (repeat ApplyChanges m) t = t.
Proof.
  intros Hb. induction m as [|m IH]; [done|].
  cbn [repeat run fold_left call]. rewrite applyChanges_gated by done.
  apply IH.
Qed.

Lemma end_last (t : Tree) :
  batching (dom t) = 1 ->
  end_ t = renderNodes (set_dom (mkDOM 0 (rendering (dom t))) t).
Proof.
  intros Hb. unfold end_. cbn. rewrite Hb. cbn. unfold applyChanges. by cbn.
Qed.

Lemma run_batches_ends (N k : nat) (t : Tree) :
  batching (dom t) = 0 -> (k < N)%nat ->
  run (repeat Batch N ++ repeat End k) t
  = set_dom (mkDOM (Z.of_nat N - Z.of_nat k) (rendering (dom t))) t.
Proof.
  intros Hb Hk. rewrite run_app, run_batches by lia.
  rewrite run_ends; cbn; [|lia].
  unfold set_dom; cbn. do 2 f_equal. lia.
Qed.

Lemma run_batches_all_ends (N : nat) (t : Tree) :
  batching (dom t) = 0 -> (1 <= N)%nat ->
  run (repeat Batch N ++ repeat End N) t
  = renderNodes (set_dom (mkDOM 0 (rendering (dom t))) t).
Proof.
  intros Hb HN. destruct N as [|N]; [lia|].
  replace (repeat End (S N)) with (repeat End N ++ [End])
    by (by rewrite <- repeat_cons).
  rewrite app_assoc, run_app, run_batches_ends by (done || lia).
  cbn [run fold_left call]. rewrite end_last; cbn; [|lia].
  done.
Qed.

(** C1. From a batching counter of 0, [N >= 1] calls of [batch()]
    followed by [N] calls of [end()] make [renderNodes] fire exactly once,
    at the final [end()]: no call of [renderNodes] and no render pass has
    happened after the [N] batches and any [k < N] ends, the state after
    the last [end()] is [renderNodes] applied to the tree with the counter
    back at 0, which is one more call (and one more pass, when no pass was
    in progress). [applyChanges()] with a counter above 0 returns the
    state unchanged, and such calls made inside the batch leave no trace:
    the final state is the same as without them. *)
Theorem batch_nesting_renders_once (t : Tree) (N : nat) :
  batching (dom t) = 0 -> (1 <= N)%nat ->
  (forall k, (k < N)%nat ->
     renderCalls (run (repeat Batch N ++ repeat End k) t) = renderCalls t /\
     renders (run (repeat Batch N ++ repeat End k) t) = renders t) /\
  run (repeat Batch N ++ repeat End N) t
    = renderNodes (set_dom (mkDOM 0 (rendering (dom t))) t) /\
  renderCalls (run (repeat Batch N ++ repeat End N) t) = S (renderCalls t) /\
  (rendering (dom t) = false ->
     renders (run (repeat Batch N ++ repeat End N) t) = S (renders t)) /\
  (forall t', 0 < batching (dom t') -> applyChanges t' = t') /\
  (forall k m, (k < N)%nat ->
     run (repeat Batch N ++ repeat End k ++ repeat ApplyChanges m
            ++ repeat End (N - k)) t
     = run (repeat Batch N ++ repeat End N) t).
Proof.
  intros Hb HN. split; [|split; [|split; [|split; [|split]]]].
  - intros k Hk. by rewrite run_batches_ends.
  - by apply run_batches_all_ends.
  - rewrite run_batches_all_ends by done.
    unfold renderNodes; cbn. by destruct (rendering (dom t)).
  - intros Hr. rewrite run_batches_all_ends by done.
    unfold renderNodes; cbn. by rewrite Hr.
  - apply applyChanges_gated.
  - intros k m Hk.
    rewrite (app_assoc (repeat Batch N)), run_app, run_app.
    rewrite run_applies_gated
      by (rewrite run_batches_ends by done; cbn; lia).
    rewrite <- run_app, <- app_assoc, <- repeat_app.
    by replace (k + (N - k))%nat with N by lia.
Qed.

Lemma batch_positive (t : Tree) : 1 <= batching (dom (batch t)).
Proof.
  unfold batch; cbn. destruct (batching (dom t) <? 0) eqn:E; [lia|].
  apply Z.ltb_ge in E. lia.
Qed.

Lemma end_batching (t : Tree) :
  batching (dom (end_ t)) = batching (dom t) - 1.
Proof.
  unfold end_; cbn. destruct (batching (dom t) - 1 =? 0); [|done].
  by rewrite applyChanges_batching.
Qed.

Lemma nested_run_batching (cs : list DomCall) (d : nat) (t : Tree) :
  nested d cs = true -> batching (dom t) = Z.of_nat d ->
  forall p q, cs = p ++ q -> 0 <= batching (dom (run p t)).
Proof.
  revert d t. induction cs as [|c cs IH]; intros d t Hn Hb p q Hpq.
  - destruct p; [cbn; lia|done].
  - destruct p as [|c' p]; [cbn; lia|].
    injection Hpq as Hc Hpq. cbn [run fold_left]. fold (run p).
    destruct Hc. destruct c; cbn [nested call] in *.
    + apply (IH (S d) (batch t) Hn) with (q := q); [|done].
      unfold batch; cbn. rewrite (proj2 (Z.ltb_ge _ _)); lia.
    + destruct d as [|d]; [done|].
      apply (IH d (end_ t) Hn) with (q := q); [|done].
      rewrite end_batching. lia.
    + apply (IH d (applyChanges t) Hn) with (q := q); [|done].
      by rewrite applyChanges_batching.
Qed.

(** C8, as the code has it. [end()] decrements without a floor, so the
    counter is non-negative only along call sequences in which no prefix
    holds more [end()] than [batch()] calls: from a counter of 0 it is
    then never negative, after any prefix. An unmatched [end()] does take
    it below 0; what [batch()] guarantees, from any state at all, is a
    counter of at least 1 after it. *)
Theorem batching_nonneg_when_nested (t : Tree) (cs : list DomCall) :
  batching (dom t) = 0 -> nested 0 cs = true ->
  (forall p q, cs = p ++ q -> 0 <= batching (dom (run p t))) /\
  (forall t', 1 <= batching (dom (batch t'))).
Proof.
  intros Hb Hn. split.
  - by apply (nested_run_batching cs 0 t).
  - apply batch_positive.
Qed.

(** ** Parent chains *)

Lemma ancestors_lookup (h : gmap ref TreeNode) n l :
  ancestors h n l -> is_Some (h !! n).
Proof. by destruct 1; eexists. Qed.

Lemma ancestors_fun (h : gmap ref TreeNode) n l1 l2 :
  ancestors h n l1 -> ancestors h n l2 -> l1 = l2.
Proof.
  intros H1. revert l2. induction H1 as [n nd Hn Hp|n nd p l Hn Hp _ IH];
    intros l2 H2; destruct H2 as [n nd' Hn' Hp'|n nd' p' l' Hn' Hp' H2];
    rewrite Hn in Hn'; injection Hn' as <-; try congruence.
  rewrite Hp in Hp'. injection Hp' as <-. f_equal. by apply IH.
Qed.

Lemma ancestors_drop (h : gmap ref TreeNode) n l i a :
  ancestors h n l -> l !! i = Some a -> ancestors h a (drop (S i) l).
Proof.
  intros H. revert i. induction H as [n nd Hn Hp|n nd p l Hn Hp H IH];
    intros i Hi; [done|].
  destruct i as [|i]; cbn in Hi.
  - injection Hi as <-. by cbn.
  - by apply IH.
Qed.

Lemma ancestors_not_elem (h : gmap ref TreeNode) n l :
  ancestors h n l -> n ∉ l.
Proof.
  intros H Hin. apply list_elem_of_lookup in Hin as [i Hi].
  pose proof (ancestors_fun _ _ _ _ H (ancestors_drop _ _ _ _ _ H Hi)) as E.
  apply (f_equal length) in E. rewrite length_drop in E.
  apply lookup_lt_Some in Hi. lia.
Qed.

Lemma ancestors_elem (h : gmap ref TreeNode) n l a :
  ancestors h n l -> a ∈ l -> exists l', ancestors h a l' /\ (length l' < length l)%nat.
Proof.
  intros H Hin. apply list_elem_of_lookup in Hin as [i Hi].
  exists (drop (S i) l). split; [by eapply ancestors_drop|].
  rewrite length_drop. apply lookup_lt_Some in Hi. lia.
Qed.

(** The chain depends on the parent links only. *)
Lemma ancestors_ext (h h' : gmap ref TreeNode) n l :
  (forall m nd, h !! m = Some nd ->
     exists nd', h' !! m = Some nd' /\ getParent nd' = getParent nd) ->
  ancestors h n l -> ancestors h' n l.
Proof.
  intros Hext. induction 1 as [n nd Hn Hp|n nd p l Hn Hp _ IH];
    destruct (Hext _ _ Hn) as (nd' & Hn' & Hp').
  - eapply ancestors_root; [done|congruence].
  - eapply ancestors_step; [done|congruence|done].
Qed.

(** ** markDirty *)

Lemma insert_as_alter (h : gmap ref TreeNode) n nd f :
  h !! n = Some nd -> <[n := f nd]> h = alter f n h.
Proof.
  intros Hn. apply map_eq. intros m. destruct (decide (n = m)) as [<-|Hne].
  - by rewrite lookup_insert_eq, lookup_alter_eq, Hn.
  - by rewrite lookup_insert_ne, lookup_alter_ne.
Qed.

Lemma lookup_markAll (l : list ref) (h : gmap ref TreeNode) m :
  markAll l h !! m
  = if decide (m ∈ l) then set_dirty true <$> h !! m else h !! m.
Proof.
  unfold markAll. induction l as [|a l IH]; cbn.
  - by rewrite decide_False by apply not_elem_of_nil.
  - destruct (decide (a = m)) as [<-|Hne].
    + rewrite lookup_alter_eq, IH.
      destruct (decide (a ∈ a :: l)) as [_|Hn];
        [|by destruct Hn; apply list_elem_of_here].
      destruct (decide (a ∈ l)); [|done].
      by destruct (h !! a).
    + rewrite lookup_alter_ne, IH by done.
      destruct (decide (m ∈ l)) as [Hin|Hnin];
        destruct (decide (m ∈ a :: l)) as [Hin'|Hnin']; try done.
      * destruct Hnin'. by apply list_elem_of_further.
      * apply elem_of_cons in Hin' as [->|?]; done.
Qed.

Lemma cleanPrefix_ext (h h' : gmap ref TreeNode) (l : list ref) :
  (forall m, m ∈ l ->
     (fun nd => itree_dirty (itree nd)) <$> h' !! m
     = (fun nd => itree_dirty (itree nd)) <$> h !! m) ->
  cleanPrefix h' l = cleanPrefix h l.
Proof.
  induction l as [|a l IH]; intros Hext; [done|]. cbn.
  pose proof (Hext a (list_elem_of_here _ _)) as Ha.
  rewrite IH by (intros m Hm; apply Hext; by apply list_elem_of_further).
  destruct (h !! a) as [nd|], (h' !! a) as [nd'|]; cbn in Ha; try done.
  injection Ha as ->. done.
Qed.

Lemma set_nodes_set_nodes h1 h2 t : set_nodes h1 (set_nodes h2 t) = set_nodes h1 t.
Proof. done. Qed.

Lemma set_nodes_id t : set_nodes (nodes t) t = t.
Proof. by destruct t. Qed.

Lemma not_elem_of_cleanPrefix (h : gmap ref TreeNode) (l : list ref) n :
  n ∉ l -> n ∉ cleanPrefix h l.
Proof.
  induction l as [|a l IH]; intros Hnin; cbn; [apply not_elem_of_nil|].
  apply not_elem_of_cons in Hnin as [Hne Hnin].
  destruct (h !! a) as [ad|]; [|apply not_elem_of_nil].
  destruct (itree_dirty (itree ad)); [apply not_elem_of_nil|].
  apply not_elem_of_cons. auto.
Qed.

Lemma ancestors_insert_dirty (h : gmap ref TreeNode) n nd b m l :
  h !! n = Some nd -> ancestors h m l ->
  ancestors (<[n := set_dirty b nd]> h) m l.
Proof.
  intros Hn. apply ancestors_ext. intros k kd Hk.
  destruct (decide (n = k)) as [<-|Hne].
  - rewrite lookup_insert_eq. eexists; split; [done|].
    rewrite Hn in Hk. by injection Hk as <-.
  - rewrite lookup_insert_ne by done. by eexists.
Qed.

Lemma cleanPrefix_clean (h : gmap ref TreeNode) n nd r :
  h !! n = Some nd -> itree_dirty (itree nd) = false ->
  cleanPrefix h (n :: r) = n :: cleanPrefix h r.
Proof. intros Hn Hd. cbn. by rewrite Hn, Hd. Qed.

Lemma cleanPrefix_dirty (h : gmap ref TreeNode) n nd r :
  h !! n = Some nd -> itree_dirty (itree nd) = true ->
  cleanPrefix h (n :: r) = [].
Proof. intros Hn Hd. cbn. by rewrite Hn, Hd. Qed.

(** [markDirty] in closed form: it returns, and the heap it leaves is the
    one in which the clean nodes at the head of the chain are dirty. *)
Lemma markDirty_closed (fuel : nat) (n : ref) (anc : list ref) (t : Tree) :
  ancestors (nodes t) n anc -> (length anc < fuel)%nat ->
  markDirty fuel n t
  = Some (set_nodes (markAll (cleanPrefix (nodes t) (n :: anc)) (nodes t)) t).
Proof.
  revert fuel n t. induction anc as [|p l IH]; intros fuel n t H Hf;
    (destruct fuel as [|fuel]; [cbn in Hf; lia|]);
    pose proof (ancestors_not_elem _ _ _ H) as Hnin;
    inversion H as [n' nd Hn Hp|n' nd p' l' Hn Hp H']; subst;
    cbn [markDirty]; rewrite Hn; cbn [mbind option_bind];
    (destruct (itree_dirty (itree nd)) eqn:Ed;
      [by erewrite cleanPrefix_dirty by done; cbn; rewrite set_nodes_id|]);
    rewrite Hp; erewrite cleanPrefix_clean by done.
  - cbn. by rewrite insert_as_alter.
  - rewrite (IH fuel p (set_nodes (<[n:=set_dirty true nd]> (nodes t)) t));
      [|by apply ancestors_insert_dirty|cbn in Hf; lia].
    cbn [nodes set_nodes]. rewrite set_nodes_set_nodes. do 2 f_equal.
    rewrite (cleanPrefix_ext (nodes t))
      by (intros m Hm; rewrite lookup_insert_ne; [done|by intros ->]).
    rewrite insert_as_alter by done. apply map_eq. intros m.
    rewrite !lookup_markAll.
    pose proof (not_elem_of_cleanPrefix (nodes t) _ _ Hnin) as Hn'.
    destruct (decide (m = n)) as [->|Hne].
    + rewrite decide_False by done.
      rewrite decide_True by apply list_elem_of_here.
      by rewrite lookup_alter_eq.
    + rewrite lookup_alter_ne by done.
      destruct (decide (m ∈ cleanPrefix (nodes t) (p :: l))) as [Hin|Hnin'];
        destruct (decide (m ∈ n :: cleanPrefix (nodes t) (p :: l)))
          as [Hin'|Hnin'']; try done.
      * destruct Hnin''. by apply list_elem_of_further.
      * apply elem_of_cons in Hin' as [->|?]; done.
Qed.

Lemma isDirty_markAll (l : list ref) (h : gmap ref TreeNode) m :
  isDirty (markAll l h) m
  = if decide (m ∈ l) then bool_decide (is_Some (h !! m)) else isDirty h m.
Proof.
  unfold isDirty. rewrite lookup_markAll.
  destruct (decide (m ∈ l)); [|done].
  by destruct (h !! m) as [md|].
Qed.

Lemma isDirty_markAll_mono (l : list ref) (h : gmap ref TreeNode) m :
  isDirty h m = true -> isDirty (markAll l h) m = true.
Proof.
  intros Hd. rewrite isDirty_markAll. destruct (decide (m ∈ l)); [|done].
  apply bool_decide_eq_true_2. unfold isDirty in Hd.
  by destruct (h !! m).
Qed.

(** A node of the chain sits in the clean prefix unless a dirty node
    sits at or below it. *)
Lemma cleanPrefix_or_dirty_below (h : gmap ref TreeNode) (l : list ref) i a :
  l !! i = Some a -> (forall b, b ∈ l -> is_Some (h !! b)) ->
  a ∈ cleanPrefix h l \/
  exists j b, (j <= i)%nat /\ l !! j = Some b /\ isDirty h b = true.
Proof.
  revert i. induction l as [|m r IH]; intros i Hi Hin; [done|].
  destruct (Hin m) as [md Hm]; [apply list_elem_of_here|].
  destruct (itree_dirty (itree md)) eqn:Ed.
  - right. exists 0%nat, m. split; [lia|]. split; [done|].
    unfold isDirty. by rewrite Hm.
  - erewrite cleanPrefix_clean by done. destruct i as [|i]; cbn in Hi.
    + injection Hi as <-. left. apply list_elem_of_here.
    + destruct (IH i Hi) as [Hc|(j & b & Hj & Hb & Hd)].
      * intros b Hb. apply Hin. by apply list_elem_of_further.
      * left. by apply list_elem_of_further.
      * right. exists (S j), b. split; [lia|]. done.
Qed.

Lemma ancestors_all_present (h : gmap ref TreeNode) n l :
  ancestors h n l -> forall b, b ∈ n :: l -> is_Some (h !! b).
Proof.
  intros H b Hb. apply elem_of_cons in Hb as [->|Hb].
  - by eapply ancestors_lookup.
  - destruct (ancestors_elem _ _ _ _ H Hb) as (l' & H' & _).
    by eapply ancestors_lookup.
Qed.

(** C5. [markDirty] on a node with a finite parent chain returns; only
    dirty flags change; the node is dirty afterwards, and so is every
    ancestor that has no already-dirty node strictly below it on the
    chain, while the nodes outside that clean prefix (those above the
    first already-dirty node among them) keep their record as it was.
    When the dirty flags are closed upward along the chain, every ancestor
    is dirty afterwards. A second call changes nothing: it returns the
    state the first one left. *)
Theorem markDirty_propagates_and_is_idempotent
    (fuel : nat) (n : ref) (anc : list ref) (t : Tree) :
  ancestors (nodes t) n anc -> (length anc < fuel)%nat ->
  exists t',
    markDirty fuel n t = Some t' /\
    t' = set_nodes (nodes t') t /\
    (forall m, nodes t' !! m
       = if decide (m ∈ cleanPrefix (nodes t) (n :: anc))
         then set_dirty true <$> nodes t !! m else nodes t !! m) /\
    isDirty (nodes t') n = true /\
    (forall i a, (n :: anc) !! i = Some a ->
       (forall j b, (j < i)%nat -> (n :: anc) !! j = Some b ->
          isDirty (nodes t) b = false) ->
       isDirty (nodes t') a = true) /\
    ((forall i j a b, (i <= j)%nat -> (n :: anc) !! i = Some a ->
        (n :: anc) !! j = Some b -> isDirty (nodes t) a = true ->
        isDirty (nodes t) b = true) ->
     forall a, a ∈ n :: anc -> isDirty (nodes t') a = true) /\
    markDirty fuel n t' = Some t' /\
    (forall t'', markDirty fuel n t' = Some t'' ->
       forall m, isDirty (nodes t'') m = isDirty (nodes t') m).
Proof.
  intros H Hf. pose proof (ancestors_all_present _ _ _ H) as Hall.
  eexists. split; [by eapply markDirty_closed|].
  cbn [nodes set_nodes].
  assert (Hkey : forall i a, (n :: anc) !! i = Some a ->
    isDirty (markAll (cleanPrefix (nodes t) (n :: anc)) (nodes t)) a = true \/
    exists j b, (j < i)%nat /\ (n :: anc) !! j = Some b /\
                isDirty (nodes t) b = true).
  { intros i a Hi.
    destruct (cleanPrefix_or_dirty_below (nodes t) _ i a Hi Hall)
      as [Hc|(j & b & Hj & Hb & Hd)].
    - left. rewrite isDirty_markAll, decide_True by done.
      apply bool_decide_eq_true_2, Hall. by eapply list_elem_of_lookup_2.
    - destruct (decide (j = i)) as [->|Hne].
      + left. apply isDirty_markAll_mono. congruence.
      + right. exists j, b. split; [lia|done]. }
  assert (Hdn : isDirty (markAll (cleanPrefix (nodes t) (n :: anc)) (nodes t)) n
                = true).
  { destruct (Hkey 0%nat n eq_refl) as [Hd|(j & b & Hj & _)]; [done|lia]. }
  assert (Hidem : markDirty fuel n
      (set_nodes (markAll (cleanPrefix (nodes t) (n :: anc)) (nodes t)) t)
    = Some (set_nodes (markAll (cleanPrefix (nodes t) (n :: anc)) (nodes t)) t)).
  { destruct fuel as [|fuel]; [lia|]. cbn [markDirty nodes set_nodes].
    unfold isDirty in Hdn.
    destruct (markAll _ _ !! n) as [nd'|]; [|done]. cbn. by rewrite Hdn. }
  split; [done|]. split; [apply lookup_markAll|]. split; [done|].
  split; [|split; [|split]].
  - intros i a Hi Hclean.
    destruct (Hkey i a Hi) as [Hd|(j & b & Hj & Hb & Hd)]; [done|].
    rewrite (Hclean j b Hj Hb) in Hd. done.
  - intros Hclosed a Ha. apply list_elem_of_lookup in Ha as [i Hi].
    destruct (Hkey i a Hi) as [Hd|(j & b & Hj & Hb & Hd)]; [done|].
    apply isDirty_markAll_mono. apply (Hclosed j i b a); [lia|done..].
  - done.
  - intros t'' Ht''. rewrite Hidem in Ht''. by injection Ht'' as <-.
Qed.

(** ** visible *)

Lemma visible_S (fuel : nat) (n : ref) (t : Tree) :
  visible (S fuel) n t
  = nd ← nodes t !! n;
    if truthy (hidden nd) || truthy (removed nd) then Some false
    else
      match getParent nd with
      | Some p =>
        pd ← nodes t !! p;
        if truthy (collapsed pd) then Some false else visible fuel p t
      | None => Some true
      end.
Proof. done. Qed.

Lemma visible_fuel (fuel : nat) (n : ref) (anc : list ref) (t : Tree) :
  ancestors (nodes t) n anc -> (length anc < fuel)%nat ->
  visible fuel n t = visible (S (length anc)) n t.
Proof.
  intros H. revert fuel.
  induction H as [n nd Hn Hp|n nd p l Hn Hp H IH]; intros fuel Hf;
    (destruct fuel as [|fuel]; [cbn in Hf; lia|]);
    rewrite !visible_S, Hn; cbn [mbind option_bind];
    destruct (truthy (hidden nd) || truthy (removed nd)); try done;
    rewrite Hp; [done|].
  destruct (ancestors_lookup _ _ _ H) as [pd Hpd]. rewrite Hpd. cbn.
  destruct (truthy (collapsed pd)); [done|].
  apply IH. cbn in Hf. lia.
Qed.

Lemma visible_fuel_eq (f1 f2 : nat) (n : ref) (anc : list ref) (t : Tree) :
  ancestors (nodes t) n anc -> (length anc < f1)%nat -> (length anc < f2)%nat ->
  visible f1 n t = visible f2 n t.
Proof.
  intros H H1 H2.
  by rewrite (visible_fuel f1 n anc), (visible_fuel f2 n anc).
Qed.

(** C2. For a node with a finite parent chain [visible()] returns, and
    it returns true exactly when the node is neither hidden nor removed
    and every ancestor is not collapsed and is itself visible. It is false
    as soon as the node is hidden or removed, and as soon as some ancestor
    is collapsed. *)
Theorem visible_iff_shown_and_ancestors_open
    (fuel : nat) (n : ref) (anc : list ref) (t : Tree) :
  ancestors (nodes t) n anc -> (length anc < fuel)%nat ->
  exists nd b,
    nodes t !! n = Some nd /\ visible fuel n t = Some b /\
    (b = true <->
       truthy (hidden nd) = false /\ truthy (removed nd) = false /\
       forall a, a ∈ anc ->
         exists ad, nodes t !! a = Some ad /\ truthy (collapsed ad) = false /\
                    visible fuel a t = Some true) /\
    (truthy (hidden nd) = true \/ truthy (removed nd) = true -> b = false) /\
    (forall a ad, a ∈ anc -> nodes t !! a = Some ad ->
       truthy (collapsed ad) = true -> b = false).
Proof.
  intros H. revert fuel.
  induction H as [n nd Hn Hp|n nd p l Hn Hp H IH]; intros fuel Hf;
    (destruct fuel as [|fuel]; [cbn in Hf; lia|]);
    exists nd; rewrite (visible_S fuel n t), Hn; cbn [mbind option_bind].
  - rewrite Hp.
    destruct (truthy (hidden nd)), (truthy (removed nd)); cbn [orb];
      eexists; (split; [done|]); (split; [done|]);
      (split; [|split; [|by intros a ad Ha; apply not_elem_of_nil in Ha]]);
      try (intros [?|?]; congruence); try (split; [done|intros (?&?&?); done]).
    split; [intros _|done]. do 2 (split; [done|]).
    intros a Ha. by apply not_elem_of_nil in Ha.
  - assert (Hf' : (length l < fuel)%nat) by (cbn in Hf; lia).
    destruct (IH fuel Hf') as (pd & b' & Hpd & Hvp & Hiff & _ & Hcol).
    assert (Hup : forall a, a ∈ p :: l ->
              visible (S fuel) a t = visible fuel a t).
    { intros a Ha. apply elem_of_cons in Ha as [->|Ha].
      - eapply visible_fuel_eq; [done|lia..].
      - destruct (ancestors_elem _ _ _ _ H Ha) as (l' & Hl' & Hlen).
        eapply visible_fuel_eq; [done|lia..]. }
    rewrite Hp, Hpd. cbn [mbind option_bind]. rewrite Hvp.
    destruct (truthy (hidden nd)) eqn:Eh; cbn [orb].
    { eexists. do 2 (split; [done|]). split; [|done].
      split; [done|]. intros (? & _). done. }
    destruct (truthy (removed nd)) eqn:Er; cbn [orb].
    { eexists. do 2 (split; [done|]). split; [|done].
      split; [done|]. intros (_ & ? & _). done. }
    destruct (truthy (collapsed pd)) eqn:Ec; cbn [orb].
    { eexists. do 2 (split; [done|]). split; [|done].
      split; [done|]. intros (_ & _ & Hall).
      destruct (Hall p) as (ad & Had & Hc & _); [apply list_elem_of_here|].
      congruence. }
    exists b'. do 2 (split; [done|]). split; [|split].
    + split.
      * intros ->. do 2 (split; [done|]). intros a Ha.
        rewrite (Hup a Ha).
        apply elem_of_cons in Ha as [->|Ha].
        -- by exists pd.
        -- destruct Hiff as [Hiff _].
           destruct Hiff as (_ & _ & Hall); [done|]. by apply Hall.
      * intros (_ & _ & Hall).
        destruct (Hall p) as (ad & Had & Hc & Hv); [apply list_elem_of_here|].
        rewrite (Hup p (list_elem_of_here _ _)) in Hv. congruence.
    + intros [?|?]; congruence.
    + intros a ad Ha Had Hc. apply elem_of_cons in Ha as [->|Ha].
      * congruence.
      * by eapply Hcol.
Qed.

(** ** recurseUp *)

Lemma recurseUp_closed {A : Type} (fuel : nat)
    (iteratee : ref -> A -> A * JSValue) (n : ref) (anc : list ref)
    (t : Tree) (a : A) :
  ancestors (nodes t) n anc -> (length anc < fuel)%nat ->
  recurseUp fuel iteratee n t a
  = Some (visitChain is_false iteratee (n :: anc) a).
Proof.
  intros H. revert fuel a.
  induction H as [n nd Hn Hp|n nd p l Hn Hp H IH]; intros fuel a Hf;
    (destruct fuel as [|fuel]; [cbn in Hf; lia|]);
    cbn [recurseUp visitChain]; rewrite Hn; cbn [mbind option_bind];
    destruct (iteratee n a) as [a1 result]; unfold hasParent;
    unfold getParent in Hp; rewrite Hp.
  - rewrite andb_false_r. by destruct (is_false result).
  - rewrite andb_true_r. destruct (is_false result); cbn; [done|].
    unfold getParent. rewrite Hp. cbn. apply IH. cbn in Hf. lia.
Qed.

Lemma visitChain_logger (stop : JSValue -> bool) (v : ref -> JSValue)
    (l log : list ref) :
  visitChain stop (logger v) l log = log ++ visitedUntil stop v l.
Proof.
  revert log. induction l as [|m r IH]; intros log; cbn.
  - by rewrite app_nil_r.
  - destruct (stop (v m)); [done|]. by rewrite IH, <- app_assoc.
Qed.

Lemma visitedUntil_never (stop : JSValue -> bool) (v : ref -> JSValue)
    (l : list ref) :
  (forall m, m ∈ l -> stop (v m) = false) -> visitedUntil stop v l = l.
Proof.
  induction l as [|m r IH]; intros Hall; [done|]. cbn.
  rewrite Hall by apply list_elem_of_here. f_equal.
  apply IH. intros k Hk. apply Hall. by apply list_elem_of_further.
Qed.

(** C9, as the code has it. On a node with a finite parent chain
    [recurseUp] returns, and calls the iteratee on the node, then on its
    parent, its grandparent and so on; the ascent stops after the first
    node at which the iteratee returns exactly [false]. With an iteratee
    that logs its calls, the log is the chain up to and including that
    node; an iteratee that never returns [false] is called on the whole
    chain, whatever else it returns (undefined, null, 0 or the empty
    string do not stop the ascent). *)
Theorem recurseUp_stops_on_false_only
    (fuel : nat) (n : ref) (anc : list ref) (t : Tree) :
  ancestors (nodes t) n anc -> (length anc < fuel)%nat ->
  (forall (A : Type) (iteratee : ref -> A -> A * JSValue) (a : A),
     recurseUp fuel iteratee n t a
     = Some (visitChain is_false iteratee (n :: anc) a)) /\
  (forall v : ref -> JSValue,
     recurseUp fuel (logger v) n t []
     = Some (visitedUntil is_false v (n :: anc))) /\
  (forall v : ref -> JSValue,
     (forall m, m ∈ n :: anc -> v m <> JSBool false) ->
     recurseUp fuel (logger v) n t [] = Some (n :: anc)).
Proof.
  intros H Hf. split; [|split].
  - intros A iteratee a. by apply recurseUp_closed.
  - intros v. by rewrite (recurseUp_closed _ _ _ anc), visitChain_logger.
  - intros v Hv.
    rewrite (recurseUp_closed _ _ _ anc), visitChain_logger by done.
    rewrite visitedUntil_never; [done|].
    intros m Hm. specialize (Hv m Hm).
    destruct (v m) as [| |[]| | |]; done.
Qed.

(** ** state *)

Lemma ancestors_insert_state (h : gmap ref TreeNode) n nd st m l :
  h !! n = Some nd -> ancestors h m l ->
  ancestors (<[n := set_state st nd]> h) m l.
Proof.
  intros Hn. apply ancestors_ext. intros k kd Hk.
  destruct (decide (n = k)) as [<-|Hne].
  - rewrite lookup_insert_eq. eexists; split; [done|].
    rewrite Hn in Hk. by injection Hk as <-.
  - rewrite lookup_insert_ne by done. by eexists.
Qed.

Lemma cleanPrefix_insert_state (h : gmap ref TreeNode) n nd st l :
  h !! n = Some nd ->
  cleanPrefix (<[n := set_state st nd]> h) l = cleanPrefix h l.
Proof.
  intros Hn. apply cleanPrefix_ext. intros m _.
  destruct (decide (n = m)) as [<-|Hne].
  - by rewrite lookup_insert_eq, Hn.
  - by rewrite lookup_insert_ne.
Qed.

(** [state(name, v)] in closed form. *)
Lemma state_closed (fuel : nat) (n : ref) (anc : list ref) (name : string)
    (v : bool) (t : Tree) (nd : TreeNode) :
  ancestors (nodes t) n anc -> (length anc < fuel)%nat ->
  nodes t !! n = Some nd ->
  state fuel n name (Some v) t
  = if decide (getState name nd = Some v) then Some (t, Some v)
    else Some
      (emit (EvStateChanged n name (getState name nd) v)
         (set_nodes
            (markAll (cleanPrefix (nodes t) (n :: anc))
               (<[n := set_state (<[name := v]> (itree_state (itree nd))) nd]>
                  (nodes t))) t),
       Some v).
Proof.
  intros H Hf Hn. unfold state. rewrite Hn. cbn [mbind option_bind].
  unfold getState. destruct (decide (itree_state (itree nd) !! name = Some v))
    as [Heq|Hne]; [by rewrite Heq|].
  erewrite markDirty_closed; cbn [nodes set_nodes];
    [|by apply ancestors_insert_state|done].
  cbn [mbind option_bind]. rewrite set_nodes_set_nodes.
  by rewrite cleanPrefix_insert_state.
Qed.

Lemma chain_dirty_after (h h1 : gmap ref TreeNode) (l : list ref) i a :
  (forall b, b ∈ l -> is_Some (h !! b)) ->
  (forall m, (fun nd => itree_dirty (itree nd)) <$> h1 !! m
             = (fun nd => itree_dirty (itree nd)) <$> h !! m) ->
  l !! i = Some a ->
  isDirty (markAll (cleanPrefix h l) h1) a = true \/
  exists j b, (j < i)%nat /\ l !! j = Some b /\ isDirty h b = true.
Proof.
  intros Hall Hbits Hi.
  assert (Hsame : forall m, isDirty h1 m = isDirty h m).
  { intros m. unfold isDirty. specialize (Hbits m).
    destruct (h1 !! m), (h !! m); cbn in Hbits; congruence. }
  destruct (cleanPrefix_or_dirty_below h _ i a Hi Hall)
    as [Hc|(j & b & Hj & Hb & Hd)].
  - left. rewrite isDirty_markAll, decide_True by done.
    apply bool_decide_eq_true_2.
    destruct (Hall a) as [ad Had]; [by eapply list_elem_of_lookup_2|].
    specialize (Hbits a). rewrite Had in Hbits.
    destruct (h1 !! a); [by eexists|done].
  - destruct (decide (j = i)) as [->|Hne].
    + left. apply isDirty_markAll_mono. rewrite Hsame. congruence.
    + right. exists j, b. split; [lia|done].
Qed.

(** C10. On a node with a finite parent chain [state(name, v)] returns
    [v]. When the stored flag is already [v] the tree is left exactly as
    it was: no flag, no dirty bit and no event changes. When the stored
    value differs (another boolean, or undefined), [v] is stored under
    [name] and the other flags of the node are kept; the node is dirty,
    and so is every ancestor with no already-dirty node strictly below it
    on the chain; the other nodes change in their dirty bit at most; and
    exactly one event is emitted, [node.state.changed] with the node, the
    flag name, the old value and the new one. *)
Theorem state_writes_only_on_change
    (fuel : nat) (n : ref) (anc : list ref) (name : string) (v : bool)
    (t : Tree) (nd : TreeNode) :
  ancestors (nodes t) n anc -> (length anc < fuel)%nat ->
  nodes t !! n = Some nd ->
  (getState name nd = Some v ->
     state fuel n name (Some v) t = Some (t, Some v)) /\
  (getState name nd <> Some v ->
     exists t' nd',
       state fuel n name (Some v) t = Some (t', Some v) /\
       nodes t' !! n = Some nd' /\
       getState name nd' = Some v /\
       (forall k, k <> name -> getState k nd' = getState k nd) /\
       itree_dirty (itree nd') = true /\
       (forall i a, (n :: anc) !! i = Some a ->
          (forall j b, (j < i)%nat -> (n :: anc) !! j = Some b ->
             isDirty (nodes t) b = false) ->
          isDirty (nodes t') a = true) /\
       (forall m, m <> n ->
          nodes t' !! m
          = if decide (m ∈ cleanPrefix (nodes t) (n :: anc))
            then set_dirty true <$> nodes t !! m else nodes t !! m) /\
       events t' = events t ++ [EvStateChanged n name (getState name nd) v] /\
       t' = emit (EvStateChanged n name (getState name nd) v)
              (set_nodes (nodes t') t)).
Proof.
  intros H Hf Hn. rewrite (state_closed fuel n anc name v t nd) by done.
  split; intros Hv.
  - by rewrite decide_True.
  - rewrite decide_False by done.
    set (st := <[name := v]> (itree_state (itree nd))).
    set (h1 := <[n := set_state st nd]> (nodes t)).
    pose proof (ancestors_all_present _ _ _ H) as Hall.
    assert (Hbits : forall m, (fun nd => itree_dirty (itree nd)) <$> h1 !! m
              = (fun nd => itree_dirty (itree nd)) <$> nodes t !! m).
    { intros m. unfold h1. destruct (decide (n = m)) as [<-|Hne].
      - by rewrite lookup_insert_eq, Hn.
      - by rewrite lookup_insert_ne. }
    assert (Hkey := fun i a => chain_dirty_after (nodes t) h1 (n :: anc) i a
                                 Hall Hbits).
    assert (Hl : markAll (cleanPrefix (nodes t) (n :: anc)) h1 !! n
                 = Some (set_dirty true (set_state st nd))).
    { destruct (Hkey 0%nat n eq_refl) as [Hd|(j & b & Hj & _)]; [|lia].
      unfold isDirty in Hd. rewrite lookup_markAll in *.
      unfold h1 in *. rewrite lookup_insert_eq in *.
      destruct (decide (n ∈ cleanPrefix (nodes t) (n :: anc))); [done|].
      cbn in Hd. f_equal. destruct nd as [? ? ? []]. cbn in *. by subst. }
    eexists _, _. split; [done|]. cbn [nodes emit set_nodes events].
    split; [exact Hl|]. split; [|split; [|split; [|split; [|split]]]].
    + unfold getState, st. cbn. apply lookup_insert_eq.
    + intros k Hk. unfold getState, st. cbn. by apply lookup_insert_ne.
    + done.
    + intros i a Hi Hclean.
      destruct (Hkey i a Hi) as [Hd|(j & b & Hj & Hb & Hd)]; [done|].
      rewrite (Hclean j b Hj Hb) in Hd. done.
    + intros m Hm. rewrite lookup_markAll. unfold h1.
      by rewrite lookup_insert_ne.
    + done.
Qed.

(** ** Frames *)

Lemma nodeKept_refl (P : string -> Prop) nd : nodeKept P nd nd.
Proof. by repeat split. Qed.

Lemma nodeKept_trans (P : string -> Prop) nd1 nd2 nd3 :
  nodeKept P nd1 nd2 -> nodeKept P nd2 nd3 -> nodeKept P nd1 nd3.
Proof.
  intros (?&?&?&?&K1) (?&?&?&?&K2). repeat split; try congruence.
  intros k Hk. by rewrite K2, K1.
Qed.

Lemma nodeKept_mono (P Q : string -> Prop) nd nd' :
  (forall k, P k -> Q k) -> nodeKept P nd nd' -> nodeKept Q nd nd'.
Proof.
  intros HPQ (?&?&?&?&K1). repeat split; try done.
  intros k Hk. apply K1. naive_solver.
Qed.

Lemma kept_refl (P : ref -> string -> Prop) h : kept P h h.
Proof.
  intros m. destruct (h !! m) as [nd|] eqn:E; [|done].
  exists nd. split; [done|apply nodeKept_refl].
Qed.

Lemma kept_trans (P : ref -> string -> Prop) h1 h2 h3 :
  kept P h1 h2 -> kept P h2 h3 -> kept P h1 h3.
Proof.
  intros H12 H23 m. specialize (H12 m). specialize (H23 m).
  destruct (h1 !! m) as [nd1|].
  - destruct H12 as (nd2 & E2 & K12). rewrite E2 in H23.
    destruct H23 as (nd3 & E3 & K23). exists nd3. split; [done|].
    by eapply nodeKept_trans.
  - by rewrite H12 in H23.
Qed.

Lemma kept_mono (P Q : ref -> string -> Prop) h h' :
  (forall m k, P m k -> Q m k) -> kept P h h' -> kept Q h h'.
Proof.
  intros HPQ H m. specialize (H m). destruct (h !! m) as [nd|]; [|done].
  destruct H as (nd' & E & K). exists nd'. split; [done|].
  eapply nodeKept_mono; [|done]. intros k. apply HPQ.
Qed.

Lemma kept_lookup (P : ref -> string -> Prop) h h' m nd :
  kept P h h' -> h !! m = Some nd ->
  exists nd', h' !! m = Some nd' /\ nodeKept (P m) nd nd'.
Proof. intros H E. specialize (H m). by rewrite E in H. Qed.

Lemma kept_ancestors (P : ref -> string -> Prop) h h' n l :
  kept P h h' -> ancestors h n l -> ancestors h' n l.
Proof.
  intros H. apply ancestors_ext. intros m nd E.
  destruct (kept_lookup _ _ _ _ _ H E) as (nd' & E' & (_&_&_&Hp&_)).
  by exists nd'.
Qed.

Lemma quiet_refl (P : ref -> string -> Prop) t : quiet P t t.
Proof. split; [apply kept_refl|done]. Qed.

Lemma quiet_trans (P : ref -> string -> Prop) t1 t2 t3 :
  quiet P t1 t2 -> quiet P t2 t3 -> quiet P t1 t3.
Proof.
  intros (K1&?&?&?&?&?&?) (K2&?&?&?&?&?&?).
  split; [by eapply kept_trans|]. repeat split; congruence.
Qed.

Lemma quiet_mono (P Q : ref -> string -> Prop) t t' :
  (forall m k, P m k -> Q m k) -> quiet P t t' -> quiet Q t t'.
Proof. intros HPQ (K&?). split; [by eapply kept_mono|done]. Qed.

Lemma countLoadErrors_app (l1 l2 : list Event) :
  countLoadErrors (l1 ++ l2) = (countLoadErrors l1 + countLoadErrors l2)%nat.
Proof. induction l1 as [|e l1 IH]; cbn; [done|]. rewrite IH. lia. Qed.

Lemma kept_markAll (l : list ref) (h : gmap ref TreeNode) :
  kept (fun _ _ => False) h (markAll l h).
Proof.
  intros m. rewrite lookup_markAll.
  destruct (h !! m) as [nd|] eqn:E; destruct (decide (m ∈ l)); cbn; try done.
  - eexists. split; [done|]. by repeat split.
  - exists nd. split; [done|apply nodeKept_refl].
Qed.

Lemma markDirty_quiet (fuel : nat) (n : ref) (anc : list ref) (t : Tree) :
  ancestors (nodes t) n anc -> (length anc < fuel)%nat ->
  exists t', markDirty fuel n t = Some t' /\ quiet (fun _ _ => False) t t' /\
             dom t' = dom t /\ events t' = events t.
Proof.
  intros H Hf. eexists. split; [by eapply markDirty_closed|].
  split; [|done]. split; [apply kept_markAll|done].
Qed.

Lemma kept_insert_state (h : gmap ref TreeNode) n nd name v :
  h !! n = Some nd ->
  kept (fun m k => m = n /\ k = name) h
    (<[n := set_state (<[name := v]> (itree_state (itree nd))) nd]> h).
Proof.
  intros Hn m. destruct (decide (n = m)) as [<-|Hne].
  - rewrite Hn, lookup_insert_eq. eexists. split; [done|].
    repeat split. intros k Hk. unfold getState; cbn.
    apply lookup_insert_ne. intros ->. by apply Hk.
  - rewrite lookup_insert_ne by done. destruct (h !! m) as [md|]; [|done].
    exists md. split; [done|apply nodeKept_refl].
Qed.

Lemma state_quiet (fuel : nat) (n : ref) (anc : list ref) (name : string)
    (v : bool) (t : Tree) :
  ancestors (nodes t) n anc -> (length anc < fuel)%nat ->
  exists t' nd',
    state fuel n name (Some v) t = Some (t', Some v) /\
    quiet (fun m k => m = n /\ k = name) t t' /\ dom t' = dom t /\
    nodes t' !! n = Some nd' /\ getState name nd' = Some v.
Proof.
  intros H Hf. destruct (ancestors_lookup _ _ _ H) as [nd Hn].
  rewrite (state_closed fuel n anc name v t nd) by done.
  destruct (decide (getState name nd = Some v)) as [Hv|Hv].
  - exists t, nd. split; [done|]. split; [apply quiet_refl|done].
  - pose proof (kept_insert_state (nodes t) n nd name v Hn) as K1.
    set (h1 := <[n := _]> (nodes t)) in K1 |- *.
    pose proof (kept_markAll (cleanPrefix (nodes t) (n :: anc)) h1) as K2.
    destruct (kept_lookup _ _ _ _ _ K2 (lookup_insert_eq _ _ _ : h1 !! n = _))
      as (nd' & Hn' & (_&_&_&_&Hst)).
    eexists _, nd'. split; [done|]. cbn [nodes emit set_nodes].
    split; [|split; [done|split; [done|]]].
    + split.
      * eapply kept_trans; [exact K1|].
        eapply kept_mono; [|exact K2]. done.
      * cbn. repeat split; try done.
        rewrite countLoadErrors_app. cbn. lia.
    + rewrite Hst by (by intros []). unfold getState; cbn.
      apply lookup_insert_eq.
Qed.

Lemma applyChanges_quiet (t : Tree) :
  renderFrame renderPass ->
  quiet (fun _ k => k = "rendered") t (applyChanges t).
Proof.
  intros HR. unfold applyChanges, renderNodes.
  destruct (0 <? batching (dom t)); [apply quiet_refl|].
  destruct (rendering (dom t)); [split; [apply kept_refl|done]|].
  destruct (HR (nodes t)) as [K C]. split; [exact K|]. cbn.
  repeat split; try done. rewrite countLoadErrors_app. lia.
Qed.

(** ** Promises *)

Lemma settleOne_lookup (q : nat) (o : Promise) (ps : list Promise) (r : nat) :
  settleOne q o ps !! r
  = if decide (r = q /\ ps !! r = Some Pending) then Some o else ps !! r.
Proof.
  unfold settleOne. destruct (decide (r = q)) as [->|Hne].
  - destruct (ps !! q) as [[]|] eqn:E.
    + rewrite decide_True by done. apply list_lookup_insert_eq.
      by eapply lookup_lt_Some.
    + rewrite decide_False by (intros [_ ?]; congruence). done.
    + rewrite decide_False by (intros [_ ?]; congruence). done.
    + rewrite decide_False by (intros [_ ?]; congruence). done.
    + rewrite decide_False by (intros [_ ?]; congruence). done.
  - rewrite decide_False by tauto.
    destruct (ps !! q) as [[]|]; try done.
    by apply list_lookup_insert_ne.
Qed.

Lemma foldr_settleOne_lookup (o : Promise) (qs : list nat)
    (ps : list Promise) (r : nat) :
  foldr (fun q ps' => settleOne q o ps') ps qs !! r
  = if decide (r ∈ qs /\ ps !! r = Some Pending) then Some o else ps !! r.
Proof.
  induction qs as [|q qs IH]; cbn.
  - rewrite decide_False; [done|]. intros [H _]. by apply not_elem_of_nil in H.
  - rewrite settleOne_lookup, IH.
    destruct (decide (r ∈ qs /\ ps !! r = Some Pending)) as [[Hin Hp]|Hn].
    + rewrite (decide_True (P := r ∈ q :: qs /\ _))
        by (split; [by apply list_elem_of_further|done]).
      by destruct (decide _).
    + destruct (decide (r = q /\ ps !! r = Some Pending)) as [[-> Hp]|Hn'].
      * rewrite decide_True; [done|]. split; [apply list_elem_of_here|done].
      * rewrite decide_False; [done|]. intros [Hin Hp].
        apply elem_of_cons in Hin as [->|Hin]; tauto.
Qed.

Lemma settle_lookup_self (p : nat) (o : Promise) (t : Tree) :
  promises t !! p = Some Pending -> o <> Pending ->
  promises (settle p o t) !! p = Some o.
Proof.
  intros Hp Ho. unfold settle. rewrite Hp. cbn.
  rewrite foldr_settleOne_lookup.
  rewrite list_lookup_insert_eq by (by eapply lookup_lt_Some).
  destruct (decide _) as [[_ ?]|]; [congruence|done].
Qed.

Lemma settle_lookup_follower (p q : nat) (o : Promise) (t : Tree) :
  promises t !! p = Some Pending -> promises t !! q = Some Pending ->
  (p, q) ∈ links t ->
  promises (settle p o t) !! q = Some o.
Proof.
  intros Hp Hq Hl. unfold settle. rewrite Hp. cbn.
  rewrite foldr_settleOne_lookup.
  destruct (decide (p = q)) as [<-|Hne].
  - rewrite list_lookup_insert_eq by (by eapply lookup_lt_Some).
    by destruct (decide _).
  - rewrite list_lookup_insert_ne by done.
    rewrite decide_True; [done|]. split; [|done].
    unfold followers. apply list_elem_of_fmap. exists (p, q). split; [done|].
    by apply list_elem_of_filter.
Qed.

Lemma settle_nodes (p : nat) (o : Promise) (t : Tree) :
  nodes (settle p o t) = nodes t /\ events (settle p o t) = events t /\
  loaderCalls (settle p o t) = loaderCalls t /\
  config (settle p o t) = config t /\ links (settle p o t) = links t.
Proof. unfold settle. by destruct (promises t !! p) as [[]|]. Qed.

(** ** Dynamic loading *)

(** [loadChildren] on a node of a dynamic tree whose children are still
    to be loaded: it returns a fresh pending promise and the loader has
    been called once more. *)
Lemma loadChildren_unloaded (fuel : nat) (n : ref) (anc : list ref)
    (t : Tree) (nd : TreeNode) :
  renderFrame renderPass ->
  ancestors (nodes t) n anc -> (length anc < fuel)%nat ->
  nodes t !! n = Some nd ->
  isDynamic (config t) = true -> childrenIsTrue nd = true ->
  exists t1 nd1,
    loadChildren fuel n t = Some (t1, length (promises t)) /\
    kept (loadingOrRendered n) (nodes t) (nodes t1) /\
    config t1 = config t /\
    loaderCalls t1 = loaderCalls t ++ [n] /\
    promises t1 = promises t ++ [Pending] /\
    links t1 = links t /\
    countLoadErrors (events t1) = countLoadErrors (events t) /\
    nodes t1 !! n = Some nd1 /\ getState "loading" nd1 = Some true.
Proof.
  intros HR H Hf Hn Hdyn Hch. unfold loadChildren, newPromise.
  cbn [nodes set_promises config]. rewrite Hn. cbn [mbind option_bind].
  rewrite Hdyn, Hch. cbn [negb orb].
  set (t0 := set_promises _ t).
  destruct (state_quiet fuel n anc "loading" true t0 H Hf)
    as (t2 & nd2 & -> & Q2 & _ & Hn2 & Hl2).
  cbn [mbind option_bind].
  pose proof (kept_ancestors _ _ _ _ _ (proj1 Q2) H) as H2.
  destruct (markDirty_quiet fuel n anc t2 H2 Hf) as (t3 & -> & Q3 & _ & _).
  cbn [mbind option_bind].
  pose proof (applyChanges_quiet t3 HR) as Q4.
  assert (Q : quiet (loadingOrRendered n) t0 (applyChanges t3)).
  { eapply quiet_trans; [|eapply quiet_trans].
    - eapply quiet_mono; [|exact Q2]. unfold loadingOrRendered. tauto.
    - eapply quiet_mono; [|exact Q3]. by intros ? ? [].
    - eapply quiet_mono; [|exact Q4]. unfold loadingOrRendered. tauto. }
  destruct Q as (K & Hc & _ & Hlc & Hps & Hls & Hev).
  rewrite Hc. cbn [config t0 set_promises]. rewrite Hdyn.
  destruct (kept_lookup _ _ _ _ _ (proj1 Q3) Hn2) as (nd3 & Hn3 & K3).
  destruct (kept_lookup _ _ _ _ _ (proj1 Q4) Hn3) as (nd4 & Hn4 & K4).
  exists (callLoader n (applyChanges t3)), nd4.
  split; [done|]. cbn [nodes callLoader config loaderCalls promises links events].
  split; [exact K|]. split; [by rewrite Hc|]. split; [by rewrite Hlc|].
  split; [by rewrite Hps|]. split; [by rewrite Hls|]. split; [by rewrite Hev|].
  split; [done|].
  destruct K3 as (_&_&_&_&K3), K4 as (_&_&_&_&K4).
  rewrite K4 by (cbv beta; congruence). rewrite K3 by tauto. done.
Qed.

(** The [error] callback on a node with a finite parent chain. *)
Lemma loadChildren_error_recovers (fuel : nat) (n : ref) (anc : list ref)
    (p : nat) (err : string) (t : Tree) (nd : TreeNode) :
  renderFrame renderPass ->
  ancestors (nodes t) n anc -> (length anc < fuel)%nat ->
  nodes t !! n = Some nd -> promises t !! p = Some Pending ->
  exists t2 nd2,
    loadChildren_error fuel n p err t = Some t2 /\
    nodes t2 !! n = Some nd2 /\
    loading nd2 = Some false /\ children nd2 = ChNodes [] /\
    (forall k, k <> "loading" -> k <> "rendered" ->
       getState k nd2 = getState k nd) /\
    promises t2 !! p = Some (Rejected err) /\
    (forall q, (p, q) ∈ links t -> promises t !! q = Some Pending ->
       promises t2 !! q = Some (Rejected err)) /\
    (exists evs, events t2 = evs ++ [EvLoadError err] /\
                 countLoadErrors evs = countLoadErrors (events t)) /\
    countLoadErrors (events t2) = S (countLoadErrors (events t)) /\
    loaderCalls t2 = loaderCalls t.
Proof.
  intros HR H Hf Hn Hp. unfold loadChildren_error.
  destruct (state_quiet fuel n anc "loading" false t H Hf)
    as (t1 & nd1 & -> & Q1 & _ & Hn1 & Hl1).
  cbn [mbind option_bind]. rewrite Hn1. cbn [mbind option_bind].
  set (t2 := set_nodes (<[n := set_children (ChNodes []) nd1]> (nodes t1)) t1).
  assert (H2 : ancestors (nodes t2) n anc).
  { pose proof (kept_ancestors _ _ _ _ _ (proj1 Q1) H) as H1.
    revert H1. apply ancestors_ext. intros m md Hm. unfold t2. cbn.
    destruct (decide (n = m)) as [<-|Hne].
    - rewrite lookup_insert_eq. eexists. split; [done|].
      rewrite Hn1 in Hm. by injection Hm as <-.
    - rewrite lookup_insert_ne by done. by eexists. }
  destruct (markDirty_quiet fuel n anc t2 H2 Hf) as (t3 & -> & Q3 & _ & Hev3).
  cbn [mbind option_bind].
  pose proof (applyChanges_quiet t3 HR) as Q4.
  assert (Hn2 : nodes t2 !! n = Some (set_children (ChNodes []) nd1))
    by apply lookup_insert_eq.
  destruct (kept_lookup _ _ _ _ _ (proj1 Q3) Hn2) as (nd3 & Hn3 & K3).
  destruct (kept_lookup _ _ _ _ _ (proj1 Q4) Hn3) as (nd4 & Hn4 & K4).
  destruct (kept_lookup _ _ _ _ _ (proj1 Q1) Hn) as (nd1' & Hn1' & K1).
  rewrite Hn1 in Hn1'. injection Hn1' as <-.
  destruct (settle_nodes p (Rejected err) (applyChanges t3))
    as (Sn & Se & Sl & _ & _).
  destruct Q1 as (_ & _ & _ & Hlc1 & Hps1 & Hls1 & Hev1).
  destruct Q3 as (_ & _ & _ & Hlc3 & Hps3 & Hls3 & _).
  destruct Q4 as (_ & _ & _ & Hlc4 & Hps4 & Hls4 & Hev4).
  assert (Hps : promises (applyChanges t3) = promises t)
    by (rewrite Hps4, Hps3; exact Hps1).
  assert (Hls : links (applyChanges t3) = links t)
    by (rewrite Hls4, Hls3; exact Hls1).
  assert (Hev : countLoadErrors (events (applyChanges t3))
                = countLoadErrors (events t))
    by (rewrite Hev4, Hev3; exact Hev1).
  exists (emit (EvLoadError err) (settle p (Rejected err) (applyChanges t3))), nd4.
  split; [done|]. cbn [nodes emit events promises loaderCalls].
  rewrite Sn, Se, Sl.
  destruct K1 as (_&_&_&_&K1), K3 as (_&_&Kc3&_&K3), K4 as (_&_&Kc4&_&K4).
  split; [done|]. split; [|split; [|split; [|split; [|split; [|split; [|split]]]]]].
  - unfold loading. rewrite K4 by (cbv beta; congruence).
    rewrite K3 by tauto. exact Hl1.
  - by rewrite Kc4, Kc3.
  - intros k Hk1 Hk2. rewrite K4 by done. rewrite K3 by tauto.
    apply K1. intros [_ ?]. done.
  - apply settle_lookup_self; [by rewrite Hps|done].
  - intros q Hq Hpq. apply settle_lookup_follower; by rewrite ?Hps, ?Hls.
  - eexists. split; [done|exact Hev].
  - rewrite countLoadErrors_app, Hev. cbn. lia.
  - rewrite Hlc4, Hlc3. exact Hlc1.
Qed.


(** [expand()] on a collapsed or hidden node of a dynamic tree whose
    children are still to be loaded: the node is no longer collapsed nor
    hidden, the loader has been called, and the promise returned follows
    the pending promise of the load. *)
Lemma expand_unloaded (fuel : nat) (n : ref) (anc : list ref)
    (t : Tree) (nd : TreeNode) :
  renderFrame renderPass ->
  ancestors (nodes t) n anc -> (length anc < fuel)%nat ->
  nodes t !! n = Some nd ->
  isDynamic (config t) = true -> childrenIsTrue nd = true ->
  truthy (collapsed nd) || truthy (hidden nd) = true ->
  exists t1 nd1,
    expand fuel n t = Some (t1, length (promises t)) /\
    ancestors (nodes t1) n anc /\
    nodes t1 !! n = Some nd1 /\
    collapsed nd1 = Some false /\ hidden nd1 = Some false /\
    loading nd1 = Some true /\ childrenIsTrue nd1 = true /\
    config t1 = config t /\
    loaderCalls t1 = loaderCalls t ++ [n] /\
    promises t1 = promises t ++ [Pending; Pending] /\
    links t1 = links t ++ [(S (length (promises t)), length (promises t))] /\
    countLoadErrors (events t1) = countLoadErrors (events t).
Proof.
  intros HR H Hf Hn Hdyn Hch Hcol. unfold expand, newPromise.
  cbn [nodes set_promises config]. rewrite Hn. cbn [mbind option_bind].
  rewrite Hdyn, Hch, Hcol, orb_true_r. cbn [andb].
  set (t0 := set_promises _ t).
  destruct (state_quiet fuel n anc "collapsed" false t0 H Hf)
    as (t1 & nd1 & -> & Q1 & _ & Hn1 & Hc1).
  cbn [mbind option_bind].
  pose proof (kept_ancestors _ _ _ _ _ (proj1 Q1) H) as H1.
  destruct (state_quiet fuel n anc "hidden" false t1 H1 Hf)
    as (t2 & nd2 & -> & Q2 & _ & Hn2 & Hh2).
  cbn [mbind option_bind nodes emit].
  pose proof (kept_ancestors _ _ _ _ _ (proj1 Q2) H1) as H2.
  rewrite Hn2. cbn [mbind option_bind config emit].
  destruct (kept_lookup _ _ _ _ _ (proj1 Q1) Hn) as (nd1' & Hn1' & K1).
  rewrite Hn1 in Hn1'. injection Hn1' as <-.
  destruct (kept_lookup _ _ _ _ _ (proj1 Q2) Hn1) as (nd2' & Hn2' & K2).
  rewrite Hn2 in Hn2'. injection Hn2' as <-.
  assert (Hch2 : childrenIsTrue nd2 = true).
  { unfold childrenIsTrue in *. destruct K1 as (_&_&E1&_), K2 as (_&_&E2&_).
    by rewrite E2, E1. }
  destruct Q1 as (_ & Hcf1 & _ & Hlc1 & Hps1 & Hls1 & Hev1).
  destruct Q2 as (_ & Hcf2 & _ & Hlc2 & Hps2 & Hls2 & Hev2).
  assert (Hdyn2 : isDynamic (config t2) = true) by (by rewrite Hcf2, Hcf1).
  rewrite Hdyn2, Hch2. cbn [andb].
  set (t3 := emit (EvNode "node.expanded" n) t2).
  destruct (loadChildren_unloaded fuel n anc t3 nd2 HR H2 Hf Hn2 Hdyn2 Hch2)
    as (t4 & nd4 & -> & K4 & Hcf4 & Hlc4 & Hps4 & Hls4 & Hev4 & Hn4 & Hl4).
  cbn [mbind option_bind].
  assert (Hps3 : promises t3 = promises t ++ [Pending])
    by (cbn; by rewrite Hps2, Hps1).
  assert (Hlen : length (promises t3) = S (length (promises t)))
    by (rewrite Hps3, length_app; cbn; lia).
  assert (Hp4 : promises t4 = promises t ++ [Pending; Pending]).
  { rewrite Hps4, Hps3, <- app_assoc. done. }
  unfold follow. rewrite Hp4, Hlen.
  rewrite (lookup_app_r (promises t)) by lia.
  replace (S (length (promises t)) - length (promises t))%nat with 1%nat by lia.
  cbn [lookup list_lookup].
  destruct (kept_lookup _ _ _ _ _ K4 Hn2) as (nd4' & Hn4' & K4n).
  cbn [nodes emit t3] in Hn4'. rewrite Hn4 in Hn4'. injection Hn4' as <-.
  exists (set_links (links t4 ++ [(S (length (promises t)), length (promises t))]) t4),
    nd4.
  split; [done|]. cbn [nodes set_links config loaderCalls promises links events].
  destruct K1 as (_&_&_&_&K1), K2 as (_&_&_&_&K2), K4n as (_&_&Kc4&_&K4n).
  split; [by eapply kept_ancestors|]. split; [done|].
  assert (Hne : forall k, k <> "loading" -> k <> "rendered" ->
            ~ loadingOrRendered n n k) by (unfold loadingOrRendered; tauto).
  split; [|split; [|split; [|split]]].
  - unfold collapsed. rewrite K4n by (by apply Hne).
    rewrite K2 by (intros [_ ?]; done). done.
  - unfold hidden. rewrite K4n by (by apply Hne). done.
  - done.
  - unfold childrenIsTrue in *. by rewrite Kc4.
  - split; [by rewrite Hcf4; cbn; rewrite Hcf2, Hcf1|].
    split; [by rewrite Hlc4; cbn; rewrite Hlc2, Hlc1|].
    split; [done|].
    split; [by rewrite Hls4; cbn; rewrite Hls2, Hls1|].
    rewrite Hev4. cbn. rewrite countLoadErrors_app. cbn.
    rewrite Hev2, Hev1. cbn. lia.
Qed.

(** C6. A node of a dynamic tree whose children are still to be loaded,
    with a finite parent chain. [loadChildren()] returns a pending promise
    after calling the loader; when the loader then reports a failure
    through the [error] callback, the callback returns and leaves the node
    with [loading] false and an empty children collection, the promise
    rejected with the error reported, and exactly one more
    [tree.loaderror] in the event trace, emitted last. When the load was
    started by [expand()] on the collapsed or hidden node, the node has
    [collapsed] false besides, and the promise that [expand()] returned
    is rejected with the same error. *)
Theorem load_failure_recovers_locally
    (fuel : nat) (n : ref) (anc : list ref) (t : Tree) (nd : TreeNode)
    (err : string) :
  renderFrame renderPass ->
  ancestors (nodes t) n anc -> (length anc < fuel)%nat ->
  nodes t !! n = Some nd ->
  isDynamic (config t) = true -> childrenIsTrue nd = true ->
  (exists t1 p,
     loadChildren fuel n t = Some (t1, p) /\
     promises t1 !! p = Some Pending /\
     loaderCalls t1 = loaderCalls t ++ [n] /\
     exists t2 nd2 evs,
       loadChildren_error fuel n p err t1 = Some t2 /\
       nodes t2 !! n = Some nd2 /\
       loading nd2 = Some false /\ children nd2 = ChNodes [] /\
       promises t2 !! p = Some (Rejected err) /\
       events t2 = evs ++ [EvLoadError err] /\
       countLoadErrors evs = countLoadErrors (events t) /\
       countLoadErrors (events t2) = S (countLoadErrors (events t)) /\
       loaderCalls t2 = loaderCalls t ++ [n]) /\
  (truthy (collapsed nd) || truthy (hidden nd) = true ->
   exists t1 pe pl,
     expand fuel n t = Some (t1, pe) /\
     promises t1 !! pe = Some Pending /\
     promises t1 !! pl = Some Pending /\
     (pl, pe) ∈ links t1 /\
     loaderCalls t1 = loaderCalls t ++ [n] /\
     exists t2 nd2 evs,
       loadChildren_error fuel n pl err t1 = Some t2 /\
       nodes t2 !! n = Some nd2 /\
       collapsed nd2 = Some false /\
       loading nd2 = Some false /\ children nd2 = ChNodes [] /\
       promises t2 !! pl = Some (Rejected err) /\
       promises t2 !! pe = Some (Rejected err) /\
       events t2 = evs ++ [EvLoadError err] /\
       countLoadErrors evs = countLoadErrors (events t) /\
       countLoadErrors (events t2) = S (countLoadErrors (events t)) /\
       loaderCalls t2 = loaderCalls t ++ [n]).
Proof.
  intros HR H Hf Hn Hdyn Hch. split.
  - destruct (loadChildren_unloaded fuel n anc t nd HR H Hf Hn Hdyn Hch)
      as (t1 & nd1 & Hl & K1 & Hcf1 & Hlc1 & Hps1 & Hls1 & Hev1 & Hn1 & _).
    assert (Hp : promises t1 !! length (promises t) = Some Pending).
    { rewrite Hps1, lookup_app_r, Nat.sub_diag by lia. done. }
    exists t1, (length (promises t)). do 3 (split; [done|]).
    destruct (loadChildren_error_recovers fuel n anc (length (promises t)) err
                t1 nd1 HR (kept_ancestors _ _ _ _ _ K1 H) Hf Hn1 Hp)
      as (t2 & nd2 & He & Hn2 & Hl2 & Hc2 & _ & Hp2 & _ & (evs & Hevs & Hcnt)
          & Hcnt2 & Hlc2).
    exists t2, nd2, evs. do 6 (split; [done|]).
    split; [by rewrite Hcnt|]. split; [by rewrite Hcnt2, Hev1|].
    by rewrite Hlc2.
  - intros Hcol.
    destruct (expand_unloaded fuel n anc t nd HR H Hf Hn Hdyn Hch Hcol)
      as (t1 & nd1 & He & H1 & Hn1 & Hc1 & _ & _ & _ & _ & Hlc1 & Hps1
          & Hls1 & Hev1).
    assert (Hpe : promises t1 !! length (promises t) = Some Pending).
    { rewrite Hps1, lookup_app_r, Nat.sub_diag by lia. done. }
    assert (Hpl : promises t1 !! S (length (promises t)) = Some Pending).
    { rewrite Hps1, lookup_app_r by lia.
      by replace (S (length (promises t)) - length (promises t))%nat
        with 1%nat by lia. }
    assert (Hlk : (S (length (promises t)), length (promises t)) ∈ links t1).
    { rewrite Hls1. apply elem_of_app. right. apply list_elem_of_here. }
    exists t1, (length (promises t)), (S (length (promises t))).
    do 5 (split; [done|]).
    destruct (loadChildren_error_recovers fuel n anc (S (length (promises t)))
                err t1 nd1 HR H1 Hf Hn1 Hpl)
      as (t2 & nd2 & He2 & Hn2 & Hl2 & Hc2 & Hk2 & Hp2 & Hf2
          & (evs & Hevs & Hcnt) & Hcnt2 & Hlc2).
    exists t2, nd2, evs. do 2 (split; [done|]).
    split; [unfold collapsed; by rewrite Hk2|].
    do 3 (split; [done|]). split; [by apply Hf2|]. split; [done|].
    split; [by rewrite Hcnt|]. split; [by rewrite Hcnt2, Hev1|].
    by rewrite Hlc2.
Qed.

(** C7, as the code has it. [loadChildren()] does not look at the
    [loading] flag. On a node of a dynamic tree whose load is in flight
    ([loading] true, children still [true]) a second [loadChildren()]
    returns a new pending promise, not a rejected one, and calls the data
    loader once more; the node stays as it was. Only [expand()] spares
    the second fetch: on the node, no longer collapsed nor hidden, it
    resolves its promise with the node at once and does not call the
    loader. *)
Theorem second_load_is_not_guarded
    (fuel : nat) (n : ref) (anc : list ref) (t : Tree) (nd : TreeNode) :
  renderFrame renderPass ->
  ancestors (nodes t) n anc -> (length anc < fuel)%nat ->
  nodes t !! n = Some nd ->
  isDynamic (config t) = true -> childrenIsTrue nd = true ->
  truthy (loading nd) = true ->
  (exists t1 p nd1,
     loadChildren fuel n t = Some (t1, p) /\
     promises t1 = promises t ++ [Pending] /\
     promises t1 !! p = Some Pending /\
     loaderCalls t1 = loaderCalls t ++ [n] /\
     nodes t1 !! n = Some nd1 /\
     truthy (loading nd1) = true /\ childrenIsTrue nd1 = true) /\
  (truthy (collapsed nd) = false -> truthy (hidden nd) = false ->
   exists t1 p,
     expand fuel n t = Some (t1, p) /\
     promises t1 !! p = Some (ResolvedNode n) /\
     loaderCalls t1 = loaderCalls t /\ nodes t1 = nodes t).
Proof.
  intros HR H Hf Hn Hdyn Hch Hl. split.
  - destruct (loadChildren_unloaded fuel n anc t nd HR H Hf Hn Hdyn Hch)
      as (t1 & nd1 & Hld & K1 & _ & Hlc1 & Hps1 & _ & _ & Hn1 & Hl1).
    exists t1, (length (promises t)), nd1. do 2 (split; [done|]).
    split; [by rewrite Hps1, lookup_app_r, Nat.sub_diag by lia|].
    do 2 (split; [done|]). split; [unfold loading; by rewrite Hl1|].
    destruct (kept_lookup _ _ _ _ _ K1 Hn) as (nd1' & Hn1' & (_&_&Kc&_)).
    rewrite Hn1 in Hn1'. injection Hn1' as <-.
    unfold childrenIsTrue in *. by rewrite Kc.
  - intros Hc Hh. unfold expand, newPromise.
    cbn [nodes set_promises config]. rewrite Hn. cbn [mbind option_bind].
    rewrite Hc, Hh, andb_false_r.
    eexists _, _. split; [done|].
    destruct (settle_nodes (length (promises t)) (ResolvedNode n)
                (set_promises (promises t ++ [Pending]) t))
      as (Sn & _ & Sl & _ & _).
    split; [|by rewrite Sn, Sl].
    apply settle_lookup_self; [|done]. cbn.
    by rewrite lookup_app_r, Nat.sub_diag by lia.
Qed.

(** ** Structure under frames *)

Lemma nodeKept_children (P : string -> Prop) nd nd' :
  nodeKept P nd nd' -> getChildNodes nd' = getChildNodes nd.
Proof. intros (_&_&Hc&_). unfold getChildNodes. by rewrite Hc. Qed.

Lemma nodeKept_hasChildren (P : string -> Prop) nd nd' :
  nodeKept P nd nd' -> hasChildren nd' = hasChildren nd.
Proof. intros (_&_&Hc&_). unfold hasChildren. by rewrite Hc. Qed.

Lemma kept_lookup_inv (P : ref -> string -> Prop) h h' m nd' :
  kept P h h' -> h' !! m = Some nd' ->
  exists nd, h !! m = Some nd /\ nodeKept (P m) nd nd'.
Proof.
  intros K E. specialize (K m). destruct (h !! m) as [nd|].
  - destruct K as (nd'' & E' & K). rewrite E in E'. injection E' as <-.
    by exists nd.
  - congruence.
Qed.

Lemma kept_linkedDown (P : ref -> string -> Prop) h h' :
  kept P h h' -> linkedDown h -> linkedDown h'.
Proof.
  intros K L1 p pd' c Hp Hc.
  destruct (kept_lookup_inv _ _ _ _ _ K Hp) as (pd & Hp0 & Kp).
  rewrite (nodeKept_children _ _ _ Kp) in Hc.
  destruct (L1 p pd c Hp0 Hc) as (cd & Hc0 & Hpar).
  destruct (kept_lookup _ _ _ _ _ K Hc0) as (cd' & Hc' & (_&_&_&Hp'&_)).
  exists cd'. split; [done|congruence].
Qed.

Lemma kept_linkedUp (P : ref -> string -> Prop) h h' :
  kept P h h' -> linkedUp h -> linkedUp h'.
Proof.
  intros K L2 c cd' p Hc Hpar.
  destruct (kept_lookup_inv _ _ _ _ _ K Hc) as (cd & Hc0 & (_&_&_&Hp'&_)).
  rewrite Hp' in Hpar.
  destruct (L2 c cd p Hc0 Hpar) as (pd & Hp0 & Hin).
  destruct (kept_lookup _ _ _ _ _ K Hp0) as (pd' & Hpd' & Kp).
  exists pd'. split; [done|]. by rewrite (nodeKept_children _ _ _ Kp).
Qed.

Lemma kept_linked (P : ref -> string -> Prop) h h' :
  kept P h h' -> linked h -> linked h'.
Proof.
  intros K [L1 L2].
  split; [by eapply kept_linkedDown|by eapply kept_linkedUp].
Qed.


Lemma kept_descendant (P : ref -> string -> Prop) h h' n c :
  kept P h h' -> descendant h n c -> descendant h' n c.
Proof.
  intros K. induction 1 as [nd c Hn Hc|m md c _ IH Hm Hc].
  - destruct (kept_lookup _ _ _ _ _ K Hn) as (nd' & Hn' & Kn).
    eapply descendant_child; [done|].
    by rewrite (nodeKept_children _ _ _ Kn).
  - destruct (kept_lookup _ _ _ _ _ K Hm) as (md' & Hm' & Km).
    eapply descendant_step; [done..|].
    by rewrite (nodeKept_children _ _ _ Km).
Qed.

Lemma depthLe_mono (h : gmap ref TreeNode) n d d' :
  depthLe h n d -> (d <= d')%nat -> depthLe h n d'.
Proof.
  intros H. revert d'. induction H as [n nd d Hn _ IH]. intros d' Hd.
  destruct d' as [|d']; [lia|].
  eapply depthLe_node; [done|]. intros c Hc. apply IH; [done|lia].
Qed.

Lemma descendant_chain (h : gmap ref TreeNode) n anc c :
  linkedDown h -> ancestors h n anc -> descendant h n c ->
  exists l, ancestors h c (l ++ n :: anc).
Proof.
  intros L1 H. induction 1 as [nd c Hn Hc|m md c _ [l IH] Hm Hc].
  - destruct (L1 n nd c Hn Hc) as (cd & Hcd & Hp).
    exists []. by eapply ancestors_step.
  - destruct (L1 m md c Hm Hc) as (cd & Hcd & Hp).
    exists (m :: l). by eapply ancestors_step.
Qed.

Lemma descendant_not_ancestor (h : gmap ref TreeNode) n anc c :
  linkedDown h -> ancestors h n anc -> descendant h n c -> c ∉ n :: anc.
Proof.
  intros L H D Hin. destruct (descendant_chain _ _ _ _ L H D) as [l Hc].
  apply elem_of_cons in Hin as [->|Hin].
  - pose proof (ancestors_fun _ _ _ _ H Hc) as E.
    apply (f_equal length) in E. rewrite length_app in E. cbn in E. lia.
  - destruct (ancestors_elem _ _ _ _ H Hin) as (l' & Hl' & Hlen).
    pose proof (ancestors_fun _ _ _ _ Hl' Hc) as E.
    apply (f_equal length) in E. rewrite length_app in E. cbn in E. lia.
Qed.

(** A fold of [forEach] along a preorder [R] that each step extends. *)
Lemma forEach_rel {A S : Type} (R : S -> S -> Prop) (Q : A -> S -> Prop)
    (f : A -> S -> option S) (l : list A) (s : S) :
  (forall s0, R s0 s0) ->
  (forall s1 s2 s3, R s1 s2 -> R s2 s3 -> R s1 s3) ->
  (forall k s1, k ∈ l -> R s s1 ->
     exists s2, f k s1 = Some s2 /\ R s1 s2 /\ Q k s2) ->
  (forall k s1 s2, Q k s1 -> R s1 s2 -> Q k s2) ->
  exists s', forEach f l s = Some s' /\ R s s' /\ forall k, k ∈ l -> Q k s'.
Proof.
  intros Hrefl Htrans Hstep Hmono.
  assert (G : forall s1, R s s1 ->
    exists s', forEach f l s1 = Some s' /\ R s1 s' /\ forall k, k ∈ l -> Q k s').
  { induction l as [|m r IH]; intros s1 Hs1.
    - exists s1. split; [done|]. split; [apply Hrefl|].
      intros k Hk. by apply not_elem_of_nil in Hk.
    - destruct (Hstep m s1 (list_elem_of_here _ _) Hs1) as (s2 & E & R12 & Qm).
      destruct (IH (fun k s0 Hk => Hstep k s0 (list_elem_of_further _ _ _ Hk))
                  s2 (Htrans _ _ _ Hs1 R12)) as (s' & E' & R2 & Qr).
      exists s'. cbn. rewrite E. cbn. split; [done|].
      split; [by eapply Htrans|].
      intros k Hk. apply elem_of_cons in Hk as [->|Hk]; [|by apply Qr].
      by eapply Hmono. }
  by apply G.
Qed.

(** ** baseStateChange and the walk down *)






(** ** refreshIndeterminateState *)

Lemma countFlag_spec (name : string) (l : list ref) (h : gmap ref TreeNode) :
  (forall m, m ∈ l -> is_Some (h !! m)) ->
  exists c, countFlag name l h = Some c /\ (c <= length l)%nat /\
            (c = length l <-> forall m, m ∈ l -> flagSet name h m).
Proof.
  induction l as [|a l IH]; intros Hall.
  - exists 0%nat. split; [done|]. split; [done|]. split; [|done].
    intros _ m Hm. by apply not_elem_of_nil in Hm.
  - destruct (Hall a (list_elem_of_here _ _)) as [ad Ha].
    destruct IH as (c & Ec & Hle & Hiff).
    { intros m Hm. apply Hall. by apply list_elem_of_further. }
    cbn [countFlag]. rewrite Ha, Ec. cbn [mbind option_bind length].
    destruct (truthy (getState name ad)) eqn:Et; eexists; (split; [done|]).
    + split; [lia|]. split.
      * intros E. assert (E' : c = length l) by lia.
        intros m Hm. apply elem_of_cons in Hm as [->|Hm].
        -- by exists ad.
        -- by apply Hiff.
      * intros Hs. f_equal. apply Hiff. intros m Hm. apply Hs.
        by apply list_elem_of_further.
    + split; [lia|]. split; [lia|].
      intros Hs. destruct (Hs a (list_elem_of_here _ _)) as (ad' & Ha' & Ht).
      congruence.
Qed.

Lemma flagSet_kept (P : ref -> string -> Prop) h h' name m :
  kept P h h' -> ~ P m name -> (flagSet name h m <-> flagSet name h' m).
Proof.
  intros K HP. split; intros (md & Hm & Ht).
  - destruct (kept_lookup _ _ _ _ _ K Hm) as (md' & Hm' & (_&_&_&_&Kf)).
    exists md'. split; [done|]. by rewrite Kf.
  - destruct (kept_lookup_inv _ _ _ _ _ K Hm) as (md0 & Hm0 & (_&_&_&_&Kf)).
    exists md0. split; [done|]. by rewrite <- Kf.
Qed.

Lemma refreshed_kept (P : ref -> string -> Prop) h h' b :
  kept P h h' -> ~ P b "selected" -> ~ P b "indeterminate" ->
  (forall bd c, h !! b = Some bd -> c ∈ getChildNodes bd -> ~ P c "selected") ->
  refreshed h b -> refreshed h' b.
Proof.
  intros K Pb1 Pb2 Pc (bd & Hb & Hr).
  destruct (kept_lookup _ _ _ _ _ K Hb) as (bd' & Hb' & Kb).
  exists bd'. split; [done|].
  rewrite (nodeKept_hasChildren _ _ _ Kb), (nodeKept_children _ _ _ Kb).
  destruct Kb as (_&_&_&_&Kf). unfold selected, indeterminate.
  rewrite !Kf by done.
  intros Hc. destruct (Hr Hc) as [Hiff Hind]. split; [|done].
  rewrite Hiff. split; intros Hs c Hin.
  - apply (flagSet_kept _ _ _ _ _ K (Pc bd c Hb Hin)). by apply Hs.
  - apply (flagSet_kept _ _ _ _ _ K (Pc bd c Hb Hin)). by apply Hs.
Qed.

Lemma child_not_on_chain (h : gmap ref TreeNode) a anc ad c :
  linkedDown h -> ancestors h a anc -> h !! a = Some ad ->
  c ∈ getChildNodes ad -> c ∉ a :: anc.
Proof.
  intros L H Ha Hc. eapply descendant_not_ancestor; [done..|].
  by eapply descendant_child.
Qed.

Lemma refreshIndeterminateState_S (fuel : nat) (n : ref) (t : Tree) :
  refreshIndeterminateState (S fuel) n t
  = nd ← nodes t !! n;
    '(t1, _) ← state (S fuel) n "indeterminate" (Some false) t;
    if showCheckboxes (config t1) then
      nd1 ← nodes t1 !! n;
      t3 ← (if hasChildren nd1 then
              sel ← countFlag "selected" (getChildNodes nd1) (nodes t1);
              ind ← countFlag "indeterminate" (getChildNodes nd1) (nodes t1);
              '(t2, _) ← state (S fuel) n "selected"
                           (Some (sel =? length (getChildNodes nd1))%nat) t1;
              nd2 ← nodes t2 !! n;
              if negb (truthy (selected nd2)) then
                '(t3, _) ← state (S fuel) n "indeterminate"
                             (Some ((0 <? ind)%nat
                                    || ((0 <? length (getChildNodes nd1))%nat
                                        && (0 <? sel)%nat
                                        && (sel <? length (getChildNodes nd1))%nat)))
                             t2;
                Some t3
              else Some t2
            else Some t1);
      nd3 ← nodes t3 !! n;
      t4 ← match getParent nd3 with
           | Some p => refreshIndeterminateState fuel p t3
           | None => Some t3
           end;
      nd4 ← nodes t4 !! n;
      if decide (indeterminate nd = indeterminate nd4) then Some t4
      else markDirty (S fuel) n t4
    else Some t1.
Proof. done. Qed.

(** The part of [refreshIndeterminateState] that concerns the node
    itself, before the walk goes on to the parent. *)
Lemma refresh_own (fuel : nat) (a : ref) (anc : list ref) (t1 : Tree)
    (nd1 : TreeNode) :
  linkedDown (nodes t1) -> ancestors (nodes t1) a anc -> (length anc < fuel)%nat ->
  nodes t1 !! a = Some nd1 -> getState "indeterminate" nd1 = Some false ->
  exists t3,
    (if hasChildren nd1 then
       sel ← countFlag "selected" (getChildNodes nd1) (nodes t1);
       ind ← countFlag "indeterminate" (getChildNodes nd1) (nodes t1);
       '(t2, _) ← state fuel a "selected"
                    (Some (sel =? length (getChildNodes nd1))%nat) t1;
       nd2 ← nodes t2 !! a;
       if negb (truthy (selected nd2)) then
         '(t3, _) ← state fuel a "indeterminate"
                      (Some ((0 <? ind)%nat
                             || ((0 <? length (getChildNodes nd1))%nat
                                 && (0 <? sel)%nat
                                 && (sel <? length (getChildNodes nd1))%nat)))
                      t2;
         Some t3
       else Some t2
     else Some t1) = Some t3 /\
    quiet (ownFlags a) t1 t3 /\ refreshed (nodes t3) a.
Proof.
  intros L H Hf Hn1 Hi1.
  destruct (hasChildren nd1) eqn:Ehc.
  2:{ exists t1. split; [done|]. split; [apply quiet_refl|].
      exists nd1. split; [done|]. intros ?; congruence. }
  assert (Hpres : forall m, m ∈ getChildNodes nd1 -> is_Some (nodes t1 !! m)).
  { intros m Hm. destruct (L a nd1 m Hn1 Hm) as (md & Hmd & _).
    by eexists. }
  destruct (countFlag_spec "selected" _ _ Hpres) as (sel & -> & Hle & Hsel).
  destruct (countFlag_spec "indeterminate" _ _ Hpres) as (ind & -> & _ & _).
  cbn [mbind option_bind].
  set (cnt := length (getChildNodes nd1)) in *.
  destruct (state_quiet fuel a anc "selected" (sel =? cnt)%nat t1 H Hf)
    as (t2 & nd2 & -> & Q2 & _ & Hn2 & Hs2).
  cbn [mbind option_bind]. rewrite Hn2. cbn [mbind option_bind].
  destruct (kept_lookup _ _ _ _ _ (proj1 Q2) Hn1) as (nd2' & Hn2' & K2).
  rewrite Hn2 in Hn2'. injection Hn2' as <-.
  assert (Q2' : quiet (ownFlags a) t1 t2).
  { eapply quiet_mono; [|exact Q2]. intros m k [-> ->]. split; [done|by left]. }
  assert (Hkids : forall c, c ∈ getChildNodes nd1 -> c <> a).
  { intros c Hc ->.
    apply (child_not_on_chain _ _ _ _ _ L H Hn1 Hc), list_elem_of_here. }
  assert (Hiff : forall t' nd', quiet (ownFlags a) t1 t' ->
            nodes t' !! a = Some nd' -> getState "selected" nd' = Some (sel =? cnt)%nat ->
            (truthy (selected nd') = true <->
             forall c, c ∈ getChildNodes nd' -> flagSet "selected" (nodes t') c)).
  { intros t' nd' Q' Hn' Hs'.
    destruct (kept_lookup _ _ _ _ _ (proj1 Q') Hn1) as (nd'' & Hn'' & K').
    rewrite Hn' in Hn''. injection Hn'' as <-.
    rewrite (nodeKept_children _ _ _ K'). unfold selected. rewrite Hs'.
    cbn [truthy].
    assert (E : (if (sel =? cnt)%nat then true else false) = true <-> sel = cnt).
    { destruct (Nat.eqb_spec sel cnt); split; done. }
    rewrite E, Hsel. split; intros Hs c Hc.
    - apply (flagSet_kept _ _ _ "selected" c (proj1 Q')); [|by apply Hs].
      intros [-> _]. by apply (Hkids a).
    - apply (flagSet_kept _ _ _ "selected" c (proj1 Q')); [|by apply Hs].
      intros [-> _]. by apply (Hkids a). }
  destruct (truthy (selected nd2)) eqn:Et; cbn [negb].
  - exists t2. split; [done|]. split; [done|].
    exists nd2. split; [done|]. intros _. split; [by apply Hiff|].
    intros _. unfold indeterminate.
    destruct K2 as (_&_&_&_&Kf). rewrite Kf by (by intros [_ ?]).
    by rewrite Hi1.
  - pose proof (kept_ancestors _ _ _ _ _ (proj1 Q2) H) as H2.
    destruct (state_quiet fuel a anc "indeterminate"
                ((0 <? ind)%nat || ((0 <? cnt)%nat && (0 <? sel)%nat && (sel <? cnt)%nat))
                t2 H2 Hf)
      as (t3 & nd3 & -> & Q3 & _ & Hn3 & Hi3).
    cbn [mbind option_bind].
    assert (Q3' : quiet (ownFlags a) t1 t3).
    { eapply quiet_trans; [exact Q2'|].
      eapply quiet_mono; [|exact Q3]. intros m k [-> ->]. split; [done|by right]. }
    exists t3. split; [done|]. split; [done|].
    destruct (kept_lookup _ _ _ _ _ (proj1 Q3) Hn2) as (nd3' & Hn3' & K3).
    rewrite Hn3 in Hn3'. injection Hn3' as <-.
    assert (Hs3 : getState "selected" nd3 = Some (sel =? cnt)%nat).
    { destruct K3 as (_&_&_&_&Kf). rewrite Kf by (by intros [_ ?]). done. }
    exists nd3. split; [done|]. intros _. split; [by apply Hiff|].
    unfold selected. rewrite Hs3. unfold selected in Et. rewrite Hs2 in Et.
    congruence.
Qed.

Lemma refresh_prefix (fuel : nat) (a : ref) (anc : list ref) (t : Tree) :
  showCheckboxes (config t) = true -> linkedDown (nodes t) ->
  ancestors (nodes t) a anc -> (length anc < S fuel)%nat ->
  exists nd t3 nd3,
    nodes t !! a = Some nd /\ nodes t3 !! a = Some nd3 /\
    getParent nd3 = getParent nd /\
    quiet (onChain [a]) t t3 /\ refreshed (nodes t3) a /\
    showCheckboxes (config t3) = true /\ linkedDown (nodes t3) /\
    ancestors (nodes t3) a anc /\
    refreshIndeterminateState (S fuel) a t
    = (t4 ← match getParent nd with
            | Some p => refreshIndeterminateState fuel p t3
            | None => Some t3
            end;
       nd4 ← nodes t4 !! a;
       if decide (indeterminate nd = indeterminate nd4) then Some t4
       else markDirty (S fuel) a t4).
Proof.
  intros Hcb L H Hf. rewrite refreshIndeterminateState_S.
  destruct (ancestors_lookup _ _ _ H) as [nd Hn].
  rewrite Hn; cbn [mbind option_bind].
  destruct (state_quiet (S fuel) a _ "indeterminate" false t H Hf)
    as (t1 & nd1 & -> & Q1 & _ & Hn1 & Hi1).
  cbn [mbind option_bind].
  pose proof (proj1 (proj2 Q1)) as Hc1. rewrite Hc1, Hcb, Hn1.
  cbn [mbind option_bind].
  pose proof (kept_linkedDown _ _ _ (proj1 Q1) L) as L1.
  pose proof (kept_ancestors _ _ _ _ _ (proj1 Q1) H) as H1.
  destruct (refresh_own (S fuel) a _ t1 nd1 L1 H1 Hf Hn1 Hi1)
    as (t3 & -> & Q3 & R3).
  cbn [mbind option_bind].
  destruct (kept_lookup _ _ _ _ _ (proj1 Q3) Hn1) as (nd3 & Hn3 & K3).
  rewrite Hn3; cbn [mbind option_bind].
  destruct (kept_lookup _ _ _ _ _ (proj1 Q1) Hn) as (nd1' & Hn1' & K1).
  rewrite Hn1 in Hn1'; injection Hn1' as <-.
  assert (Hp3 : getParent nd3 = getParent nd)
    by (destruct K1 as (_&_&_&E1&_), K3 as (_&_&_&E3&_); congruence).
  rewrite Hp3.
  exists nd, t3, nd3. do 3 (split; [done|]). split; [|split; [done|]].
  - eapply quiet_trans.
    + eapply quiet_mono; [|exact Q1].
      intros m k [-> ->]; split; [apply list_elem_of_here|by right].
    + eapply quiet_mono; [|exact Q3].
      intros m k [-> Hk]; split; [apply list_elem_of_here|done].
  - split; [by rewrite (proj1 (proj2 Q3)), Hc1|].
    split; [by eapply kept_linkedDown; [exact (proj1 Q3)|]|].
    split; [by eapply kept_ancestors; [exact (proj1 Q3)|]|done].
Qed.

(** [refreshIndeterminateState] with checkboxes shown: it returns, it
    writes the flags [selected] and [indeterminate] of the nodes of the
    chain only, and it leaves each of them refreshed. *)
Lemma refreshIndeterminateState_refreshes (anc : list ref) :
  forall (fuel : nat) (a : ref) (t : Tree),
    showCheckboxes (config t) = true -> linkedDown (nodes t) ->
    ancestors (nodes t) a anc -> (length anc < fuel)%nat ->
    exists t',
      refreshIndeterminateState fuel a t = Some t' /\
      quiet (onChain (a :: anc)) t t' /\
      forall b, b ∈ a :: anc -> refreshed (nodes t') b.
Proof.
  induction anc as [|p l IH]; intros fuel a t Hcb L H Hf;
    (destruct fuel as [|fuel]; [cbn in Hf; lia|]);
    destruct (refresh_prefix fuel a _ t Hcb L H Hf)
      as (nd & t3 & nd3 & Hn & Hn3 & Hp3 & Q13 & R3 & Hcb3 & L3 & H3 & ->).
  - inversion H as [a' nd0 Hn0 Hp0|]; subst.
    rewrite Hn in Hn0. injection Hn0 as <-. rewrite Hp0.
    cbn [mbind option_bind]. rewrite Hn3. cbn [mbind option_bind].
    assert (G : forall t', quiet (fun _ _ => False) t3 t' ->
              quiet (onChain [a]) t t' /\
              forall b, b ∈ [a] -> refreshed (nodes t') b).
    { intros t' Q'. split.
      - eapply quiet_trans; [exact Q13|].
        eapply quiet_mono; [|exact Q']. by intros ? ? [].
      - intros b Hb. apply list_elem_of_singleton in Hb as ->.
        eapply refreshed_kept; [exact (proj1 Q')|by intros []..| |done].
        by intros ? ? _ _ []. }
    destruct (decide (indeterminate nd = indeterminate nd3)).
    + exists t3. split; [done|]. apply G, quiet_refl.
    + destruct (markDirty_quiet (S fuel) a [] t3 H3 Hf) as (t5 & -> & Q5 & _).
      exists t5. split; [done|]. by apply G.
  - inversion H as [|a' nd0 p' l' Hn0 Hp0 Hpl]; subst.
    rewrite Hn in Hn0. injection Hn0 as <-. rewrite Hp0.
    assert (Hpl3 : ancestors (nodes t3) p l).
    { eapply kept_ancestors; [exact (proj1 Q13)|done]. }
    destruct (IH fuel p t3 Hcb3 L3 Hpl3) as (t4 & -> & Q4 & R4);
      [cbn in Hf; lia|].
    cbn [mbind option_bind].
    destruct (kept_lookup _ _ _ _ _ (proj1 Q4) Hn3) as (nd4 & Hn4 & K4).
    rewrite Hn4. cbn [mbind option_bind].
    assert (G : forall t', quiet (fun _ _ => False) t4 t' ->
              quiet (onChain (a :: p :: l)) t t' /\
              forall b, b ∈ a :: p :: l -> refreshed (nodes t') b).
    { intros t' Q'. split.
      - eapply quiet_trans; [|eapply quiet_trans].
        + eapply quiet_mono; [|exact Q13]. intros m k [Hm Hk].
          apply list_elem_of_singleton in Hm as ->.
          split; [apply list_elem_of_here|done].
        + eapply quiet_mono; [|exact Q4]. intros m k [Hm Hk].
          split; [by apply list_elem_of_further|done].
        + eapply quiet_mono; [|exact Q']. by intros ? ? [].
      - intros b Hb.
        eapply refreshed_kept; [exact (proj1 Q')|by intros []..| |].
        { by intros ? ? _ _ []. }
        apply elem_of_cons in Hb as [->|Hb]; [|by apply R4].
        eapply refreshed_kept; [exact (proj1 Q4)| | | |exact R3].
        + intros [Hin _]. by apply (ancestors_not_elem _ _ _ H3).
        + intros [Hin _]. by apply (ancestors_not_elem _ _ _ H3).
        + intros bd c Hbd Hc [Hin _].
          by apply (child_not_on_chain _ _ _ _ _ L3 H3 Hbd Hc),
            list_elem_of_further. }
    pose proof (kept_ancestors _ _ _ _ _ (proj1 Q4) H3) as H4.
    destruct (decide (indeterminate nd = indeterminate nd4)).
    + exists t4. split; [done|]. apply G, quiet_refl.
    + destruct (markDirty_quiet (S fuel) a _ t4 H4 Hf) as (t5 & -> & Q5 & _).
      exists t5. split; [done|]. by apply G.
Qed.

(** ** select *)

Lemma batch_quiet (t : Tree) : quiet (fun _ _ => False) t (batch t).
Proof. split; [apply kept_refl|done]. Qed.



Lemma descendant_via_child (h : gmap ref TreeNode) n nd m :
  h !! n = Some nd -> descendant h n m ->
  exists j, j ∈ getChildNodes nd /\ (j = m \/ descendant h j m).
Proof.
  intros Hn. induction 1 as [nd0 c Hn0 Hc|m md c _ IH Hm Hc].
  - rewrite Hn in Hn0. injection Hn0 as <-. exists c. split; [done|by left].
  - destruct IH as (j & Hj & Hr). exists j. split; [done|]. right.
    destruct Hr as [->|Hr].
    + by eapply descendant_child.
    + by eapply descendant_step.
Qed.

Lemma ancestors_have_children (h : gmap ref TreeNode) n anc :
  linked h -> ancestors h n anc ->
  forall a, a ∈ anc -> exists ad, h !! a = Some ad /\ hasChildren ad = true.
Proof.
  intros [_ L2]. induction 1 as [n nd Hn Hp|n nd p l Hn Hp H IH]; intros a Ha.
  - by apply not_elem_of_nil in Ha.
  - apply elem_of_cons in Ha as [->|Ha]; [|by apply IH].
    destruct (L2 n nd p Hn Hp) as (pd & Hpd & Hin).
    exists pd. split; [done|]. unfold hasChildren, getChildNodes in *.
    destruct (children pd) as [| |[|]]; try done;
      by apply not_elem_of_nil in Hin.
Qed.


Lemma linkedb_linked (h : gmap ref TreeNode) : linkedb h = true -> linked h.
Proof.
  unfold linkedb. rewrite forallb_forall. intros Hall.
  assert (G : forall p pd, h !! p = Some pd ->
    forallb (fun c => match h !! c with
                      | Some cd => bool_decide (itree_parent (itree cd) = Some p)
                      | None => false
                      end) (getChildNodes pd) = true /\
    match itree_parent (itree pd) with
    | None => true
    | Some q => match h !! q with
                | Some qd => bool_decide (p ∈ getChildNodes qd)
                | None => false
                end
    end = true).
  { intros p pd Hp. specialize (Hall (p, pd)).
    apply andb_true_iff, Hall, list_elem_of_In.
    by apply elem_of_map_to_list. }
  split.
  - intros p pd c Hp Hc. destruct (G p pd Hp) as [G1 _].
    rewrite forallb_forall in G1. specialize (G1 c).
    rewrite <- list_elem_of_In in G1. specialize (G1 Hc).
    destruct (h !! c) as [cd|]; [|done]. exists cd. split; [done|].
    by apply bool_decide_eq_true in G1.
  - intros c cd p Hc Hp. destruct (G c cd Hc) as [_ G2].
    unfold getParent in Hp. rewrite Hp in G2.
    destruct (h !! p) as [pd|]; [|done]. exists pd. split; [done|].
    by apply bool_decide_eq_true in G2.
Qed.



Lemma chainOf_ancestors (fuel : nat) (h : gmap ref TreeNode) :
  forall n l, chainOf fuel h n = Some l -> ancestors h n l.
Proof.
  induction fuel as [|fuel IH]; intros n l Hc; [done|]. cbn in Hc.
  destruct (h !! n) as [nd|] eqn:Hn; [|done]. cbn in Hc.
  destruct (itree_parent (itree nd)) as [p|] eqn:Hp.
  - destruct (chainOf fuel h p) as [l'|] eqn:Hl; [|done]. cbn in Hc.
    injection Hc as <-. eapply ancestors_step; [done|done|by apply IH].
  - injection Hc as <-. by eapply ancestors_root.
Qed.

(** ** Heaps in which insertion works *)

Lemma kept_chainsBelow (P : ref -> string -> Prop) D h h' :
  kept P h h' -> chainsBelow D h -> chainsBelow D h'.
Proof.
  intros K C m md' Hm.
  destruct (kept_lookup_inv _ _ _ _ _ K Hm) as (md & Hm0 & _).
  destruct (C m md Hm0) as (anc & Ha & Hl).
  exists anc. split; [by eapply kept_ancestors|done].
Qed.

Lemma kept_wfDown (P : ref -> string -> Prop) D h h' :
  kept P h h' -> wfDown D h -> wfDown D h'.
Proof.
  intros K [L C].
  split; [by eapply kept_linkedDown|by eapply kept_chainsBelow].
Qed.

Lemma chainsBelowb_wfTree (D : nat) (t : Tree) :
  linkedDown (nodes t) -> chainsBelowb D t = true -> wfTree D t.
Proof.
  intros L Hb. apply andb_true_iff in Hb as [Hc Hm].
  rewrite forallb_forall in Hc. rewrite forallb_forall in Hm.
  split; [split; [done|]|].
  - intros m md Hmd. specialize (Hc (m, md)). cbn [fst] in Hc.
    destruct (chainOf D (nodes t) m) as [l|] eqn:El.
    + exists l. split; [by eapply chainOf_ancestors|].
      apply Nat.ltb_lt, Hc, list_elem_of_In. by apply elem_of_map_to_list.
    + assert (false = true); [|done].
      apply Hc, list_elem_of_In. by apply elem_of_map_to_list.
  - intros m Hin. specialize (Hm m). rewrite <- list_elem_of_In in Hm.
    by apply bool_decide_eq_true in Hm; [|done].
Qed.


Lemma depth_from_chains (D : nat) (h : gmap ref TreeNode) :
  wfDown D h ->
  forall k m anc, ancestors h m anc -> (D <= k + length anc)%nat ->
    depthLe h m k.
Proof.
  intros [L C]. induction k as [|k IH]; intros m anc Ha Hk.
  - destruct (ancestors_lookup _ _ _ Ha) as [md Hm].
    destruct (C m md Hm) as (anc' & Ha' & Hl).
    rewrite (ancestors_fun _ _ _ _ Ha Ha') in Hk. cbn in Hk. lia.
  - destruct (ancestors_lookup _ _ _ Ha) as [md Hm].
    eapply depthLe_node; [done|]. intros c Hc.
    destruct (L m md c Hm Hc) as (cd & Hcd & Hp).
    apply (IH c (m :: anc)); [by eapply ancestors_step|]. cbn. lia.
Qed.

Lemma wfDown_depthLe (D : nat) (h : gmap ref TreeNode) m md :
  wfDown D h -> h !! m = Some md -> depthLe h m D.
Proof.
  intros W Hm. destruct (proj2 W m md Hm) as (anc & Ha & _).
  eapply depth_from_chains; [done..|lia].
Qed.

(** ** node(id) *)

Lemma looking_refl i s : looking i s s.
Proof. split; [done|by left]. Qed.

Lemma looking_trans i s1 s2 s3 :
  looking i s1 s2 -> looking i s2 s3 -> looking i s1 s3.
Proof.
  intros [E1 H1] [E2 H2]. split; [congruence|].
  destruct H2 as [H2|(e & ed & H2 & He & Hi)].
  - rewrite H2. exact H1.
  - right. exists e, ed. rewrite E1 in He. done.
Qed.

(** The walk of [node(id)] from one node: it returns; what it has found
    afterwards is what was found before or a matching node; and it has
    found something as soon as the node or one of its descendants
    matches. A node it finds anew is the node or one of its
    descendants. *)
Lemma recurseDown_lookup (i : string) (d : nat) :
  forall (fuelR : nat) (c : ref) (s : Tree * option ref),
    linkedDown (nodes s.1) -> depthLe (nodes s.1) c d -> (d <= fuelR)%nat ->
    exists s',
      recurseDown fst fuelR (lookupStep i) c s = Some s' /\
      looking i s s' /\
      (s'.2 = s.2 \/
       exists e, s'.2 = Some e /\ (e = c \/ descendant (nodes s.1) c e)) /\
      (forall m md, m = c \/ descendant (nodes s.1) c m ->
         nodes s.1 !! m = Some md -> id md = i -> is_Some s'.2).
Proof.
  induction d as [|d IH]; intros fuelR c s L D HfR; [inversion D|].
  inversion D as [c' nd d' Hc Hkids]; subst.
  destruct fuelR as [|fuelR]; [lia|]. cbn [recurseDown].
  set (s1 := (s.1, if decide (id nd = i) then Some c else s.2)).
  assert (E1 : lookupStep i c s = Some s1)
    by (unfold lookupStep; by rewrite Hc).
  rewrite E1. cbn [mbind option_bind].
  assert (Hc1 : nodes s1.1 !! c = Some nd) by exact Hc.
  rewrite Hc1. cbn [mbind option_bind].
  assert (L1 : looking i s s1).
  { split; [done|]. unfold s1. cbn. destruct (decide (id nd = i)); [|by left].
    right. by exists c, nd. }
  set (R := fun (a b : Tree * option ref) =>
    looking i a b /\
    (b.2 = a.2 \/ exists e, b.2 = Some e /\ descendant (nodes s.1) c e)).
  set (Q := fun (k : ref) (b : Tree * option ref) =>
    forall m md, m = k \/ descendant (nodes s.1) k m ->
      nodes s.1 !! m = Some md -> id md = i -> is_Some b.2).
  destruct (forEach_rel R Q (recurseDown fst fuelR (lookupStep i))
              (getChildNodes nd) s1) as (s2 & E2 & R2 & Q2).
  { intros a. split; [apply looking_refl|by left]. }
  { intros a b c0 [Lab Hab] [Lbc Hbc]. split; [by eapply looking_trans|].
    destruct Hbc as [Hbc|Hbc]; [rewrite Hbc; exact Hab|by right]. }
  { intros k a Hk [La Ha].
    assert (Ea : a.1 = s.1) by (rewrite (proj1 La); done).
    destruct (IH fuelR k a) as (b & Eb & Lb & Hb & Cb).
    - by rewrite Ea.
    - rewrite Ea. by apply Hkids.
    - lia.
    - exists b. split; [done|]. rewrite Ea in *. split; [split; [done|]|].
      + destruct Hb as [Hb|(e & He & Hr)]; [by left|]. right.
        exists e. split; [done|]. destruct Hr as [->|Hr].
        * by eapply descendant_child.
        * clear -Hr Hc Hk. induction Hr as [kd j Hkd Hj|m md j _ IHr Hm Hj].
          -- eapply descendant_step; [by eapply descendant_child|done..].
          -- by eapply descendant_step.
      + exact Cb. }
  { intros k a b Qa [[Eab Hab] _] m md Hm Hmd Hi.
    destruct (Qa m md Hm Hmd Hi) as [x Hx].
    destruct Hab as [Hab|(e & ed & Hab & _)]; rewrite Hab; [by exists x|done]. }
  assert (G : forall s', looking i s1 s' ->
    (s'.2 = s1.2 \/ exists e, s'.2 = Some e /\ descendant (nodes s.1) c e) ->
    (forall k, k ∈ getChildNodes nd -> Q k s') \/ getChildNodes nd = [] ->
    looking i s s' /\
    (s'.2 = s.2 \/ exists e, s'.2 = Some e /\ (e = c \/ descendant (nodes s.1) c e)) /\
    (forall m md, m = c \/ descendant (nodes s.1) c m ->
       nodes s.1 !! m = Some md -> id md = i -> is_Some s'.2)).
  { intros s' Ls' Hs' Qs'. split; [by eapply looking_trans|]. split.
    - destruct Hs' as [Hs'|(e & He & Hd)].
      + rewrite Hs'. unfold s1. cbn. destruct (decide (id nd = i)); [|by left].
        right. exists c. split; [done|by left].
      + right. exists e. split; [done|by right].
    - intros m md Hm Hmd Hi.
      assert (Hmono : is_Some s1.2 -> is_Some s'.2).
      { intros [x Hx]. destruct Hs' as [Hs'|(e & He & _)].
        - rewrite Hs'. by exists x.
        - rewrite He. done. }
      destruct Hm as [->|Hm].
      + apply Hmono. unfold s1. cbn. rewrite Hc in Hmd. injection Hmd as <-.
        rewrite decide_True by done. done.
      + destruct (descendant_via_child _ _ _ _ Hc Hm) as (j & Hj & Hr).
        destruct Qs' as [Qs'|Hnil]; [|rewrite Hnil in Hj;
                                        by apply not_elem_of_nil in Hj].
        apply (Qs' j Hj m md); [|done..].
        destruct Hr as [->|Hr]; [by left|by right]. }
  destruct (hasChildren nd) eqn:Ehc.
  - exists s2. split; [done|]. apply G; [exact (proj1 R2)|exact (proj2 R2)|].
    by left.
  - exists s1. split; [done|]. apply G; [apply looking_refl|by left|].
    right. unfold hasChildren, getChildNodes in *.
    destruct (children nd) as [| |[|]]; done.
Qed.

Lemma collNodes_present (D : nat) (c : Collection) (t : Tree) (l : list ref) :
  wfTree D t -> collNodes c t = Some l ->
  forall m, m ∈ l -> is_Some (nodes t !! m).
Proof.
  intros [[L _] HM] Hl m Hm. destruct c as [|q]; cbn in Hl.
  - injection Hl as <-. by apply HM.
  - destruct (nodes t !! q) as [qd|] eqn:Hq; [|done]. cbn in Hl.
    destruct (children qd) as [| |l0] eqn:Hc; try done. injection Hl as ->.
    destruct (L q qd m Hq) as (md & Hmd & _); [|by eexists].
    unfold getChildNodes. by rewrite Hc.
Qed.

(** [node(id)] on a collection of a well-formed tree: it returns, with a
    node of the collection or below it that has the id, or with nothing
    when no such node has the id. *)
Lemma node_finds (D fuel : nat) (c : Collection) (i : string) (t : Tree)
    (l : list ref) :
  wfTree D t -> collNodes c t = Some l -> (D <= fuel)%nat ->
  exists r,
    node fuel c i t = Some r /\
    match r with
    | Some e => within (nodes t) l e /\
                exists ed, nodes t !! e = Some ed /\ id ed = i
    | None => forall m md, within (nodes t) l m -> nodes t !! m = Some md ->
                id md <> i
    end.
Proof.
  intros W Hl Hf. pose proof (collNodes_present D c t l W Hl) as Hpres.
  destruct W as [W _]. unfold node. rewrite Hl. cbn [mbind option_bind].
  set (R := fun (a b : Tree * option ref) =>
    looking i a b /\
    (b.2 = a.2 \/ exists e, b.2 = Some e /\ within (nodes t) l e)).
  set (Q := fun (k : ref) (b : Tree * option ref) =>
    forall m md, m = k \/ descendant (nodes t) k m ->
      nodes t !! m = Some md -> id md = i -> is_Some b.2).
  destruct (forEach_rel R Q (recurseDown fst fuel (lookupStep i)) l (t, None))
    as (s' & E & [Ls Hs] & Qs).
  { intros a. split; [apply looking_refl|by left]. }
  { intros a b c0 [Lab Hab] [Lbc Hbc]. split; [by eapply looking_trans|].
    destruct Hbc as [Hbc|Hbc]; [rewrite Hbc; exact Hab|by right]. }
  { intros k a Hk [La Ha].
    assert (Ea : a.1 = t) by exact (proj1 La).
    destruct (Hpres k Hk) as [kd Hkd].
    destruct (recurseDown_lookup i D fuel k a) as (b & Eb & Lb & Hb & Cb).
    - rewrite Ea. exact (proj1 W).
    - rewrite Ea. by eapply wfDown_depthLe.
    - done.
    - exists b. split; [done|]. rewrite Ea in *. split; [split; [done|]|done].
      destruct Hb as [Hb|(e & He & Hr)]; [by left|]. right.
      exists e. split; [done|]. destruct Hr as [->|Hr]; [by left|].
      right. by exists k. }
  { intros k a b Qa [[Eab Hab] _] m md Hm Hmd Hi.
    destruct (Qa m md Hm Hmd Hi) as [x Hx].
    destruct Hab as [Hab|(e & ed & Hab & _)]; rewrite Hab; [by exists x|done]. }
  unfold recurseDownNodes, lookupStep in *. rewrite E. cbn [mbind option_bind].
  exists s'.2. split; [done|].
  destruct (s'.2) as [e|] eqn:Es.
  - destruct Hs as [Hs|(e' & He' & Hw)]; [done|]. injection He' as <-.
    split; [done|].
    destruct Ls as [_ [Ls|(e' & ed & He' & Hed & Hi)]];
      [cbn in Ls; congruence|].
    rewrite Es in He'. injection He' as <-. by exists ed.
  - intros m md Hw Hmd Hi.
    assert (is_Some (@None ref)) as [? ?]; [|done]. rewrite <- Es.
    destruct Hw as [Hm|(k & Hk & Hd)].
    + apply (Qs m Hm m md); [by left|done..].
    + apply (Qs k Hk m md); [by right|done..].
Qed.

(** ** Creating nodes *)

Lemma extends_refl h : extends h h.
Proof. by intros m nd. Qed.

Lemma extends_trans h1 h2 h3 : extends h1 h2 -> extends h2 h3 -> extends h1 h3.
Proof. intros E1 E2 m nd Hm. by apply E2, E1. Qed.

Lemma extends_ancestors h h' m l :
  extends h h' -> ancestors h m l -> ancestors h' m l.
Proof.
  intros E. apply ancestors_ext. intros k kd Hk. exists kd.
  split; [by apply E|done].
Qed.

Lemma fresh_lookup (h : gmap ref TreeNode) : h !! fresh (base.dom h) = None.
Proof. apply not_elem_of_dom. apply is_fresh. Qed.

Lemma extends_insert_fresh (h : gmap ref TreeNode) r nd :
  h !! r = None -> extends h (<[r := nd]> h).
Proof.
  intros Hr m md Hm. rewrite lookup_insert_ne; [done|]. congruence.
Qed.

Lemma linkedDown_set_children (h : gmap ref TreeNode) r nd l :
  h !! r = Some nd -> linkedDown h ->
  (forall k, k ∈ l -> exists kd, h !! k = Some kd /\ getParent kd = Some r) ->
  linkedDown (<[r := set_children (ChNodes l) nd]> h).
Proof.
  intros Hr L Hl p pd c Hp Hc.
  assert (G : exists cd, h !! c = Some cd /\ getParent cd = Some p).
  { destruct (decide (p = r)) as [->|Hne].
    - rewrite lookup_insert_eq in Hp. injection Hp as <-. by apply Hl.
    - rewrite lookup_insert_ne in Hp by done. by eapply L. }
  destruct G as (cd & Hcd & Hpar).
  destruct (decide (c = r)) as [->|Hne].
  - rewrite lookup_insert_eq. eexists. split; [done|].
    rewrite Hr in Hcd. by injection Hcd as <-.
  - rewrite lookup_insert_ne by done. by exists cd.
Qed.

Lemma ancestors_set_children (h : gmap ref TreeNode) r nd c m l :
  h !! r = Some nd -> ancestors h m l ->
  ancestors (<[r := set_children c nd]> h) m l.
Proof.
  intros Hr. apply ancestors_ext. intros k kd Hk.
  destruct (decide (r = k)) as [<-|Hne].
  - rewrite lookup_insert_eq. eexists. split; [done|].
    rewrite Hr in Hk. by injection Hk as <-.
  - rewrite lookup_insert_ne by done. by eexists.
Qed.

Lemma dataSize_children i txt st l x :
  x ∈ l -> (dataSize x < dataSize (mkNodeData i txt st (DArray l)))%nat.
Proof.
  intros Hx. cbn [dataSize].
  induction Hx as [x l|x y l _ IH]; lia.
Qed.

(** [objectToModel] returns when the fuel covers the size of the data;
    the node it returns is new, the nodes of the heap are untouched, and
    the nodes created hang below the new node: the parent chain of each
    runs through it and then along the chain [base] of the parent
    given. *)
Lemma objectToModel_creates (api : TreeMethods) :
  forall (fuel : nat) (object : NodeData) (p : option ref) (base : list ref)
         (t : Tree),
    (dataSize object <= fuel)%nat -> linkedDown (nodes t) ->
    match p with
    | None => base = []
    | Some r0 => exists anc0, ancestors (nodes t) r0 anc0 /\ base = r0 :: anc0
    end ->
    exists t' r rd,
      objectToModel api fuel object p t = Some (t', r) /\
      nodes t !! r = None /\ extends (nodes t) (nodes t') /\
      t' = set_nodes (nodes t') t /\
      nodes t' !! r = Some rd /\ getParent rd = p /\
      id rd = (if decide (d_id object = "") then generateId api t
               else d_id object) /\
      text rd = d_text object /\
      linkedDown (nodes t') /\
      forall m md, nodes t !! m = None -> nodes t' !! m = Some md ->
        exists path, ancestors (nodes t') m (path ++ base) /\
                     (length path < dataSize object)%nat /\
                     last (m :: path) = Some r.
Proof.
  induction fuel as [|fuel IH]; intros object p base t Hf L Hp;
    [destruct object; cbn in Hf; lia|].
  destruct object as [i txt st c]. cbn [objectToModel d_id d_text d_state d_children].
  set (r := fresh (base.dom (nodes t))).
  set (c0 := match c with DBool b => ChBool b | DArray _ => ChNodes []
                     | DUndefined => ChUndefined end).
  set (i' := if decide (i = "") then generateId api t else i).
  set (nd := mkTreeNode i' txt c0 (mkITree false p st)).
  set (t1 := set_nodes (<[r := nd]> (nodes t)) t).
  assert (Hr : nodes t !! r = None) by apply fresh_lookup.
  assert (E1 : extends (nodes t) (nodes t1)) by (by apply extends_insert_fresh).
  assert (Hr1 : nodes t1 !! r = Some nd) by apply lookup_insert_eq.
  assert (Hkids0 : getChildNodes nd = []) by (unfold nd, c0; by destruct c).
  assert (A1 : ancestors (nodes t1) r base).
  { destruct p as [r0|].
    - destruct Hp as (anc0 & Ha & ->).
      eapply ancestors_step; [done|done|]. by eapply extends_ancestors.
    - subst base. by eapply ancestors_root. }
  assert (L1 : linkedDown (nodes t1)).
  { intros q qd k Hq Hk. destruct (decide (q = r)) as [->|Hne].
    - rewrite Hr1 in Hq. injection Hq as <-. rewrite Hkids0 in Hk.
      by apply not_elem_of_nil in Hk.
    - unfold t1 in Hq. cbn in Hq. rewrite lookup_insert_ne in Hq by done.
      destruct (L q qd k Hq Hk) as (kd & Hkd & Hpar).
      exists kd. split; [by apply E1|done]. }
  assert (Hnew1 : forall m md, nodes t !! m = None -> nodes t1 !! m = Some md ->
            m = r).
  { intros m md Hm Hm1. destruct (decide (m = r)) as [|Hne]; [done|].
    unfold t1 in Hm1. cbn in Hm1. rewrite lookup_insert_ne in Hm1 by done.
    congruence. }
  assert (Done : forall t2 kids,
    creating t1 r base (dataSize (mkNodeData i txt st c) - 1) (t2, kids) ->
    exists t' rd,
      (nd2 ← nodes t2 !! r;
       Some (set_nodes (<[r := set_children (ChNodes kids) nd2]> (nodes t2)) t2, r))
      = Some (t', r) /\
      nodes t !! r = None /\ extends (nodes t) (nodes t') /\
      t' = set_nodes (nodes t') t /\
      nodes t' !! r = Some rd /\ getParent rd = p /\ id rd = i' /\
      text rd = txt /\ linkedDown (nodes t') /\
      forall m md, nodes t !! m = None -> nodes t' !! m = Some md ->
        exists path, ancestors (nodes t') m (path ++ base) /\
                     (length path < dataSize (mkNodeData i txt st c))%nat /\
                     last (m :: path) = Some r).
  { intros t2 kids (E2 & T2 & L2 & K2 & N2). cbn [fst snd] in *.
    rewrite (E2 r nd Hr1). cbn [mbind option_bind].
    eexists _, _. split; [done|]. cbn [nodes set_nodes].
    split; [done|]. split; [|split; [|split; [apply lookup_insert_eq|]]].
    - intros m md Hm. rewrite lookup_insert_ne by congruence.
      by apply E2, E1.
    - rewrite T2. done.
    - do 3 (split; [done|]). split.
      + apply linkedDown_set_children; [by apply E2|done|].
        intros k Hk. by apply K2.
      + intros m md Hm Hm'. destruct (decide (m = r)) as [->|Hne].
        * exists []. split; [|split; [cbn; lia|done]].
          apply ancestors_set_children; [by apply E2|].
          by eapply extends_ancestors.
        * rewrite lookup_insert_ne in Hm' by done.
          assert (Hm1 : nodes t1 !! m = None).
          { destruct (nodes t1 !! m) as [md1|] eqn:Hm1; [|done].
            by destruct Hne; eapply Hnew1. }
          destruct (N2 m md Hm1 Hm') as (path & Ha & Hl).
          exists (path ++ [r]). rewrite <- app_assoc. cbn [app].
          split; [apply ancestors_set_children; [by apply E2|done]|].
          split; [rewrite length_app; cbn [length]; lia|].
          rewrite app_comm_cons. apply last_snoc. }
  destruct c as [|b|l].
  1,2: exists t1, r, nd; split; [done|]; split; [done|]; split; [done|];
       split; [done|]; split; [done|]; do 3 (split; [done|]);
       split; [done|]; intros m md Hm Hm1;
       rewrite (Hnew1 m md Hm Hm1); exists [];
       split; [done|]; split; [cbn; lia|done].
  assert (Loop : forall l' s,
    (forall x, x ∈ l' -> x ∈ l) ->
    creating t1 r base (dataSize (mkNodeData i txt st (DArray l)) - 1) s ->
    exists s',
      forEach
        (fun child (s : Tree * list ref) =>
           '(t', k) ← objectToModel api fuel child (Some r) s.1;
           Some (t', s.2 ++ [k])) l' s = Some s' /\
      creating t1 r base (dataSize (mkNodeData i txt st (DArray l)) - 1) s').
  { induction l' as [|x l' IHl]; intros s Hsub Cs.
    - exists s. by split.
    - destruct Cs as (E2 & T2 & L2 & K2 & N2).
      pose proof (dataSize_children i txt st l x (Hsub x (list_elem_of_here _ _)))
        as Hx.
      destruct (IH x (Some r) (r :: base) s.1) as
        (t' & k & kd & Ek & Hk0 & Ek' & Tk & Hk & Hpk & _ & _ & Lk & Nk).
      { lia. }
      { done. }
      { exists base. split; [by eapply extends_ancestors|done]. }
      cbn [forEach]. rewrite Ek. cbn [mbind option_bind].
      apply IHl; [intros y Hy; apply Hsub; by apply list_elem_of_further|].
      cbn [fst snd]. split; [by eapply extends_trans|].
      split; [rewrite Tk, T2; done|]. split; [done|]. split.
      + intros j Hj. apply elem_of_app in Hj as [Hj|Hj].
        * destruct (K2 j Hj) as (Hj1 & jd & Hjd & Hpj).
          split; [done|]. exists jd. split; [by apply Ek'|done].
        * apply list_elem_of_singleton in Hj as ->. split.
          -- destruct (nodes t1 !! k) as [kd1|] eqn:Hk1; [|done].
             rewrite (E2 k kd1 Hk1) in Hk0. done.
          -- by exists kd.
      + intros m md Hm1 Hm'.
        destruct (nodes s.1 !! m) as [md0|] eqn:Hm0.
        * destruct (N2 m md0 Hm1 Hm0) as (path & Ha & Hl).
          exists path. split; [by eapply extends_ancestors|done].
        * destruct (Nk m md Hm0 Hm') as (path & Ha & Hl & _).
          exists path. split; [done|lia]. }
  destruct (Loop l (t1, []) (fun x Hx => Hx)) as ([t2 kids] & -> & C2).
  { split; [apply extends_refl|]. split; [done|]. split; [done|]. split.
    - intros k Hk. by apply not_elem_of_nil in Hk.
    - intros m md Hm Hm'. cbn [fst] in Hm'. congruence. }
  cbn [mbind option_bind].
  destruct (Done t2 kids C2) as (t' & rd & E & H1 & H2 & H3 & H4 & H5 & H6 & H7 & H8).
  exists t', r, rd. by repeat (split; [done|]).
Qed.

(** ** Steps that only write flags *)

Lemma calm_refl t : calm t t.
Proof.
  split; [|done]. intros m. destruct (nodes t !! m) as [nd|]; [|done].
  exists nd. by repeat split.
Qed.

Lemma calm_trans t1 t2 t3 : calm t1 t2 -> calm t2 t3 -> calm t1 t3.
Proof.
  intros (K1 & C1 & M1) (K2 & C2 & M2).
  split; [|split; congruence]. intros m.
  specialize (K1 m). specialize (K2 m).
  destruct (nodes t1 !! m) as [nd|].
  - destruct K1 as (nd2 & H2 & I1 & T1 & Ch1 & P1 & F1). rewrite H2 in K2.
    destruct K2 as (nd3 & H3 & I2 & T2 & Ch2 & P2 & F2).
    exists nd3. split; [done|].
    repeat split; try congruence. intros k Hk Hf. by apply F2, F1.
  - by rewrite K1 in K2.
Qed.

Lemma quiet_calm (P : ref -> string -> Prop) t t' :
  (forall m k, P m k -> k <> "removed" /\ k <> "hidden") ->
  quiet P t t' -> calm t t'.
Proof.
  intros HP (K & C & M & _). split; [|done]. intros m. specialize (K m).
  destruct (nodes t !! m) as [nd|]; [|done].
  destruct K as (nd' & H' & I & T & Ch & Pa & F). exists nd'.
  split; [done|]. repeat split; try done.
  intros k Hk Hf. rewrite F; [done|].
  intros HPk. destruct (HP m k HPk) as [N1 N2]. by destruct Hk.
Qed.

Lemma calm_lookup t t' m nd :
  calm t t' -> nodes t !! m = Some nd ->
  exists nd', nodes t' !! m = Some nd' /\ nodeCalm nd nd'.
Proof. intros (K & _) Hm. specialize (K m). by rewrite Hm in K. Qed.

Lemma calm_lookup_inv t t' m nd' :
  calm t t' -> nodes t' !! m = Some nd' ->
  exists nd, nodes t !! m = Some nd /\ nodeCalm nd nd'.
Proof.
  intros (K & _) Hm. specialize (K m).
  destruct (nodes t !! m) as [nd|].
  - destruct K as (nd2 & H2 & Hc). exists nd. split; [done|]. congruence.
  - congruence.
Qed.

Lemma calm_kept t t' :
  calm t t' -> kept (fun _ _ => True) (nodes t) (nodes t').
Proof.
  intros (K & _) m. specialize (K m).
  destruct (nodes t !! m) as [nd|]; [|done].
  destruct K as (nd' & H' & I & T & Ch & Pa & F). exists nd'.
  split; [done|]. repeat split; try done.
  all: intros k Hk; by destruct Hk.
Qed.

Lemma calm_ancestors t t' n l :
  calm t t' -> ancestors (nodes t) n l -> ancestors (nodes t') n l.
Proof. intros C. eapply kept_ancestors. by apply calm_kept. Qed.

Lemma calm_wfTree D t t' : calm t t' -> wfTree D t -> wfTree D t'.
Proof.
  intros C (W & M). split.
  - eapply kept_wfDown; [by apply calm_kept|done].
  - intros m Hm. destruct C as (K & _ & Mo). rewrite Mo in Hm.
    destruct (M m Hm) as [nd Hnd]. specialize (K m). rewrite Hnd in K.
    destruct K as (nd' & -> & _). done.
Qed.


Lemma calm_grows t t' : calm t t' -> grows t t'.
Proof.
  intros C. split; [|by destruct C as (_ & ? & _)].
  intros m nd Hm. destruct (calm_lookup _ _ _ _ C Hm)
    as (nd' & H' & I & T & Ch & Pa & F).
  exists nd'. split; [done|]. repeat split; try done.
  - unfold getChildNodes. by rewrite Ch.
  - intros l Hl. exists l. congruence.
Qed.

Lemma calm_untouched q t t' : calm t t' -> untouchedOutside q t t'.
Proof.
  intros C. split; [by destruct C as (_ & _ & ?)|].
  intros m nd anc Hm _ _ _.
  destruct (calm_lookup _ _ _ _ C Hm) as (nd' & H' & _ & _ & Ch & _).
  by exists nd'.
Qed.


Lemma grows_trans t1 t2 t3 : grows t1 t2 -> grows t2 t3 -> grows t1 t3.
Proof.
  intros (G1 & C1) (G2 & C2). split; [|congruence].
  intros m nd Hm.
  destruct (G1 m nd Hm) as (nd2 & H2 & I1 & T1 & P1 & S1 & L1 & F1).
  destruct (G2 m nd2 H2) as (nd3 & H3 & I2 & T2 & P2 & S2 & L2 & F2).
  exists nd3. split; [done|]. repeat split; try congruence.
  - by etrans.
  - intros l Hl. destruct (L1 l Hl) as (l2 & Hl2). by eapply L2.
  - intros k Hk Hf. by apply F2, F1.
Qed.

Lemma grows_ancestors t t' n l :
  grows t t' -> ancestors (nodes t) n l -> ancestors (nodes t') n l.
Proof.
  intros (G & _). apply ancestors_ext. intros m nd Hm.
  destruct (G m nd Hm) as (nd' & H' & _ & _ & Pa & _). by exists nd'.
Qed.


Lemma untouched_trans q t1 t2 t3 :
  grows t1 t2 -> untouchedOutside q t1 t2 -> untouchedOutside q t2 t3 ->
  untouchedOutside q t1 t3.
Proof.
  intros G (M1 & U1) (M2 & U2). split; [congruence|].
  intros m nd anc Hm Ha Hne Hq.
  destruct (U1 m nd anc Hm Ha Hne Hq) as (nd2 & H2 & Ch2).
  destruct (U2 m nd2 anc H2 (grows_ancestors _ _ _ _ G Ha) Hne Hq)
    as (nd3 & H3 & Ch3).
  exists nd3. split; [done|congruence].
Qed.



Lemma markDirty_calm (fuel : nat) (n : ref) (anc : list ref) (t : Tree) :
  ancestors (nodes t) n anc -> (length anc < fuel)%nat ->
  exists t', markDirty fuel n t = Some t' /\ calm t t' /\
             isDirty (nodes t') n = true.
Proof.
  intros Ha Hf.
  destruct (markDirty_quiet fuel n anc t Ha Hf) as (t' & E & Q & _).
  exists t'. split; [done|]. split; [by eapply quiet_calm; [|done]|].
  rewrite (markDirty_closed fuel n anc t Ha Hf) in E. injection E as <-.
  cbn [nodes set_nodes].
  pose proof (ancestors_all_present _ _ _ Ha) as Hall.
  destruct (cleanPrefix_or_dirty_below (nodes t) (n :: anc) 0%nat n eq_refl Hall)
    as [Hc|(j & b & Hj & Hb & Hd)].
  - rewrite isDirty_markAll, decide_True by done.
    apply bool_decide_eq_true_2, Hall, list_elem_of_here.
  - apply isDirty_markAll_mono. destruct j; [|lia]. cbn in Hb. congruence.
Qed.

Lemma applyChanges_calm (t : Tree) :
  renderFrame renderPass -> calm t (applyChanges t).
Proof.
  intros Hrf. eapply quiet_calm; [|by apply applyChanges_quiet].
  by intros m k ->.
Qed.

Lemma emit_calm (e : Event) (t : Tree) : calm t (emit e t).
Proof. exact (calm_refl t). Qed.

(** [refreshIndeterminateState] returns on a finite chain, whatever the
    configuration, and writes only the flags [selected] and
    [indeterminate]. *)
Lemma refresh_calm (fuel : nat) (a : ref) (anc : list ref) (t : Tree) :
  linkedDown (nodes t) -> ancestors (nodes t) a anc -> (length anc < fuel)%nat ->
  exists t', refreshIndeterminateState fuel a t = Some t' /\ calm t t'.
Proof.
  intros L Ha Hf.
  destruct (showCheckboxes (config t)) eqn:Hs.
  - destruct (refreshIndeterminateState_refreshes anc fuel a t Hs L Ha Hf)
      as (t' & E & Q & _).
    exists t'. split; [done|]. eapply quiet_calm; [|done].
    intros m k (_ & [-> | ->]); done.
  - destruct fuel as [|fuel]; [lia|].
    destruct (ancestors_lookup _ _ _ Ha) as [nd Hnd].
    destruct (state_quiet (S fuel) a anc "indeterminate" false t Ha Hf)
      as (t1 & nd1 & E & Q & _).
    exists t1. split.
    + cbn [refreshIndeterminateState]. rewrite Hnd. cbn [mbind option_bind].
      rewrite E. cbn [mbind option_bind].
      destruct Q as (_ & C & _). by rewrite C, Hs.
    + eapply quiet_calm; [|done]. by intros m k [_ ->].
Qed.

(** ** Splicing a new node into a collection *)

Lemma ancestors_insert_other (h : gmap ref TreeNode) r x m l :
  r ∉ m :: l -> ancestors h m l -> ancestors (<[r := x]> h) m l.
Proof.
  intros Hr Ha. induction Ha as [n nd Hn Hp|n nd p l Hn Hp Ha IH].
  - eapply ancestors_root; [|done]. rewrite lookup_insert_ne; [done|].
    intros ->. apply Hr, list_elem_of_here.
  - eapply ancestors_step; [|done|].
    + rewrite lookup_insert_ne; [done|]. intros ->. apply Hr, list_elem_of_here.
    + apply IH. intros Hin. apply Hr. by apply list_elem_of_further.
Qed.

Lemma ancestors_reparent (h : gmap ref TreeNode) r rd q ancq m path :
  h !! r = Some rd -> getParent rd = None ->
  ancestors h q ancq -> r ∉ q :: ancq ->
  ancestors h m path -> last (m :: path) = Some r ->
  ancestors (<[r := set_parent (Some q) rd]> h) m (path ++ q :: ancq).
Proof.
  intros Hr Hp Hq Hnin Ha. induction Ha as [n nd Hn Hpn|n nd p l Hn Hpn Ha IH];
    intros Hl.
  - cbn in Hl. injection Hl as ->. cbn [app].
    eapply ancestors_step; [apply lookup_insert_eq|done|].
    by apply ancestors_insert_other.
  - cbn [app]. eapply ancestors_step; [|done|].
    + rewrite lookup_insert_ne; [done|]. intros ->.
      rewrite Hr in Hn. injection Hn as <-. by rewrite Hp in Hpn.
    + apply IH. by rewrite last_cons_cons in Hl.
Qed.

Lemma linkedDown_splice (h : gmap ref TreeNode) q qd r rd l' :
  h !! q = Some qd -> h !! r = Some rd -> getParent rd = None -> r <> q ->
  linkedDown h ->
  (forall k, k ∈ l' -> k = r \/ k ∈ getChildNodes qd) ->
  linkedDown (<[r := set_parent (Some q) rd]>
                (<[q := set_children (ChNodes l') qd]> h)).
Proof.
  intros Hq Hr Hpr Hne L Hl p pd k Hp Hk.
  assert (G : k = r /\ p = q \/
              exists kd, h !! k = Some kd /\ getParent kd = Some p).
  { destruct (decide (p = r)) as [->|Hpr'].
    - rewrite lookup_insert_eq in Hp. injection Hp as <-. right.
      by eapply L.
    - rewrite lookup_insert_ne in Hp by done.
      destruct (decide (p = q)) as [->|Hpq].
      + rewrite lookup_insert_eq in Hp. injection Hp as <-.
        cbn in Hk. destruct (Hl k Hk) as [->|Hk']; [by left|].
        right. by eapply L.
      + rewrite lookup_insert_ne in Hp by done. right. by eapply L. }
  destruct G as [[-> ->]|(kd & Hkd & Hpk)].
  - rewrite lookup_insert_eq. by eexists.
  - destruct (decide (k = r)) as [->|Hkr]; [congruence|].
    rewrite lookup_insert_ne by done.
    destruct (decide (k = q)) as [->|Hkq].
    + rewrite lookup_insert_eq. eexists. split; [done|].
      rewrite Hq in Hkd. by injection Hkd as <-.
    + rewrite lookup_insert_ne by done. by exists kd.
Qed.

Lemma sublist_splice {A : Type} (l : list A) (i : nat) (x : A) :
  sublist l (take i l ++ x :: drop i l).
Proof.
  rewrite <- (take_drop i l) at 1.
  apply sublist_app; [done|]. by apply sublist_cons.
Qed.

Lemma elem_of_splice {A : Type} (l : list A) (i : nat) (x k : A) :
  k ∈ take i l ++ x :: drop i l <-> k = x \/ k ∈ l.
Proof.
  rewrite elem_of_app, elem_of_cons.
  split.
  - intros [H|[H|H]]; [right|by left|right].
    + eapply elem_of_sublist; [done|apply sublist_take].
    + eapply elem_of_sublist; [done|apply sublist_drop].
  - intros [H|H]; [by right; left|].
    rewrite <- (take_drop i l) in H.
    apply elem_of_app in H as [H|H]; [by left|by right; right].
Qed.

Lemma extends_collNodes c t t1 l :
  extends (nodes t) (nodes t1) -> model t1 = model t ->
  collNodes c t = Some l -> collNodes c t1 = Some l.
Proof.
  intros E M. destruct c as [|q]; cbn; [by rewrite M|].
  destruct (nodes t !! q) as [qd|] eqn:Hq; [|done].
  by rewrite (E q qd Hq).
Qed.


Lemma nodeGrows_refl nd : nodeGrows nd nd.
Proof. repeat split; try done. intros l Hl. by exists l. Qed.

(** ** The ids of the nodes created *)

Lemma dataIds_childIds (object : NodeData) :
  dataIds object = d_id object :: childIds object.
Proof. destruct object as [i txt st [| |l]]; reflexivity. Qed.

Lemma idsKept_refl h : idsKept h h.
Proof. intros m md Hm. by exists md. Qed.

Lemma idsKept_trans h1 h2 h3 : idsKept h1 h2 -> idsKept h2 h3 -> idsKept h1 h3.
Proof.
  intros K1 K2 m md Hm. destruct (K1 m md Hm) as (md2 & Hm2 & I2).
  destruct (K2 m md2 Hm2) as (md3 & Hm3 & I3). exists md3.
  split; [done|congruence].
Qed.

Lemma extends_idsKept h h' : extends h h' -> idsKept h h'.
Proof. intros E m md Hm. exists md. split; [by apply E|done]. Qed.

Lemma grows_idsKept t t' : grows t t' -> idsKept (nodes t) (nodes t').
Proof.
  intros [G _] m md Hm. destruct (G m md Hm) as (md' & Hm' & I & _).
  by exists md'.
Qed.

Lemma calm_idsKept t t' : calm t t' -> idsKept (nodes t) (nodes t').
Proof. intros C. by apply grows_idsKept, calm_grows. Qed.

Lemma calm_none t t' m : calm t t' -> nodes t !! m = None -> nodes t' !! m = None.
Proof. intros (K & _) Hm. specialize (K m). by rewrite Hm in K. Qed.

Lemma newIds_none (L : list string) h h' :
  (forall m, h !! m = None -> h' !! m = None) -> newIds L h h'.
Proof.
  intros N. split.
  - intros k kd Hk Hk'. rewrite (N k Hk) in Hk'. done.
  - intros _ k k' kd kd' Hk _ Hkd. rewrite (N k Hk) in Hkd. done.
Qed.


Lemma newIds_app (L1 L2 : list string) h h1 h2 :
  idsKept h1 h2 -> newIds L1 h h1 -> newIds L2 h1 h2 ->
  newIds (L1 ++ L2) h h2.
Proof.
  intros K [A1 B1] [A2 B2].
  assert (In : forall k kd, h !! k = None -> h2 !! k = Some kd ->
            match h1 !! k with
            | Some kd1 => id kd = id kd1 /\ id kd ∈ L1
            | None => id kd ∈ L2
            end).
  { intros k kd Hk Hk2. destruct (h1 !! k) as [kd1|] eqn:Hk1.
    - destruct (K k kd1 Hk1) as (kd' & Hk' & I). rewrite Hk2 in Hk'.
      injection Hk' as <-. split; [done|]. rewrite I. by eapply A1.
    - by eapply A2. }
  split.
  - intros k kd Hk Hk2. specialize (In k kd Hk Hk2). apply elem_of_app.
    destruct (h1 !! k); [left; by destruct In|by right].
  - intros Hnd. apply NoDup_app in Hnd as (N1 & Dis & N2).
    intros k k' kd kd' Hk Hk' Hkd Hkd' I.
    pose proof (In k kd Hk Hkd) as Ik. pose proof (In k' kd' Hk' Hkd') as Ik'.
    destruct (h1 !! k) as [kd1|] eqn:Hk1, (h1 !! k') as [kd1'|] eqn:Hk1'.
    + destruct Ik as [E1 _], Ik' as [E1' _].
      eapply (B1 N1 k k' kd1 kd1'); try done. congruence.
    + destruct Ik as [_ Ik]. destruct (Dis (id kd) Ik). by rewrite I.
    + destruct Ik' as [_ Ik']. destruct (Dis (id kd') Ik'). by rewrite <- I.
    + by eapply (B2 N2 k k' kd kd').
Qed.

Lemma newIds_then_none (L : list string) h h1 h2 :
  newIds L h h1 -> idsKept h1 h2 ->
  (forall m, h1 !! m = None -> h2 !! m = None) -> newIds L h h2.
Proof.
  intros N K No. rewrite <- (app_nil_r L).
  eapply newIds_app; [done|done|]. by apply newIds_none.
Qed.


Lemma newIds_calm (L : list string) h t1 t' :
  newIds L h (nodes t1) -> calm t1 t' -> newIds L h (nodes t').
Proof.
  intros N C. eapply newIds_then_none; [done|by apply calm_idsKept|].
  intros m. by apply calm_none.
Qed.

Lemma newIds_insert_same (L : list string) h h1 m md md' :
  newIds L h h1 -> h1 !! m = Some md -> id md' = id md ->
  newIds L h (<[m := md']> h1).
Proof.
  intros N Hm I. eapply newIds_then_none; [done| |].
  - intros k kd Hk. destruct (decide (k = m)) as [->|Hne].
    + rewrite lookup_insert_eq. exists md'. split; [done|]. congruence.
    + rewrite lookup_insert_ne by done. by exists kd.
  - intros k Hk. rewrite lookup_insert_ne; [done|]. congruence.
Qed.

(** The nodes that [objectToModel] creates carry the ids of the data,
    one node for each piece of it, when each piece has an id. *)
Lemma objectToModel_ids (api : TreeMethods) :
  forall (fuel : nat) (object : NodeData) (p : option ref) (t t' : Tree)
         (r : ref),
    objectToModel api fuel object p t = Some (t', r) ->
    (forall i, i ∈ dataIds object -> i <> "") ->
    idsKept (nodes t) (nodes t') /\
    newIds (dataIds object) (nodes t) (nodes t').
Proof.
  induction fuel as [|fuel IH]; intros object p t t' r E Hne; [done|].
  destruct object as [i txt st c].
  cbn [objectToModel d_id d_text d_state d_children] in E.
  assert (Hi : i <> "") by (apply Hne, list_elem_of_here).
  rewrite decide_False in E by done.
  set (r0 := fresh (base.dom (nodes t))) in *.
  set (c0 := match c with DBool b => ChBool b | DArray _ => ChNodes []
                     | DUndefined => ChUndefined end) in *.
  set (nd := mkTreeNode i txt c0 (mkITree false p st)) in *.
  set (t1 := set_nodes (<[r0 := nd]> (nodes t)) t) in *.
  assert (Hr : nodes t !! r0 = None) by apply fresh_lookup.
  assert (K1 : idsKept (nodes t) (nodes t1)).
  { apply extends_idsKept. by apply extends_insert_fresh. }
  assert (N1 : newIds [i] (nodes t) (nodes t1)).
  { assert (One : forall k kd, nodes t !! k = None -> nodes t1 !! k = Some kd ->
              k = r0 /\ kd = nd).
    { intros k kd Hk Hk1. unfold t1 in Hk1. cbn [nodes set_nodes] in Hk1.
      destruct (decide (k = r0)) as [->|Hkr].
      - rewrite lookup_insert_eq in Hk1. by injection Hk1 as <-.
      - rewrite lookup_insert_ne in Hk1 by done. congruence. }
    split.
    - intros k kd Hk Hk1. destruct (One k kd Hk Hk1) as [_ ->].
      apply list_elem_of_here.
    - intros _ k k' kd kd' Hk Hk' Hkd Hkd' _.
      destruct (One k kd Hk Hkd) as [-> _].
      by destruct (One k' kd' Hk' Hkd') as [-> _]. }
  assert (Loop : forall l (s s' : Tree * list ref),
    forEach
      (fun child (s : Tree * list ref) =>
         '(t', k) ← objectToModel api fuel child (Some r0) s.1;
         Some (t', s.2 ++ [k])) l s = Some s' ->
    (forall j, j ∈ dataIdsOf l -> j <> "") ->
    idsKept (nodes s.1) (nodes s'.1) /\
    newIds (dataIdsOf l) (nodes s.1) (nodes s'.1)).
  { induction l as [|x l IHl]; intros s s' El Hl.
    - cbn [forEach] in El. injection El as <-.
      split; [apply idsKept_refl|]. by apply newIds_none.
    - cbn [forEach] in El.
      destruct (objectToModel api fuel x (Some r0) s.1) as [[tx k]|] eqn:Ex;
        [|done].
      cbn [mbind option_bind] in El.
      cbn [dataIdsOf foldr] in Hl |- *. fold (dataIdsOf l) in Hl |- *.
      destruct (IH x (Some r0) s.1 tx k Ex) as [Kx Nx].
      { intros j Hj. apply Hl, elem_of_app. by left. }
      destruct (IHl (tx, s.2 ++ [k]) s' El) as [Kl Nl].
      { intros j Hj. apply Hl, elem_of_app. by right. }
      cbn [fst] in Kl, Nl. split; [by eapply idsKept_trans|].
      by eapply newIds_app. }
  destruct c as [| |l].
  1,2: injection E as <- <-; split; [done|exact N1].
  destruct (forEach _ l (t1, [])) as [[t2 kids]|] eqn:El; [|done].
  cbn [mbind option_bind] in E.
  destruct (nodes t2 !! r0) as [nd2|] eqn:Hr2; [|done].
  cbn [mbind option_bind] in E. injection E as <- <-.
  destruct (Loop l (t1, []) (t2, kids) El) as [K2 N2].
  { intros j Hj. apply Hne. rewrite dataIds_childIds.
    by apply list_elem_of_further. }
  cbn [fst] in K2, N2. cbn [nodes set_nodes].
  assert (K3 : idsKept (nodes t2) (<[r0 := set_children (ChNodes kids) nd2]> (nodes t2))).
  { intros k kd Hk. destruct (decide (k = r0)) as [->|Hkr].
    - rewrite lookup_insert_eq. eexists. split; [done|].
      rewrite Hr2 in Hk. by injection Hk as <-.
    - rewrite lookup_insert_ne by done. by exists kd. }
  split; [eapply idsKept_trans; [exact K1|by eapply idsKept_trans]|].
  change (dataIds (mkNodeData i txt st (DArray l))) with ([i] ++ dataIdsOf l).
  eapply newIds_then_none; [|exact K3|].
  - by eapply newIds_app.
  - intros k Hk. rewrite lookup_insert_ne; [done|]. congruence.
Qed.

(** The insertion of a node that is new: [insertAt] returns the node
    created for the data; the nodes of the heap keep what they had, the
    collection gains the new node, and nothing else is touched. *)
Lemma insertAt_new (api : TreeMethods) (fuel' D : nat) (c : Collection)
    (index : nat) (object : NodeData) (t : Tree) (lc : list ref) :
  renderFrame renderPass ->
  wfTree D t -> collNodes c t = Some lc ->
  (D + dataSize object <= fuel')%nat ->
  (if decide (d_id object = "") then Some None
   else node (S fuel') c (d_id object) t) = Some None ->
  exists t' r rd,
    insertAt api (S fuel') c index object t = Some (t', r) /\
    wfTree (D + dataSize object) t' /\ grows t t' /\
    (forall q, c = CKids q ->
       untouchedOutside q t t' /\ descendant (nodes t') q r) /\
    nodes t' !! r = Some rd /\ (d_id object <> "" -> id rd = d_id object) /\
    nodes t !! r = None /\
    collNodes c t' = Some (take index lc ++ r :: drop index lc) /\
    getParent rd = match c with CKids q => Some q | CRoot => None end /\
    text rd = d_text object /\
    (exists t5, t' = applyChanges t5 /\ isDirty (nodes t5) r = true) /\
    ((forall i, i ∈ dataIds object -> i <> "") ->
     newIds (dataIds object) (nodes t) (nodes t')).
Proof.
  intros Hrf W Hc Hf Hlook. cbn [insertAt]. rewrite Hlook.
  cbn [mbind option_bind].
  destruct W as ((L & CB) & Mp).
  destruct (objectToModel_creates api (S fuel') object None [] t)
    as (t1 & r & rd & E & Hr0 & Ex & T1 & Hr1 & Hpar & Hid & Htxt & L1 & N1);
    [lia|done|done|].
  rewrite E. cbn [mbind option_bind].
  assert (M1 : model t1 = model t) by (by rewrite T1).
  assert (C1 : config t1 = config t) by (by rewrite T1).
  rewrite (extends_collNodes c t t1 lc Ex M1 Hc). cbn [mbind option_bind].
  set (l' := take index lc ++ r :: drop index lc).
  assert (Hidr : d_id object <> "" -> id rd = d_id object).
  { intros Hne. rewrite Hid. by rewrite decide_False. }
  assert (Old : forall m anc, ancestors (nodes t) m anc -> r ∉ m :: anc).
  { intros m anc Ha Hin.
    destruct (ancestors_all_present _ _ _ Ha r Hin) as [x Hx]. congruence. }
  destruct c as [|q].
  - cbn in Hc. injection Hc as <-. cbn [setCollNodes mbind option_bind].
    set (t2 := set_model l' t1).
    assert (W2 : wfTree (D + dataSize object) t2).
    { split; [split; [exact L1|]|].
      - intros m md Hm. change (nodes t1 !! m = Some md) in Hm.
        change (nodes t2) with (nodes t1).
        destruct (nodes t !! m) as [md0|] eqn:Hm0.
        + destruct (CB m md0 Hm0) as (anc & Ha & Hl). exists anc.
          split; [by eapply extends_ancestors|lia].
        + destruct (N1 m md Hm0 Hm) as (path & Ha & Hl & _).
          rewrite app_nil_r in Ha. exists path. split; [done|lia].
      - intros m Hm. change (nodes t2) with (nodes t1).
        change (m ∈ l') in Hm. apply elem_of_splice in Hm as [->|Hm].
        + by rewrite Hr1.
        + destruct (Mp m Hm) as [x Hx]. by rewrite (Ex m x Hx). }
    assert (G2 : grows t t2).
    { split; [|exact C1]. intros m nd Hm. exists nd.
      split; [by apply Ex|apply nodeGrows_refl]. }
    destruct (markDirty_calm (S fuel') r [] (emit (EvNode "node.added" r) t2))
      as (t5 & E5 & C5 & Hd5); [by eapply ancestors_root|cbn; lia|].
    rewrite E5. cbn [mbind option_bind].
    assert (Cf : calm t2 (applyChanges t5)).
    { eapply calm_trans; [exact C5|by apply applyChanges_calm]. }
    destruct (calm_lookup t2 _ r rd Cf Hr1)
      as (rd' & Hr' & I' & T' & _ & P' & _).
    exists (applyChanges t5), r, rd'. split; [done|].
    split; [by eapply calm_wfTree|].
    split; [eapply grows_trans; [exact G2|by apply calm_grows]|].
    split; [done|]. split; [done|].
    split; [intros Hne; rewrite I'; by apply Hidr|].
    split; [done|].
    split; [cbn [collNodes]; by destruct Cf as (_ & _ & ->)|].
    split; [congruence|]. split; [congruence|]. split; [by exists t5|].
    intros Hne. destruct (objectToModel_ids api _ _ _ _ _ _ E Hne) as [_ NI1].
    by eapply (newIds_calm _ _ t2).
  - cbn in Hc. destruct (nodes t !! q) as [qd|] eqn:Hq; [|done].
    cbn in Hc. destruct (children qd) as [| |lq] eqn:Hch; try done.
    injection Hc as ->.
    assert (Hkq : getChildNodes qd = lc) by (unfold getChildNodes; by rewrite Hch).
    cbn [setCollNodes]. rewrite (Ex q qd Hq). cbn [mbind option_bind].
    assert (Hrq : r <> q) by congruence.
    cbn [nodes set_nodes]. rewrite lookup_insert_ne by done.
    rewrite Hr1. cbn [mbind option_bind].
    set (h2 := <[q := set_children (ChNodes l') qd]> (nodes t1)).
    set (h2a := <[r := set_parent (Some q) rd]> h2).
    set (t2a := set_nodes h2a (set_nodes h2 t1)).
    destruct (CB q qd Hq) as (ancq & Haq & Hlq).
    assert (Hrn : r ∉ q :: ancq) by (by apply Old).
    assert (Haq2 : ancestors h2 q ancq).
    { apply ancestors_set_children; [by apply Ex|].
      by eapply extends_ancestors. }
    assert (Hr2 : h2 !! r = Some rd).
    { unfold h2. by rewrite lookup_insert_ne. }
    assert (Haq2a : ancestors h2a q ancq)
      by (by apply ancestors_insert_other).
    assert (Har : ancestors h2a r (q :: ancq)).
    { eapply ancestors_step; [apply lookup_insert_eq|done|done]. }
    assert (Pres : forall m md0, nodes t !! m = Some md0 ->
      exists md', h2a !! m = Some md' /\ nodeGrows md0 md' /\
                  (m <> q -> children md' = children md0)).
    { intros m md0 Hm. assert (m <> r) by congruence.
      unfold h2a, h2. rewrite lookup_insert_ne by done.
      destruct (decide (m = q)) as [->|Hmq].
      - rewrite lookup_insert_eq. eexists. split; [done|]. split; [|done].
        rewrite Hq in Hm. injection Hm as <-.
        repeat split; try done.
        + cbn. rewrite Hkq. apply sublist_splice.
        + intros l _. by eexists.
      - rewrite lookup_insert_ne by done. exists md0.
        split; [by apply Ex|]. split; [apply nodeGrows_refl|done]. }
    assert (W2a : wfTree (D + dataSize object) t2a).
    { split; [split|].
      - apply linkedDown_splice; try done; [by apply Ex|].
        intros k Hk. rewrite Hkq. by apply elem_of_splice in Hk.
      - intros m md Hm. change (h2a !! m = Some md) in Hm.
        change (nodes t2a) with h2a.
        destruct (nodes t !! m) as [md0|] eqn:Hm0.
        + destruct (CB m md0 Hm0) as (anc & Ha & Hl). exists anc.
          split; [|lia]. apply ancestors_insert_other; [by apply Old|].
          apply ancestors_set_children; [by apply Ex|].
          by eapply extends_ancestors.
        + assert (Hm1 : is_Some (nodes t1 !! m)).
          { destruct (decide (m = r)) as [->|Hmr]; [by rewrite Hr1|].
            unfold h2a, h2 in Hm. rewrite lookup_insert_ne in Hm by done.
            rewrite lookup_insert_ne in Hm by congruence. by rewrite Hm. }
          destruct Hm1 as [md1 Hm1].
          destruct (N1 m md1 Hm0 Hm1) as (path & Ha & Hl & Hlast).
          rewrite app_nil_r in Ha.
          exists (path ++ q :: ancq). split.
          * eapply ancestors_reparent; try done.
            apply ancestors_set_children; [by apply Ex|done].
          * rewrite length_app. cbn [length]. lia.
      - intros m Hm. change (m ∈ model t1) in Hm. rewrite M1 in Hm.
        destruct (Mp m Hm) as [x Hx].
        destruct (Pres m x Hx) as (md' & Hmd' & _).
        change (nodes t2a) with h2a. by rewrite Hmd'. }
    assert (G2a : grows t t2a).
    { split; [|exact C1]. intros m nd Hm.
      destruct (Pres m nd Hm) as (md' & Hmd' & Hg & _). by exists md'. }
    assert (U2a : untouchedOutside q t t2a).
    { split; [exact M1|]. intros m nd anc Hm _ Hmq _.
      destruct (Pres m nd Hm) as (md' & Hmd' & _ & Hc).
      exists md'. split; [done|by apply Hc]. }
    assert (D2a : descendant (nodes t2a) q r).
    { eapply descendant_child.
      - change (nodes t2a) with h2a. unfold h2a.
        rewrite lookup_insert_ne by done. apply lookup_insert_eq.
      - cbn. apply elem_of_splice. by left. }
    destruct (refresh_calm (S fuel') q ancq t2a) as (t2' & E2' & C2');
      [by destruct W2a as ((? & _) & _)|done|lia|].
    change (set_nodes (<[r := set_parent (Some q) rd]>
              (<[q := set_children (ChNodes l') qd]> (nodes t1)))
              (set_nodes (<[q := set_children (ChNodes l') qd]> (nodes t1)) t1))
      with t2a.
    rewrite E2'. cbn [mbind option_bind].
    destruct (markDirty_calm (S fuel') q ancq t2') as (t3 & E3 & C3 & _);
      [by eapply calm_ancestors|lia|].
    rewrite E3. cbn [mbind option_bind].
    assert (C23 : calm t2a t3) by (by eapply calm_trans).
    destruct (markDirty_calm (S fuel') r (q :: ancq)
                (emit (EvNode "node.added" r) t3)) as (t5 & E5 & C5 & Hd5);
      [by apply (calm_ancestors t2a t3)|cbn [length]; lia|].
    rewrite E5. cbn [mbind option_bind].
    assert (Cf : calm t2a (applyChanges t5)).
    { eapply calm_trans; [exact C23|].
      eapply calm_trans; [exact C5|by apply applyChanges_calm]. }
    destruct (calm_lookup t2a _ r (set_parent (Some q) rd) Cf)
      as (rd' & Hr' & I' & T' & _ & P' & _); [apply lookup_insert_eq|].
    destruct (calm_lookup t2a _ q (set_children (ChNodes l') qd) Cf)
      as (qd' & Hq' & _ & _ & Chq' & _).
    { change (nodes t2a) with h2a. unfold h2a.
      rewrite lookup_insert_ne by done. apply lookup_insert_eq. }
    exists (applyChanges t5), r, rd'. split; [done|].
    split; [by eapply calm_wfTree|].
    split; [eapply grows_trans; [exact G2a|by apply calm_grows]|].
    split; [|split; [done|split; [|split; [done|split; [|split; [|split]]]]]].
    + intros q' [= <-]. split.
      * eapply untouched_trans; [exact G2a|exact U2a|by apply calm_untouched].
      * eapply kept_descendant; [by apply calm_kept|done].
    + intros Hne. rewrite I'. by apply Hidr.
    + cbn [collNodes]. rewrite Hq'. cbn [mbind option_bind]. by rewrite Chq'.
    + by rewrite P'.
    + by rewrite T'.
    + split; [by exists t5|]. intros Hne.
      destruct (objectToModel_ids api _ _ _ _ _ _ E Hne) as [_ NI1].
      eapply (newIds_calm _ _ t2a); [|done].
      change (nodes t2a) with h2a. unfold h2a, h2.
      eapply newIds_insert_same; [|by rewrite lookup_insert_ne|done].
      eapply newIds_insert_same; [done|by apply Ex|done].
Qed.

(** ** Merging into a node that exists *)





Lemma descendant_trans (h : gmap ref TreeNode) a b c :
  descendant h a b -> descendant h b c -> descendant h a c.
Proof.
  intros Hab. induction 1 as [bd c Hb Hc|m md c _ IH Hm Hc].
  - by eapply descendant_step.
  - by eapply descendant_step.
Qed.




(** * More of the code *)

(** ** The walks up *)

Lemma visitChain_push (l acc : list ref) :
  visitChain is_false
    (fun m (parents : list ref) => (parents ++ [m], JSUndefined)) l acc
  = acc ++ l.
Proof.
  revert acc. induction l as [|m l IH]; intros acc; cbn.
  - by rewrite app_nil_r.
  - rewrite IH. by rewrite <- app_assoc.
Qed.

(** [getParents()] returns the parent chain of the node, the parent
    first and the root last; it is empty for a node without parent. *)
Theorem getParents_is_parent_chain (fuel : nat) (n : ref) (anc : list ref)
    (t : Tree) :
  ancestors (nodes t) n anc -> (length anc <= fuel)%nat ->
  getParents fuel n t = Some anc.
Proof.
  intros Ha Hf. unfold getParents.
  inversion Ha as [n' nd Hn Hp|n' nd p l Hn Hp Hl]; subst.
  - rewrite Hn. cbn. unfold hasParent. unfold getParent in Hp. by rewrite Hp.
  - rewrite Hn. cbn. unfold hasParent. pose proof Hp as Hp'.
    unfold getParent in Hp'. rewrite Hp'. rewrite Hp. cbn.
    rewrite (recurseUp_closed fuel _ p l t []) by (done || (cbn in Hf; lia)).
    by rewrite visitChain_push.
Qed.

Lemma visitChain_unshift (t : Tree) (l : list ref) (acc : list string) :
  visitChain is_false
    (fun m (paths : list string) => (textOf t m :: paths, JSUndefined)) l acc
  = (textOf t <$> reverse l) ++ acc.
Proof.
  revert acc. induction l as [|m l IH]; intros acc; [done|].
  cbn [visitChain]. rewrite IH, reverse_cons, fmap_app, <- app_assoc. done.
Qed.

(** [getTextualHierarchy()] returns the texts along the parent chain,
    from the root down to the node itself. *)
Theorem getTextualHierarchy_root_first (fuel : nat) (n : ref)
    (anc : list ref) (t : Tree) :
  ancestors (nodes t) n anc -> (length anc < fuel)%nat ->
  getTextualHierarchy fuel n t = Some (textOf t <$> reverse (n :: anc)).
Proof.
  intros Ha Hf. unfold getTextualHierarchy.
  rewrite (recurseUp_closed fuel _ n anc t []) by done.
  by rewrite visitChain_unshift, app_nil_r.
Qed.

Lemma indexOf_absent (l : list ref) (x : ref) : x ∉ l -> indexOf l x = -1.
Proof.
  induction l as [|y l IH]; intros Hx; [done|]. cbn [indexOf].
  rewrite decide_False by (intros ->; apply Hx, list_elem_of_here).
  rewrite IH by (intros H; by apply Hx, list_elem_of_further). done.
Qed.

Lemma indexOf_member (l : list ref) (x : ref) :
  x ∈ l ->
  exists j : nat, indexOf l x = Z.of_nat j /\ l !! j = Some x /\
                  forall j' : nat, (j' < j)%nat -> l !! j' <> Some x.
Proof.
  induction l as [|y l IH]; intros Hx; [by apply not_elem_of_nil in Hx|].
  cbn [indexOf]. destruct (decide (y = x)) as [->|Hne].
  - exists 0%nat. split; [done|]. split; [done|]. intros j' Hj. lia.
  - apply elem_of_cons in Hx as [->|Hx]; [done|].
    destruct (IH Hx) as (j & Hi & Hj & Hmin). exists (S j).
    rewrite Hi. split; [|split; [done|]].
    + destruct (Z.ltb_spec (Z.of_nat j) 0); lia.
    + intros [|j'] Hlt; cbn; [congruence|]. apply Hmin. lia.
Qed.

(** [indexPath()] lists, from the root down to the node, the position of
    each node of the parent chain in its own context: in a tree whose
    nodes are members of the children of their parent, and whose root is
    a member of the root collection, every position is the first place
    at which the context holds the node. *)
Theorem indexPath_positions (fuel : nat) (n : ref) (anc : list ref)
    (t : Tree) :
  ancestors (nodes t) n anc -> (length anc < fuel)%nat ->
  linkedUp (nodes t) ->
  (forall m md, m ∈ n :: anc -> nodes t !! m = Some md ->
     getParent md = None -> m ∈ model t) ->
  exists ixs,
    indexPathIndices fuel n t = Some ixs /\
    indexPath fuel n t = Some (String.concat "." (pretty <$> reverse ixs)) /\
    length ixs = S (length anc) /\
    forall k m, (n :: anc) !! k = Some m ->
      exists md c (j : nat),
        nodes t !! m = Some md /\ context md t = Some c /\
        ixs !! k = Some (Z.of_nat j) /\ c !! j = Some m /\
        forall j' : nat, (j' < j)%nat -> c !! j' <> Some m.
Proof.
  intros Ha Hf LU Hroot.
  set (it := fun m (indices : option (list Z)) =>
               (ixs ← indices; md ← nodes t !! m; c ← context md t;
                Some (ixs ++ [indexOf c m]), JSUndefined)).
  assert (Walk : forall l m acc,
    ancestors (nodes t) m l ->
    (forall x xd, x ∈ m :: l -> nodes t !! x = Some xd ->
       getParent xd = None -> x ∈ model t) ->
    exists ixs,
      visitChain is_false it (m :: l) (Some acc) = Some (acc ++ ixs) /\
      length ixs = S (length l) /\
      forall k x, (m :: l) !! k = Some x ->
        exists xd c (j : nat),
          nodes t !! x = Some xd /\ context xd t = Some c /\
          ixs !! k = Some (Z.of_nat j) /\ c !! j = Some x /\
          forall j' : nat, (j' < j)%nat -> c !! j' <> Some x).
  { intros l m acc Hl. revert acc.
    induction Hl as [m md Hm Hp|m md p l Hm Hp Hl IH]; intros acc Hr.
    - assert (Hc : context md t = Some (model t)).
      { unfold context. by rewrite Hp. }
      destruct (indexOf_member (model t) m) as (j & Hi & Hj & Hmin).
      { eapply Hr; [apply list_elem_of_here|done|done]. }
      exists [Z.of_nat j]. cbn [visitChain it]. cbn. rewrite Hm. cbn.
      rewrite Hc. cbn. rewrite Hi. split; [done|]. split; [done|].
      intros [|k] x Hk; [|done]. cbn in Hk. injection Hk as <-.
      by exists md, (model t), j.
    - destruct (LU m md p Hm Hp) as (pd & Hpd & Hin).
      assert (Hc : context md t = Some (getChildNodes pd)).
      { unfold context. rewrite Hp, Hpd. done. }
      destruct (indexOf_member (getChildNodes pd) m Hin) as (j & Hi & Hj & Hmin).
      destruct (IH (acc ++ [Z.of_nat j])) as (ixs & Ev & Hlen & Hpos).
      { intros x xd Hx. apply Hr. by apply list_elem_of_further. }
      exists (Z.of_nat j :: ixs).
      split; [|split; [cbn; by rewrite Hlen|]].
      + change (visitChain is_false it (m :: p :: l) (Some acc))
          with (visitChain is_false it (p :: l) (it m (Some acc)).1).
        unfold it at 2. cbn [mbind option_bind fst]. rewrite Hm.
        cbn [mbind option_bind]. rewrite Hc. cbn [mbind option_bind].
        rewrite Hi, Ev. by rewrite <- app_assoc.
      + intros [|k] x Hk.
        * cbn in Hk. injection Hk as <-. by exists md, (getChildNodes pd), j.
        * cbn in Hk. destruct (Hpos k x Hk) as (xd & c & j0 & H1 & H2 & H3 & H4).
          by exists xd, c, j0. }
  destruct (Walk anc n [] Ha Hroot) as (ixs & Ev & Hlen & Hpos).
  exists ixs. unfold indexPath, indexPathIndices.
  rewrite (recurseUp_closed fuel _ n anc t (Some [])) by done.
  fold it. rewrite Ev. cbn. by repeat split.
Qed.

(** ** The moves between visible nodes *)

Lemma visible_total (fuel : nat) (n : ref) (anc : list ref) (t : Tree) :
  ancestors (nodes t) n anc -> (length anc < fuel)%nat ->
  exists b, visible fuel n t = Some b.
Proof.
  intros Ha. revert fuel.
  induction Ha as [n nd Hn Hp|n nd p l Hn Hp Hl IH]; intros fuel Hf;
    (destruct fuel as [|fuel]; [cbn in Hf; lia|]); rewrite visible_S, Hn;
    cbn [mbind option_bind];
    destruct (truthy (hidden nd) || truthy (removed nd)); try by eexists.
  - rewrite Hp. by eexists.
  - rewrite Hp. destruct (ancestors_lookup _ _ _ Hl) as [pd Hpd].
    rewrite Hpd. cbn [mbind option_bind].
    destruct (truthy (collapsed pd)); [by eexists|].
    apply IH. cbn in Hf. lia.
Qed.

Lemma wfDown_visible_total (D fuel : nat) (t : Tree) (m : ref) (md : TreeNode) :
  wfDown D (nodes t) -> (D <= fuel)%nat -> nodes t !! m = Some md ->
  exists b, visible fuel m t = Some b.
Proof.
  intros (_ & CB) Hf Hm. destruct (CB m md Hm) as (anc & Ha & Hl).
  eapply visible_total; [done|lia].
Qed.

Lemma findVisible_first (fuel : nat) (t : Tree) (l : list ref) :
  (forall m, m ∈ l -> exists b, visible fuel m t = Some b) ->
  exists r, findVisible fuel l t = Some r /\ firstVisible fuel t l r.
Proof.
  induction l as [|m l IH]; intros Hall.
  - exists None. split; [done|]. intros m Hm. by apply not_elem_of_nil in Hm.
  - destruct (Hall m) as [b Hb]; [apply list_elem_of_here|].
    cbn [findVisible]. rewrite Hb. cbn [mbind option_bind]. destruct b.
    + exists (Some m). split; [done|]. exists [], l. split; [done|].
      split; [done|]. intros x Hx. by apply not_elem_of_nil in Hx.
    + destruct IH as (r & Er & Hr).
      { intros x Hx. apply Hall. by apply list_elem_of_further. }
      exists r. split; [done|]. destruct r as [x|].
      * destruct Hr as (l1 & l2 & -> & Hv & Hbefore).
        exists (m :: l1), l2. split; [done|]. split; [done|].
        intros y Hy. apply elem_of_cons in Hy as [->|Hy]; [done|].
        by apply Hbefore.
      * intros y Hy. apply elem_of_cons in Hy as [->|Hy]; [done|].
        by apply Hr.
Qed.

Lemma nextVisibleChildNode_first (D fuel : nat) (n : ref)
    (t : Tree) (nd : TreeNode) :
  wfDown D (nodes t) -> (D <= fuel)%nat -> nodes t !! n = Some nd ->
  exists r,
    nextVisibleChildNode fuel n t = Some r /\
    firstVisible fuel t (getChildNodes nd) r.
Proof.
  intros W Hf Hn. unfold nextVisibleChildNode. rewrite Hn.
  cbn [mbind option_bind].
  destruct (hasChildren nd) eqn:Hc.
  - apply findVisible_first. intros m Hm.
    destruct (proj1 W n nd m Hn Hm) as (md & Hmd & _).
    by eapply wfDown_visible_total.
  - exists None. split; [done|]. intros m Hm.
    unfold hasChildren in Hc. unfold getChildNodes in Hm.
    destruct (children nd) as [| |[|x l]]; try done;
      by apply not_elem_of_nil in Hm.
Qed.

(** [nextVisibleChildNode()] returns the first child that is visible,
    and nothing when the node has no visible child. *)
Theorem nextVisibleChildNode_first_visible (D fuel : nat) (n : ref)
    (t : Tree) (nd : TreeNode) :
  wfDown D (nodes t) -> (D <= fuel)%nat -> nodes t !! n = Some nd ->
  exists r,
    nextVisibleChildNode fuel n t = Some r /\
    firstVisible fuel t (getChildNodes nd) r.
Proof. apply nextVisibleChildNode_first. Qed.

Lemma findIndexById_none (h : gmap ref TreeNode) (i : string) (l : list ref) :
  (forall m, m ∈ l -> exists md, h !! m = Some md /\ id md <> i) ->
  findIndexById h i l = Some (-1).
Proof.
  induction l as [|m l IH]; intros Hall; [done|].
  destruct (Hall m) as (md & Hm & Hid); [apply list_elem_of_here|].
  cbn [findIndexById]. rewrite Hm. cbn [mbind option_bind].
  rewrite decide_False by done.
  rewrite IH by (intros x Hx; apply Hall; by apply list_elem_of_further).
  done.
Qed.

Lemma findIndexById_first (h : gmap ref TreeNode) (i : string)
    (pre post : list ref) (n : ref) (nd : TreeNode) :
  (forall m, m ∈ pre -> exists md, h !! m = Some md /\ id md <> i) ->
  h !! n = Some nd -> id nd = i ->
  findIndexById h i (pre ++ n :: post) = Some (Z.of_nat (length pre)).
Proof.
  intros Hall Hn Hid. induction pre as [|m pre IH].
  - cbn. rewrite Hn. cbn. by rewrite decide_True.
  - destruct (Hall m) as (md & Hm & Hne); [apply list_elem_of_here|].
    cbn [app findIndexById]. rewrite Hm. cbn [mbind option_bind].
    rewrite decide_False by done.
    rewrite IH by (intros x Hx; apply Hall; by apply list_elem_of_further).
    cbn [mbind option_bind length]. f_equal.
    destruct (Z.ltb_spec (Z.of_nat (length pre)) 0); lia.
Qed.

Lemma siblings_present (D : nat) (t : Tree) (nd : TreeNode) (ctx : list ref) :
  wfTree D t -> siblings nd t = Some ctx ->
  forall m, m ∈ ctx -> is_Some (nodes t !! m).
Proof.
  intros ((L & _) & Mp) Hs m Hm. unfold siblings in Hs.
  destruct (getParent nd) as [p|].
  - destruct (nodes t !! p) as [pd|] eqn:Hp; [|done]. cbn in Hs.
    injection Hs as <-. destruct (L p pd m Hp Hm) as (md & -> & _). done.
  - injection Hs as <-. by apply Mp.
Qed.

Lemma wfTree_visible_total (D fuel : nat) (t : Tree) (nd : TreeNode)
    (ctx l : list ref) :
  wfTree D t -> (D <= fuel)%nat -> siblings nd t = Some ctx ->
  (forall m, m ∈ l -> m ∈ ctx) ->
  forall m, m ∈ l -> exists b, visible fuel m t = Some b.
Proof.
  intros W Hf Hs Hsub m Hm.
  destruct (siblings_present D t nd ctx W Hs m (Hsub m Hm)) as [md Hmd].
  eapply wfDown_visible_total; [exact (proj1 W)|done|done].
Qed.

(** [nextVisibleSiblingNode()]: when the node is the first node of its
    context with its id (as when the ids of siblings are distinct), the
    result is the first visible node after it in the context, and
    nothing when no later sibling is visible. *)
Theorem nextVisibleSiblingNode_first_after (D fuel : nat) (n : ref)
    (t : Tree) (nd : TreeNode) (pre post : list ref) :
  wfTree D t -> (D <= fuel)%nat -> nodes t !! n = Some nd ->
  siblings nd t = Some (pre ++ n :: post) ->
  (forall m md, m ∈ pre -> nodes t !! m = Some md -> id md <> id nd) ->
  exists r,
    nextVisibleSiblingNode fuel n t = Some r /\ firstVisible fuel t post r.
Proof.
  intros W Hf Hn Hs Hpre. unfold nextVisibleSiblingNode.
  rewrite Hn. cbn [mbind option_bind]. rewrite Hs. cbn [mbind option_bind].
  rewrite (findIndexById_first (nodes t) (id nd) pre post n nd); [|  |done|done].
  - cbn [mbind option_bind].
    replace (Z.to_nat (Z.of_nat (length pre) + 1)) with (S (length pre)) by lia.
    rewrite (cons_middle n pre post), app_assoc.
    rewrite drop_app_length' by (rewrite length_app; cbn; lia).
    apply findVisible_first.
    eapply wfTree_visible_total; [done|done|done|].
    intros m Hm. apply elem_of_app. right. by apply list_elem_of_further.
  - intros m Hm.
    destruct (siblings_present D t nd _ W Hs m) as [md Hmd].
    { apply elem_of_app. by left. }
    exists md. split; [done|]. by eapply Hpre.
Qed.

(** [previousVisibleSiblingNode()]: when the node is the first node of
    its context with its id, the result is the last visible node before
    it in the context, and nothing when no earlier sibling is visible. *)
Theorem previousVisibleSiblingNode_last_before (D fuel : nat) (n : ref)
    (t : Tree) (nd : TreeNode) (pre post : list ref) :
  wfTree D t -> (D <= fuel)%nat -> nodes t !! n = Some nd ->
  siblings nd t = Some (pre ++ n :: post) ->
  (forall m md, m ∈ pre -> nodes t !! m = Some md -> id md <> id nd) ->
  exists r,
    previousVisibleSiblingNode fuel n t = Some r /\
    firstVisible fuel t (reverse pre) r.
Proof.
  intros W Hf Hn Hs Hpre. unfold previousVisibleSiblingNode.
  rewrite Hn. cbn [mbind option_bind]. rewrite Hs. cbn [mbind option_bind].
  rewrite (findIndexById_first (nodes t) (id nd) pre post n nd); [|  |done|done].
  - cbn [mbind option_bind]. unfold findLastVisible, sliceTo.
    destruct (Z.ltb_spec (Z.of_nat (length pre)) 0) as [Hneg|_]; [lia|].
    rewrite Nat2Z.id, take_app_length.
    apply findVisible_first.
    eapply wfTree_visible_total; [done|done|done|].
    intros m Hm. rewrite elem_of_reverse in Hm. apply elem_of_app. by left.
  - intros m Hm.
    destruct (siblings_present D t nd _ W Hs m) as [md Hmd].
    { apply elem_of_app. by left. }
    exists md. split; [done|]. by eapply Hpre.
Qed.

(** When no node of the context has the id of the node (the node left
    the collection, as after [remove()], which keeps its parent link),
    [_.findIndex] gives -1: [nextVisibleSiblingNode()] then returns the
    first visible node of the whole context, and
    [previousVisibleSiblingNode()] the last visible node among all the
    nodes of the context but the last one. *)
Theorem sibling_moves_of_a_stranger (D fuel : nat) (n : ref) (t : Tree)
    (nd : TreeNode) (ctx : list ref) :
  wfTree D t -> (D <= fuel)%nat -> nodes t !! n = Some nd ->
  siblings nd t = Some ctx ->
  (forall m md, m ∈ ctx -> nodes t !! m = Some md -> id md <> id nd) ->
  exists r1 r2,
    nextVisibleSiblingNode fuel n t = Some r1 /\
    firstVisible fuel t ctx r1 /\
    previousVisibleSiblingNode fuel n t = Some r2 /\
    firstVisible fuel t (reverse (take (length ctx - 1) ctx)) r2.
Proof.
  intros W Hf Hn Hs Hctx.
  assert (Hi : findIndexById (nodes t) (id nd) ctx = Some (-1)).
  { apply findIndexById_none. intros m Hm.
    destruct (siblings_present D t nd _ W Hs m Hm) as [md Hmd].
    exists md. split; [done|]. by eapply Hctx. }
  destruct (findVisible_first fuel t ctx) as (r1 & E1 & F1).
  { eapply wfTree_visible_total; done. }
  destruct (findVisible_first fuel t (reverse (take (length ctx - 1) ctx)))
    as (r2 & E2 & F2).
  { eapply wfTree_visible_total; [done|done|done|].
    intros m Hm. rewrite elem_of_reverse in Hm.
    eapply elem_of_sublist; [done|apply sublist_take]. }
  exists r1, r2.
  unfold nextVisibleSiblingNode, previousVisibleSiblingNode.
  rewrite Hn. cbn [mbind option_bind]. rewrite Hs. cbn [mbind option_bind].
  rewrite Hi. cbn [mbind option_bind]. split; [exact E1|]. split; [done|].
  split; [|done]. unfold findLastVisible, sliceTo. cbn [Z.ltb Z.compare].
  replace (Z.to_nat (Z.of_nat (length ctx) + -1)) with (length ctx - 1)%nat
    by lia.
  exact E2.
Qed.

Lemma child_chain (h : gmap ref TreeNode) (m c : ref) (md : TreeNode)
    (anc : list ref) :
  linkedDown h -> h !! m = Some md -> c ∈ getChildNodes md ->
  ancestors h m anc ->
  exists cd, h !! c = Some cd /\ ancestors h c (m :: anc).
Proof.
  intros L Hm Hc Ha. destruct (L m md c Hm Hc) as (cd & Hcd & Hp).
  exists cd. split; [done|]. by eapply ancestors_step.
Qed.

Lemma lastDeepestVisibleChild_walk (D fuel : nat) (t : Tree) :
  wfDown D (nodes t) -> (D <= fuel)%nat ->
  forall (fuelk : nat) (m : ref) (md : TreeNode) (anc : list ref),
    nodes t !! m = Some md -> ancestors (nodes t) m anc ->
    (2 * D <= fuelk + length anc)%nat ->
    exists res,
      lastDeepestVisibleChild fuelk m t = Some res /\
      match res with
      | Returns None =>
        hasChildren md && negb (truthy (collapsed md)) = false
      | Returns (Some r) =>
        descendant (nodes t) m r /\ visible fuel r t = Some true /\
        exists rd, nodes t !! r = Some rd /\
                   hasChildren rd && negb (truthy (collapsed rd)) = false
      | TypeError =>
        exists x xd, (x = m \/ descendant (nodes t) m x) /\
          nodes t !! x = Some xd /\
          hasChildren xd && negb (truthy (collapsed xd)) = true /\
          forall c, c ∈ getChildNodes xd -> visible fuel c t = Some false
      end /\
      (hasChildren md && negb (truthy (collapsed md)) = true ->
       (forall c, c ∈ getChildNodes md -> visible fuel c t = Some false) ->
       res = TypeError).
Proof.
  intros (L & CB) HD.
  assert (Short : forall x xd l, nodes t !! x = Some xd ->
            ancestors (nodes t) x l -> (length l < D)%nat).
  { intros x xd l Hx Hl. destruct (CB x xd Hx) as (l' & Hl' & Hlt).
    by rewrite (ancestors_fun _ _ _ _ Hl Hl'). }
  induction fuelk as [|fuelk IH]; intros m md anc Hm Ha Hsum.
  { pose proof (Short m md anc Hm Ha). lia. }
  pose proof (Short m md anc Hm Ha) as Hshort.
  cbn [lastDeepestVisibleChild]. rewrite Hm. cbn [mbind option_bind].
  destruct (hasChildren md && negb (truthy (collapsed md))) eqn:Hopen;
    [|by exists (Returns None)].
  assert (Kid : forall c, c ∈ getChildNodes md ->
    exists cd, nodes t !! c = Some cd /\ ancestors (nodes t) c (m :: anc) /\
               visible (S fuelk) c t = visible fuel c t).
  { intros c Hc. destruct (child_chain _ m c md anc L Hm Hc Ha) as (cd & Hcd & Hac).
    exists cd. split; [done|]. split; [done|].
    pose proof (Short c cd _ Hcd Hac) as Hs. cbn [length] in Hs.
    eapply visible_fuel_eq; [done|cbn [length]; lia|cbn [length]; lia]. }
  destruct (findVisible_first (S fuelk) t (reverse (getChildNodes md)))
    as (r & Er & Hr).
  { intros c Hc. rewrite elem_of_reverse in Hc.
    destruct (Kid c Hc) as (cd & Hcd & Hac & _).
    eapply visible_total; [done|].
    pose proof (Short c cd _ Hcd Hac) as Hs. cbn [length] in Hs |- *. lia. }
  unfold findLastVisible. rewrite Er. cbn [mbind option_bind].
  destruct r as [f|].
  - destruct Hr as (l1 & l2 & Hl & Hvf & _).
    assert (Hf : f ∈ getChildNodes md).
    { rewrite <- elem_of_reverse, Hl. apply elem_of_app. right.
      apply list_elem_of_here. }
    destruct (Kid f Hf) as (fd & Hfd & Haf & Hveq).
    rewrite Hveq in Hvf.
    destruct (IH f fd (m :: anc) Hfd Haf) as (res & Eres & Hres & _);
      [cbn [length]; lia|].
    rewrite Eres. cbn [mbind option_bind].
    assert (Dmf : descendant (nodes t) m f) by (by eapply descendant_child).
    destruct res as [[r|]|].
    + exists (Returns (Some r)). split; [done|]. split.
      * destruct Hres as (Dr & Hvr & Hrd). split; [|done].
        by eapply descendant_trans.
      * intros _ Hnone. rewrite (Hnone f Hf) in Hvf. done.
    + exists (Returns (Some f)). split; [done|]. split.
      * split; [done|]. split; [done|]. by exists fd.
      * intros _ Hnone. rewrite (Hnone f Hf) in Hvf. done.
    + exists TypeError. split; [done|]. split; [|done].
      destruct Hres as (x & xd & Hx & Hxd & Ho & Hno).
      exists x, xd. split; [|done]. right.
      destruct Hx as [->|Hx]; [done|by eapply descendant_trans].
  - exists TypeError. split; [done|]. split; [|done].
    exists m, md. split; [by left|]. split; [done|]. split; [done|].
    intros c Hc. destruct (Kid c Hc) as (cd & _ & _ & <-).
    apply Hr. by rewrite elem_of_reverse.
Qed.

Lemma firstVisible_find (fuel : nat) (t : Tree) (l : list ref)
    (r : option ref) :
  firstVisible fuel t l r -> findVisible fuel l t = Some r.
Proof.
  destruct r as [x|]; cbn [firstVisible].
  - intros (l1 & l2 & -> & Hv & Hbefore).
    induction l1 as [|m l1 IH]; cbn [app findVisible].
    + by rewrite Hv.
    + rewrite (Hbefore m (list_elem_of_here _ _)). cbn [mbind option_bind].
      apply IH. intros y Hy. apply Hbefore. by apply list_elem_of_further.
  - induction l as [|m l IH]; intros Hall; [done|].
    cbn [findVisible]. rewrite (Hall m (list_elem_of_here _ _)).
    cbn [mbind option_bind]. apply IH.
    intros y Hy. apply Hall. by apply list_elem_of_further.
Qed.

Lemma firstVisible_fun (fuel : nat) (t : Tree) (l : list ref)
    (r r' : option ref) :
  firstVisible fuel t l r -> firstVisible fuel t l r' -> r = r'.
Proof.
  intros H H'. apply firstVisible_find in H, H'. congruence.
Qed.

Lemma firstVisible_member (fuel : nat) (t : Tree) (l : list ref) (x : ref) :
  firstVisible fuel t l (Some x) -> x ∈ l /\ visible fuel x t = Some true.
Proof.
  intros (l1 & l2 & -> & Hv & _). split; [|done].
  apply elem_of_app. right. apply list_elem_of_here.
Qed.

(** The walk stops at one node only: a node that is collapsed or has no
    children, or a node none of whose children is visible. *)
Lemma deepestWalk_stop_unique (fuel : nat) (t : Tree) (n x y : ref)
    (xd yd : TreeNode) :
  deepestWalk fuel t n x -> deepestWalk fuel t n y ->
  nodes t !! x = Some xd -> nodes t !! y = Some yd ->
  (hasChildren xd && negb (truthy (collapsed xd)) = false \/
   forall c, c ∈ getChildNodes xd -> visible fuel c t = Some false) ->
  (hasChildren yd && negb (truthy (collapsed yd)) = false \/
   forall c, c ∈ getChildNodes yd -> visible fuel c t = Some false) ->
  y = x.
Proof.
  assert (Stop : forall m md f,
    nodes t !! m = Some md ->
    hasChildren md && negb (truthy (collapsed md)) = true ->
    firstVisible fuel t (reverse (getChildNodes md)) (Some f) ->
    (hasChildren md && negb (truthy (collapsed md)) = false \/
     forall c, c ∈ getChildNodes md -> visible fuel c t = Some false) ->
    False).
  { intros m md f Hm Ho Hf [Hs|Hs]; [congruence|].
    apply firstVisible_member in Hf as [Hin Hv].
    rewrite elem_of_reverse in Hin. rewrite (Hs f Hin) in Hv. done. }
  intros Wx. revert y yd.
  induction Wx as [n|n nd f x Hn Ho Hf Wx IH]; intros y yd Wy Hx Hy Sx Sy.
  - inversion Wy as [|? nd' f' ? Hn' Ho' Hf' Wy']; subst; [done|].
    rewrite Hx in Hn'. injection Hn' as <-.
    destruct (Stop _ _ _ Hx Ho' Hf' Sx).
  - inversion Wy as [|? nd' f' ? Hn' Ho' Hf' Wy']; subst.
    + rewrite Hn in Hy. injection Hy as <-.
      destruct (Stop _ _ _ Hn Ho Hf Sy).
    + rewrite Hn in Hn'. injection Hn' as <-.
      pose proof (firstVisible_fun _ _ _ _ _ Hf Hf') as [= <-].
      by eapply IH.
Qed.

Lemma lastDeepestVisibleChild_end (D fuel : nat) (t : Tree) :
  wfDown D (nodes t) -> (D <= fuel)%nat ->
  forall (fuelk : nat) (m : ref) (md : TreeNode) (anc : list ref),
    nodes t !! m = Some md -> ancestors (nodes t) m anc ->
    (2 * D <= fuelk + length anc)%nat ->
    exists x xd,
      deepestWalk fuel t m x /\ nodes t !! x = Some xd /\
      lastDeepestVisibleChild fuelk m t
      = Some (if hasChildren xd && negb (truthy (collapsed xd)) then TypeError
              else if hasChildren md && negb (truthy (collapsed md))
                   then Returns (Some x)
                   else Returns None) /\
      (hasChildren xd && negb (truthy (collapsed xd)) = true ->
       forall c, c ∈ getChildNodes xd -> visible fuel c t = Some false) /\
      (hasChildren md && negb (truthy (collapsed md)) = false -> x = m) /\
      (hasChildren md && negb (truthy (collapsed md)) = true ->
       hasChildren xd && negb (truthy (collapsed xd)) = false ->
       descendant (nodes t) m x /\ visible fuel x t = Some true).
Proof.
  intros (L & CB) HD.
  assert (Short : forall x xd l, nodes t !! x = Some xd ->
            ancestors (nodes t) x l -> (length l < D)%nat).
  { intros x xd l Hx Hl. destruct (CB x xd Hx) as (l' & Hl' & Hlt).
    by rewrite (ancestors_fun _ _ _ _ Hl Hl'). }
  induction fuelk as [|fuelk IH]; intros m md anc Hm Ha Hsum.
  { pose proof (Short m md anc Hm Ha). lia. }
  pose proof (Short m md anc Hm Ha) as Hshort.
  cbn [lastDeepestVisibleChild]. rewrite Hm. cbn [mbind option_bind].
  destruct (hasChildren md && negb (truthy (collapsed md))) eqn:Hopen.
  2:{ exists m, md. split; [apply deepestWalk_here|]. split; [done|].
      rewrite Hopen. split; [done|]. split; [congruence|]. split; congruence. }
  assert (Kid : forall c, c ∈ getChildNodes md ->
    exists cd, nodes t !! c = Some cd /\ ancestors (nodes t) c (m :: anc) /\
               visible (S fuelk) c t = visible fuel c t).
  { intros c Hc. destruct (child_chain _ m c md anc L Hm Hc Ha) as (cd & Hcd & Hac).
    exists cd. split; [done|]. split; [done|].
    pose proof (Short c cd _ Hcd Hac) as Hs. cbn [length] in Hs.
    eapply visible_fuel_eq; [done|cbn [length]; lia|cbn [length]; lia]. }
  destruct (findVisible_first (S fuelk) t (reverse (getChildNodes md)))
    as (r & Er & Hr).
  { intros c Hc. rewrite elem_of_reverse in Hc.
    destruct (Kid c Hc) as (cd & Hcd & Hac & _).
    eapply visible_total; [done|].
    pose proof (Short c cd _ Hcd Hac) as Hs. cbn [length] in Hs |- *. lia. }
  unfold findLastVisible. rewrite Er. cbn [mbind option_bind].
  assert (Hr' : firstVisible fuel t (reverse (getChildNodes md)) r).
  { destruct r as [f|]; cbn [firstVisible] in *.
    - destruct Hr as (l1 & l2 & Hl & Hvf & Hbefore).
      assert (In : forall c, c ∈ l1 ++ f :: l2 -> c ∈ getChildNodes md).
      { intros c Hc. by rewrite <- Hl, elem_of_reverse in Hc. }
      exists l1, l2. split; [done|]. split.
      + destruct (Kid f) as (_ & _ & _ & <-); [|done].
        apply In, elem_of_app. right. apply list_elem_of_here.
      + intros c Hc. destruct (Kid c) as (_ & _ & _ & <-); [|by apply Hbefore].
        apply In, elem_of_app. by left.
    - intros c Hc. destruct (Kid c) as (_ & _ & _ & <-); [|by apply Hr].
      by rewrite elem_of_reverse in Hc. }
  destruct r as [f|].
  - destruct (firstVisible_member _ _ _ _ Hr') as [Hin Hvf].
    rewrite elem_of_reverse in Hin.
    destruct (Kid f Hin) as (fd & Hfd & Haf & _).
    destruct (IH f fd (m :: anc) Hfd Haf)
      as (x & xd & Wx & Hxd & Eres & Hstop & Hsame & Hbelow);
      [cbn [length]; lia|].
    rewrite Eres. cbn [mbind option_bind].
    assert (Dmf : descendant (nodes t) m f) by (by eapply descendant_child).
    exists x, xd. split; [by eapply deepestWalk_down|]. split; [done|].
    destruct (hasChildren xd && negb (truthy (collapsed xd))) eqn:Hox.
    + split; [done|]. split; [done|]. split; [congruence|]. congruence.
    + split; [|split; [congruence|split; [congruence|]]].
      * destruct (hasChildren fd && negb (truthy (collapsed fd))) eqn:Hof;
          [done|]. by rewrite (Hsame eq_refl).
      * intros _ _.
        destruct (hasChildren fd && negb (truthy (collapsed fd))) eqn:Hof.
        -- destruct (Hbelow eq_refl eq_refl) as [Dfx Hvx].
           split; [by eapply descendant_trans|done].
        -- by rewrite (Hsame eq_refl).
  - exists m, md. split; [apply deepestWalk_here|]. split; [done|].
    rewrite Hopen. split; [done|]. split; [|split; [congruence|congruence]].
    intros _ c Hc. apply Hr'. by rewrite elem_of_reverse.
Qed.

(** [lastDeepestVisibleChild()] always comes to an end, at one node [x]
    of its walk: the walk starts at the node, goes on from a node that
    has children and is not collapsed to the last of its children that
    is visible, and stops at [x], the only node of the walk that is
    collapsed or without children, or has no visible child. The outcome
    is read off [x]: a TypeError when [x] has children and is not
    collapsed (none of its children is visible then), else undefined
    when the node itself is collapsed or without children ([x] is the
    node), else [x], a visible descendant of the node. So the call gives
    undefined exactly for a node that is collapsed or without children,
    and throws exactly when the walk reaches a node that has children,
    is not collapsed, and has no visible child. *)
Theorem lastDeepestVisibleChild_outcome (D fuel : nat) (n : ref) (t : Tree)
    (nd : TreeNode) :
  wfDown D (nodes t) -> (2 * D <= fuel)%nat -> nodes t !! n = Some nd ->
  exists x xd,
    deepestWalk fuel t n x /\ nodes t !! x = Some xd /\
    lastDeepestVisibleChild fuel n t
    = Some (if hasChildren xd && negb (truthy (collapsed xd)) then TypeError
            else if hasChildren nd && negb (truthy (collapsed nd))
                 then Returns (Some x)
                 else Returns None) /\
    (hasChildren xd && negb (truthy (collapsed xd)) = true ->
     forall c, c ∈ getChildNodes xd -> visible fuel c t = Some false) /\
    (hasChildren nd && negb (truthy (collapsed nd)) = false -> x = n) /\
    (hasChildren nd && negb (truthy (collapsed nd)) = true ->
     hasChildren xd && negb (truthy (collapsed xd)) = false ->
     descendant (nodes t) n x /\ visible fuel x t = Some true) /\
    (forall y yd,
       deepestWalk fuel t n y -> nodes t !! y = Some yd ->
       (hasChildren yd && negb (truthy (collapsed yd)) = false \/
        forall c, c ∈ getChildNodes yd -> visible fuel c t = Some false) ->
       y = x).
Proof.
  intros W Hf Hn. destruct (proj2 W n nd Hn) as (anc & Ha & Hl).
  destruct (lastDeepestVisibleChild_end D fuel t W ltac:(lia) fuel n nd anc
              Hn Ha ltac:(lia))
    as (x & xd & Wx & Hxd & E & Hstop & Hsame & Hbelow).
  exists x, xd. do 6 (split; [done|]).
  intros y yd Wy Hy Sy.
  eapply (deepestWalk_stop_unique fuel t n x y xd yd); try done.
  destruct (hasChildren xd && negb (truthy (collapsed xd))) eqn:Hox;
    [right; by apply Hstop|by left].
Qed.

Lemma findIndexById_total (h : gmap ref TreeNode) (i : string) (l : list ref) :
  (forall m, m ∈ l -> is_Some (h !! m)) ->
  exists k, findIndexById h i l = Some k.
Proof.
  induction l as [|m l IH]; intros Hall; [by eexists|].
  destruct (Hall m) as [md Hm]; [apply list_elem_of_here|].
  cbn [findIndexById]. rewrite Hm. cbn [mbind option_bind].
  destruct (decide (id md = i)); [by eexists|].
  destruct IH as (k & ->).
  { intros x Hx. apply Hall. by apply list_elem_of_further. }
  by eexists.
Qed.

Lemma siblings_total (D : nat) (t : Tree) (n : ref) (nd : TreeNode) :
  wfTree D t -> nodes t !! n = Some nd -> exists ctx, siblings nd t = Some ctx.
Proof.
  intros ((_ & CB) & _) Hn. destruct (CB n nd Hn) as (anc & Ha & _).
  unfold siblings.
  inversion Ha as [n' nd' Hn' Hp|n' nd' p l Hn' Hp Hl]; subst;
    rewrite Hn in Hn'; injection Hn' as <-; rewrite Hp; [by eexists|].
  destruct (ancestors_lookup _ _ _ Hl) as [pd ->]. by eexists.
Qed.

Lemma firstVisible_visible (fuel : nat) (t : Tree) (l : list ref) (x : ref) :
  firstVisible fuel t l (Some x) -> x ∈ l /\ visible fuel x t = Some true.
Proof.
  intros (l1 & l2 & -> & Hv & _). split; [|done].
  apply elem_of_app. right. apply list_elem_of_here.
Qed.

Lemma nextVisibleSiblingNode_visible (D fuel : nat) (n : ref) (t : Tree)
    (nd : TreeNode) :
  wfTree D t -> (D <= fuel)%nat -> nodes t !! n = Some nd ->
  exists r, nextVisibleSiblingNode fuel n t = Some r /\
            forall x, r = Some x -> visible fuel x t = Some true.
Proof.
  intros W Hf Hn. destruct (siblings_total D t n nd W Hn) as (ctx & Hs).
  destruct (findIndexById_total (nodes t) (id nd) ctx) as (k & Hk).
  { by eapply siblings_present. }
  destruct (findVisible_first fuel t (drop (Z.to_nat (k + 1)) ctx))
    as (r & Er & Hr).
  { eapply wfTree_visible_total; [done|done|done|].
    intros m Hm. eapply elem_of_sublist; [done|apply sublist_drop]. }
  exists r. unfold nextVisibleSiblingNode. rewrite Hn. cbn [mbind option_bind].
  rewrite Hs. cbn [mbind option_bind]. rewrite Hk. cbn [mbind option_bind].
  split; [done|]. intros x ->. by apply firstVisible_visible in Hr as [_ ?].
Qed.

Lemma nextVisibleAncestralSiblingNode_visible (D fuel : nat) (t : Tree) :
  wfTree D t -> (D <= fuel)%nat ->
  forall (anc : list ref) (fuelk : nat) (n : ref),
    ancestors (nodes t) n anc -> (D + length anc <= fuelk)%nat ->
    exists r, nextVisibleAncestralSiblingNode fuelk n t = Some r /\
              forall x, r = Some x -> visible fuel x t = Some true.
Proof.
  intros W HD anc fuelk n Ha. revert fuelk.
  assert (Conv : forall f x b, (D <= f)%nat -> visible f x t = Some b ->
                   visible fuel x t = Some b).
  { intros f x b Hf Hv.
    assert (Hx : is_Some (nodes t !! x)).
    { destruct f as [|f]; [done|]. rewrite visible_S in Hv.
      by destruct (nodes t !! x). }
    destruct Hx as [xd Hx].
    destruct (proj2 (proj1 W) x xd Hx) as (l & Hl & Hlt).
    rewrite <- Hv. eapply visible_fuel_eq; [done|lia|lia]. }
  induction Ha as [n nd Hn Hp|n nd p l Hn Hp Hl IH]; intros fuelk Hf;
    (destruct fuelk as [|fuelk];
     [destruct W as ((_ & CB) & _); destruct (CB n nd Hn) as (? & ? & ?);
      cbn [length] in Hf; lia|]);
    cbn [nextVisibleAncestralSiblingNode]; rewrite Hn; cbn [mbind option_bind];
    rewrite Hp.
  - by exists None.
  - destruct (ancestors_lookup _ _ _ Hl) as [pd Hpd].
    destruct (nextVisibleSiblingNode_visible D (S fuelk) p t pd W)
      as (r & Er & Hr); [cbn [length] in Hf; lia|done|].
    rewrite Er. cbn [mbind option_bind]. destruct r as [x|].
    + exists (Some x). split; [done|]. intros y [= <-].
      eapply (Conv (S fuelk)); [cbn [length] in Hf; lia|by apply Hr].
    + apply IH. cbn [length] in Hf. lia.
Qed.

(** [nextVisibleNode()] returns a visible node or nothing; the first
    visible child of the node comes before any sibling. *)
Theorem nextVisibleNode_is_visible (D fuel : nat) (n : ref) (t : Tree)
    (nd : TreeNode) :
  wfTree D t -> (2 * D <= fuel)%nat -> nodes t !! n = Some nd ->
  exists r rc,
    nextVisibleNode fuel n t = Some r /\
    (forall x, r = Some x -> visible fuel x t = Some true) /\
    nextVisibleChildNode fuel n t = Some rc /\
    firstVisible fuel t (getChildNodes nd) rc /\
    (forall c, rc = Some c -> r = Some c).
Proof.
  intros W Hf Hn.
  destruct (nextVisibleChildNode_first D fuel n t nd (proj1 W))
    as (rc & Ec & Hc); [lia|done|].
  unfold nextVisibleNode. rewrite Ec. cbn [mbind option_bind].
  destruct rc as [c|].
  { exists (Some c), (Some c). split; [done|]. split; [|done].
    intros x [= <-]. by apply firstVisible_visible in Hc as [_ ?]. }
  destruct (nextVisibleSiblingNode_visible D fuel n t nd W)
    as (rs & Es & Hs); [lia|done|].
  rewrite Es. cbn [mbind option_bind]. destruct rs as [s|].
  { exists (Some s), None. split; [done|]. split; [|done].
    intros x [= <-]. by apply Hs. }
  destruct (proj2 (proj1 W) n nd Hn) as (anc & Ha & Hl).
  destruct (nextVisibleAncestralSiblingNode_visible D fuel t W) with
    (anc := anc) (fuelk := fuel) (n := n) as (r & Er & Hr); [lia|done|lia|].
  exists r, None. by rewrite Er.
Qed.

Lemma visible_parent (fuel : nat) (n p : ref) (anc : list ref) (t : Tree)
    (nd : TreeNode) :
  ancestors (nodes t) n anc -> (length anc < fuel)%nat ->
  nodes t !! n = Some nd -> getParent nd = Some p ->
  visible fuel n t = Some true -> visible fuel p t = Some true.
Proof.
  intros Ha Hf Hn Hp Hv. destruct fuel as [|fuel]; [lia|].
  rewrite visible_S, Hn in Hv. cbn [mbind option_bind] in Hv.
  destruct (truthy (hidden nd) || truthy (removed nd)); [done|].
  rewrite Hp in Hv.
  inversion Ha as [n' nd' Hn' Hp'|n' nd' p' l Hn' Hp' Hl]; subst;
    rewrite Hn in Hn'; injection Hn' as <-; rewrite Hp in Hp'; [done|].
  injection Hp' as <-.
  destruct (nodes t !! p) as [pd|]; [|done]. cbn [mbind option_bind] in Hv.
  destruct (truthy (collapsed pd)); [done|].
  rewrite <- Hv. eapply visible_fuel_eq; [done|cbn [length] in Hf; lia|].
  cbn [length] in Hf. lia.
Qed.

Lemma previousVisibleSiblingNode_visible (D fuel : nat) (n : ref) (t : Tree)
    (nd : TreeNode) :
  wfTree D t -> (D <= fuel)%nat -> nodes t !! n = Some nd ->
  exists r, previousVisibleSiblingNode fuel n t = Some r /\
            forall x, r = Some x ->
              visible fuel x t = Some true /\ is_Some (nodes t !! x).
Proof.
  intros W Hf Hn. destruct (siblings_total D t n nd W Hn) as (ctx & Hs).
  destruct (findIndexById_total (nodes t) (id nd) ctx) as (k & Hk).
  { by eapply siblings_present. }
  assert (Hsub : forall m, m ∈ reverse (sliceTo k ctx) -> m ∈ ctx).
  { intros m Hm. rewrite elem_of_reverse in Hm. unfold sliceTo in Hm.
    destruct (k <? 0); (eapply elem_of_sublist; [done|apply sublist_take]). }
  destruct (findVisible_first fuel t (reverse (sliceTo k ctx)))
    as (r & Er & Hr).
  { eapply wfTree_visible_total; done. }
  exists r. unfold previousVisibleSiblingNode. rewrite Hn.
  cbn [mbind option_bind]. rewrite Hs. cbn [mbind option_bind]. rewrite Hk.
  cbn [mbind option_bind]. split; [done|]. intros x ->.
  apply firstVisible_visible in Hr as [Hin Hv]. split; [done|].
  eapply siblings_present; [done|done|by apply Hsub].
Qed.

(** [previousVisibleNode()] called on a visible node returns a visible
    node when it returns one: the last visible earlier sibling, or the
    node [lastDeepestVisibleChild()] finds below that sibling, or else
    the parent. It returns nothing only for a node without parent. It
    throws a TypeError when the sibling found, or a node reached below
    it, has children, is not collapsed and has no visible child. *)
Theorem previousVisibleNode_is_visible (D fuel : nat) (n : ref) (t : Tree)
    (nd : TreeNode) :
  wfTree D t -> (2 * D <= fuel)%nat -> nodes t !! n = Some nd ->
  visible fuel n t = Some true ->
  exists res,
    previousVisibleNode fuel n t = Some res /\
    (forall x, res = Returns (Some x) -> visible fuel x t = Some true) /\
    (res = Returns None -> getParent nd = None) /\
    (res = TypeError ->
     exists p x xd,
       previousVisibleSiblingNode fuel n t = Some (Some p) /\
       (x = p \/ descendant (nodes t) p x) /\ nodes t !! x = Some xd /\
       hasChildren xd && negb (truthy (collapsed xd)) = true /\
       forall c, c ∈ getChildNodes xd -> visible fuel c t = Some false).
Proof.
  intros W Hf Hn Hv.
  destruct (previousVisibleSiblingNode_visible D fuel n t nd W)
    as (prev & Ep & Hp); [lia|done|].
  unfold previousVisibleNode. rewrite Hn. cbn [mbind option_bind].
  rewrite Ep. cbn [mbind option_bind].
  destruct prev as [p|].
  - destruct (Hp p eq_refl) as (Hvp & [pd Hpd]).
    rewrite Hpd. cbn [mbind option_bind].
    destruct (hasChildren pd && negb (truthy (collapsed pd))) eqn:Hopen.
    + destruct (proj2 (proj1 W) p pd Hpd) as (ancp & Hap & Hlp).
      destruct (lastDeepestVisibleChild_walk D fuel t (proj1 W) ltac:(lia)
                  fuel p pd ancp Hpd Hap ltac:(lia))
        as (res & Er & Hres & _).
      rewrite Er. cbn [mbind option_bind]. destruct res as [[r|]|].
      * exists (Returns (Some r)). split; [done|].
        split; [|split; [done|done]].
        intros x [= <-]. by destruct Hres as (_ & ? & _).
      * congruence.
      * exists TypeError. split; [done|]. split; [done|]. split; [done|].
        intros _. destruct Hres as (x & xd & Hx & Hxd & Ho & Hno).
        by exists p, x, xd.
    + exists (Returns (Some p)). split; [done|].
      split; [|split; [done|done]]. by intros x [= <-].
  - cbn [mbind option_bind]. unfold hasParent.
    destruct (proj2 (proj1 W) n nd Hn) as (anc & Ha & Hl).
    destruct (itree_parent (itree nd)) as [q|] eqn:Hq.
    + exists (Returns (Some q)). split; [by unfold getParent; rewrite Hq|].
      split; [|split; [done|done]].
      intros x [= <-]. eapply visible_parent; [done|lia|done|done|done].
    + exists (Returns None). split; [done|]. by repeat split.
Qed.

(** ** Flags, expansion and loading *)

(** Without checkbox mode [refreshIndeterminateState()] does what
    [state('indeterminate', false)] does and nothing more: the flag of
    the node is cleared, no [selected] flag is written and no other node
    has a flag changed. *)
Theorem refreshIndeterminateState_without_checkboxes (fuel : nat) (n : ref)
    (anc : list ref) (t : Tree) :
  showCheckboxes (config t) = false ->
  ancestors (nodes t) n anc -> (length anc < fuel)%nat ->
  exists t' nd',
    refreshIndeterminateState fuel n t = Some t' /\
    state fuel n "indeterminate" (Some false) t = Some (t', Some false) /\
    quiet (fun m k => m = n /\ k = "indeterminate") t t' /\
    nodes t' !! n = Some nd' /\ getState "indeterminate" nd' = Some false.
Proof.
  intros Hs Ha Hf. destruct fuel as [|fuel]; [lia|].
  destruct (ancestors_lookup _ _ _ Ha) as [nd Hnd].
  destruct (state_quiet (S fuel) n anc "indeterminate" false t Ha Hf)
    as (t1 & nd1 & E & Q & _ & Hn1 & Hv).
  exists t1, nd1. split; [|split; [done|split; [done|split; done]]].
  cbn [refreshIndeterminateState]. rewrite Hnd. cbn [mbind option_bind].
  rewrite E. cbn [mbind option_bind].
  destruct Q as (_ & C & _). by rewrite C, Hs.
Qed.

Lemma applyChanges_events (t : Tree) :
  exists evs, events (applyChanges t) = events t ++ evs.
Proof.
  unfold applyChanges, renderNodes.
  destruct (0 <? batching (dom t)); [exists []; by rewrite app_nil_r|].
  destruct (rendering (dom t)); [exists []; by rewrite app_nil_r|].
  by eexists.
Qed.

Lemma newPromise_pending (t : Tree) :
  promises (set_promises (promises t ++ [Pending]) t) !! length (promises t)
  = Some Pending.
Proof. cbn. by rewrite lookup_app_r, Nat.sub_diag by lia. Qed.

(** [expand()] on a collapsed or hidden node that has children opens it:
    [collapsed] and [hidden] become false, [node.expanded] is emitted,
    the loader is not called and the promise is resolved with the node.
    A second [expand()] then changes no node and emits nothing; its
    promise is resolved with the node at once. *)
Theorem expand_opens_once (fuel : nat) (n : ref) (anc : list ref)
    (t : Tree) (nd : TreeNode) :
  renderFrame renderPass ->
  ancestors (nodes t) n anc -> (length anc < fuel)%nat ->
  nodes t !! n = Some nd -> hasChildren nd = true ->
  truthy (collapsed nd) || truthy (hidden nd) = true ->
  exists t1 nd1,
    expand fuel n t = Some (t1, length (promises t)) /\
    nodes t1 !! n = Some nd1 /\
    collapsed nd1 = Some false /\ hidden nd1 = Some false /\
    promises t1 !! length (promises t) = Some (ResolvedNode n) /\
    loaderCalls t1 = loaderCalls t /\
    EvNode "node.expanded" n ∈ events t1 /\
    exists t2,
      expand fuel n t1 = Some (t2, length (promises t1)) /\
      nodes t2 = nodes t1 /\ events t2 = events t1 /\
      promises t2 !! length (promises t1) = Some (ResolvedNode n).
Proof.
  intros HR H Hf Hn Hkids Hcol.
  assert (Hct : forall x, children x = children nd -> childrenIsTrue x = false).
  { intros x Hx. unfold childrenIsTrue. rewrite Hx.
    unfold hasChildren in Hkids. by destruct (children nd) as [|[]|]. }
  assert (Second : forall t1 nd1, nodes t1 !! n = Some nd1 ->
    collapsed nd1 = Some false -> hidden nd1 = Some false ->
    exists t2,
      expand fuel n t1 = Some (t2, length (promises t1)) /\
      nodes t2 = nodes t1 /\ events t2 = events t1 /\
      promises t2 !! length (promises t1) = Some (ResolvedNode n)).
  { intros t1 nd1 Hn1 Hc1 Hh1. unfold expand, newPromise.
    cbn [nodes set_promises config]. rewrite Hn1. cbn [mbind option_bind].
    rewrite Hc1, Hh1. cbn [truthy orb]. rewrite andb_false_r.
    eexists. split; [done|].
    destruct (settle_nodes (length (promises t1)) (ResolvedNode n)
                (set_promises (promises t1 ++ [Pending]) t1))
      as (Sn & Se & _).
    split; [by rewrite Sn|]. split; [by rewrite Se|].
    apply settle_lookup_self; [apply newPromise_pending|done]. }
  unfold expand at 1, newPromise.
  cbn [nodes set_promises config]. rewrite Hn. cbn [mbind option_bind].
  rewrite Hkids, Hcol. cbn [orb andb].
  set (t0 := set_promises _ t).
  destruct (state_quiet fuel n anc "collapsed" false t0 H Hf)
    as (t1 & nd1 & -> & Q1 & _ & Hn1 & Hc1).
  cbn [mbind option_bind].
  pose proof (kept_ancestors _ _ _ _ _ (proj1 Q1) H) as H1.
  destruct (state_quiet fuel n anc "hidden" false t1 H1 Hf)
    as (t2 & nd2 & -> & Q2 & _ & Hn2 & Hh2).
  cbn [mbind option_bind nodes emit].
  pose proof (kept_ancestors _ _ _ _ _ (proj1 Q2) H1) as H2.
  rewrite Hn2. cbn [mbind option_bind config emit].
  destruct (kept_lookup _ _ _ _ _ (proj1 Q1) Hn) as (nd1' & Hn1' & K1).
  rewrite Hn1 in Hn1'. injection Hn1' as <-.
  destruct (kept_lookup _ _ _ _ _ (proj1 Q2) Hn1) as (nd2' & Hn2' & K2).
  rewrite Hn2 in Hn2'. injection Hn2' as <-.
  rewrite (Hct nd2), andb_false_r
    by (destruct K1 as (_&_&E1&_), K2 as (_&_&E2&_); by rewrite E2, E1).
  set (t3 := emit (EvNode "node.expanded" n) t2).
  destruct (markDirty_quiet fuel n anc t3 H2 Hf) as (t4 & -> & Q4 & _ & Hev4).
  cbn [mbind option_bind].
  pose proof (applyChanges_quiet t4 HR) as Q5.
  destruct (applyChanges_events t4) as (evs & Hev5).
  destruct (kept_lookup _ _ _ _ _ (proj1 Q4) Hn2) as (nd4 & Hn4 & K4).
  destruct (kept_lookup _ _ _ _ _ (proj1 Q5) Hn4) as (nd5 & Hn5 & K5).
  destruct (settle_nodes (length (promises t)) (ResolvedNode n) (applyChanges t4))
    as (Sn & Se & Sl & _).
  assert (Hc5 : collapsed nd5 = Some false).
  { unfold collapsed.
    destruct K2 as (_&_&_&_&K2), K4 as (_&_&_&_&K4), K5 as (_&_&_&_&K5).
    rewrite K5 by (cbv beta; congruence). rewrite K4 by (by intros []).
    rewrite K2 by (intros [_ ?]; done). done. }
  assert (Hh5 : hidden nd5 = Some false).
  { unfold hidden. destruct K4 as (_&_&_&_&K4), K5 as (_&_&_&_&K5).
    rewrite K5 by (cbv beta; congruence). rewrite K4 by (by intros []).
    done. }
  assert (Hps : promises (applyChanges t4) = promises t ++ [Pending]).
  { destruct Q5 as (_&_&_&_&->&_), Q4 as (_&_&_&_&->&_).
    destruct Q2 as (_&_&_&_&P2&_), Q1 as (_&_&_&_&P1&_).
    cbn. by rewrite P2, P1. }
  exists (settle (length (promises t)) (ResolvedNode n) (applyChanges t4)), nd5.
  split; [done|]. split; [by rewrite Sn|]. do 2 (split; [done|]).
  split; [|split; [|split]].
  - apply settle_lookup_self; [|done].
    by rewrite Hps, lookup_app_r, Nat.sub_diag by lia.
  - rewrite Sl. destruct Q5 as (_&_&_&->&_), Q4 as (_&_&_&->&_).
    destruct Q2 as (_&_&_&L2&_), Q1 as (_&_&_&L1&_). cbn. by rewrite L2, L1.
  - rewrite Se, Hev5, Hev4. cbn. apply elem_of_app. left.
    apply elem_of_app. right. apply list_elem_of_here.
  - apply (Second _ nd5); [by rewrite Sn|done|done].
Qed.

(** The guard of [loadChildren()] rejects the promise and goes on: on a
    node that cannot load its children (the tree is not dynamic, or the
    children of the node are not the marker [true]) the promise is
    rejected with the error of the guard, and still the node gets
    [loading] true, is marked dirty and rendered, and the loader of a
    dynamic tree is called. *)
Theorem loadChildren_rejects_and_goes_on (fuel : nat) (n : ref)
    (anc : list ref) (t : Tree) (nd : TreeNode) :
  renderFrame renderPass ->
  ancestors (nodes t) n anc -> (length anc < fuel)%nat ->
  nodes t !! n = Some nd ->
  isDynamic (config t) && childrenIsTrue nd = false ->
  exists t1 nd1,
    loadChildren fuel n t = Some (t1, length (promises t)) /\
    promises t1 !! length (promises t) = Some (Rejected notDynamicError) /\
    nodes t1 !! n = Some nd1 /\ getState "loading" nd1 = Some true /\
    loaderCalls t1
    = (if isDynamic (config t) then loaderCalls t ++ [n] else loaderCalls t).
Proof.
  intros HR H Hf Hn Hguard. unfold loadChildren, newPromise.
  cbn [nodes set_promises config]. rewrite Hn. cbn [mbind option_bind].
  assert (Hg : negb (isDynamic (config t)) || negb (childrenIsTrue nd) = true).
  { destruct (isDynamic (config t)), (childrenIsTrue nd); done. }
  rewrite Hg.
  set (t0 := set_promises _ t).
  set (tr := settle (length (promises t)) (Rejected notDynamicError) t0).
  destruct (settle_nodes (length (promises t)) (Rejected notDynamicError) t0)
    as (Sn & Se & Sl & Sc & _).
  assert (Hpr : promises tr !! length (promises t)
                = Some (Rejected notDynamicError)).
  { apply settle_lookup_self; [apply newPromise_pending|done]. }
  assert (Hr : ancestors (nodes tr) n anc) by (unfold tr; by rewrite Sn).
  destruct (state_quiet fuel n anc "loading" true tr Hr Hf)
    as (t2 & nd2 & -> & Q2 & _ & Hn2 & Hl2).
  cbn [mbind option_bind].
  pose proof (kept_ancestors _ _ _ _ _ (proj1 Q2) Hr) as H2.
  destruct (markDirty_quiet fuel n anc t2 H2 Hf) as (t3 & -> & Q3 & _ & _).
  cbn [mbind option_bind].
  pose proof (applyChanges_quiet t3 HR) as Q4.
  destruct (kept_lookup _ _ _ _ _ (proj1 Q3) Hn2) as (nd3 & Hn3 & K3).
  destruct (kept_lookup _ _ _ _ _ (proj1 Q4) Hn3) as (nd4 & Hn4 & K4).
  assert (Hps : promises (applyChanges t3) = promises tr).
  { destruct Q4 as (_&_&_&_&->&_), Q3 as (_&_&_&_&->&_).
    by destruct Q2 as (_&_&_&_&->&_). }
  assert (Hcf : config (applyChanges t3) = config t).
  { destruct Q4 as (_&->&_), Q3 as (_&->&_). destruct Q2 as (_&->&_).
    unfold tr. by rewrite Sc. }
  assert (Hlc : loaderCalls (applyChanges t3) = loaderCalls t).
  { destruct Q4 as (_&_&_&->&_), Q3 as (_&_&_&->&_).
    destruct Q2 as (_&_&_&->&_). unfold tr. by rewrite Sl. }
  assert (Hl4 : getState "loading" nd4 = Some true).
  { destruct K3 as (_&_&_&_&K3), K4 as (_&_&_&_&K4).
    rewrite K4 by (cbv beta; congruence). rewrite K3 by (by intros []).
    done. }
  rewrite Hcf.
  destruct (isDynamic (config t)).
  - exists (callLoader n (applyChanges t3)), nd4. split; [done|].
    cbn [promises nodes loaderCalls callLoader]. rewrite Hps, Hlc. done.
  - exists (applyChanges t3), nd4. split; [done|]. by rewrite Hps.
Qed.

(** ** Insertion of new nodes, and removal *)

Lemma insertAt_fresh (api : TreeMethods) (fuel D : nat) (c : Collection)
    (index : nat) (object : NodeData) (t : Tree) (lc : list ref) :
  renderFrame renderPass ->
  wfTree D t -> collNodes c t = Some lc ->
  (D + dataSize object < fuel)%nat ->
  (d_id object = "" \/
   forall m md, within (nodes t) lc m -> nodes t !! m = Some md ->
     id md <> d_id object) ->
  exists t' r rd,
    insertAt api fuel c index object t = Some (t', r) /\
    wfTree (D + dataSize object) t' /\ grows t t' /\
    nodes t' !! r = Some rd /\ (d_id object <> "" -> id rd = d_id object) /\
    nodes t !! r = None /\
    collNodes c t' = Some (take index lc ++ r :: drop index lc) /\
    getParent rd = match c with CKids q => Some q | CRoot => None end /\
    text rd = d_text object /\
    exists t5, t' = applyChanges t5 /\ isDirty (nodes t5) r = true.
Proof.
  intros Hrf W Hc Hf Habs. destruct fuel as [|fuel']; [lia|].
  assert (Hlook : (if decide (d_id object = "") then Some None
                   else node (S fuel') c (d_id object) t) = Some None).
  { destruct (decide (d_id object = "")) as [|Hne]; [done|].
    destruct Habs as [|Habs]; [done|].
    destruct (node_finds D (S fuel') c (d_id object) t lc W Hc)
      as (r0 & En & Hspec); [lia|].
    rewrite En. destruct r0 as [e|]; [|done].
    destruct Hspec as (Hw & ed & Hed & Hid). by destruct (Habs e ed). }
  destruct (insertAt_new api fuel' D c index object t lc Hrf W Hc)
    as (t' & r & rd & E & W' & G & _ & Hr & Hid & Hnew & Hcoll & Hp & Htx & Hd
        & _);
    [lia|done|].
  exists t', r, rd. by repeat (split; [done|]).
Qed.

Lemma lookup_splice {A : Type} (l : list A) (i : nat) (x : A) :
  (take i l ++ x :: drop i l) !! (i `min` length l)%nat = Some x.
Proof.
  rewrite lookup_app_r by (rewrite length_take; lia).
  rewrite length_take. by rewrite Nat.sub_diag.
Qed.

(** [insertAt(index, data)] with data that has no id, or an id that no
    node in or below the collection has, inserts: the node returned is a
    new object with the text (and the id, if any) of the data; the
    collection holds it at position [min(index, length)] between the
    nodes it held, which keep their order; its parent is the node that
    holds the collection (none for the root collection); it is dirty
    when the render pass starts, and the nodes of the tree keep their id,
    text and parent. *)
Theorem insertAt_inserts_new_node (api : TreeMethods) (fuel D : nat)
    (c : Collection) (index : nat) (object : NodeData) (t : Tree)
    (lc : list ref) :
  renderFrame renderPass ->
  wfTree D t -> collNodes c t = Some lc ->
  (D + dataSize object < fuel)%nat ->
  (d_id object = "" \/
   forall m md, within (nodes t) lc m -> nodes t !! m = Some md ->
     id md <> d_id object) ->
  exists t' r rd,
    insertAt api fuel c index object t = Some (t', r) /\
    nodes t !! r = None /\ nodes t' !! r = Some rd /\
    collNodes c t' = Some (take index lc ++ r :: drop index lc) /\
    (take index lc ++ r :: drop index lc) !! (index `min` length lc)%nat
      = Some r /\
    text rd = d_text object /\ (d_id object <> "" -> id rd = d_id object) /\
    getParent rd = match c with CKids q => Some q | CRoot => None end /\
    (exists t5, t' = applyChanges t5 /\ isDirty (nodes t5) r = true) /\
    grows t t'.
Proof.
  intros Hrf W Hc Hf Habs.
  destruct (insertAt_fresh api fuel D c index object t lc Hrf W Hc Hf Habs)
    as (t' & r & rd & E & _ & G & Hr & Hid & Hnew & Hcoll & Hp & Htx & Hd).
  exists t', r, rd. do 4 (split; [done|]).
  split; [apply lookup_splice|]. by repeat (split; [done|]).
Qed.

(** [addNode(data)] in a tree without a sort function appends: for data
    that has no id, or an id that no node in or below the collection
    has, the collection afterwards is the former collection followed by
    the new node. *)
Theorem addNode_appends (api : TreeMethods) (fuel D : nat) (c : Collection)
    (object : NodeData) (t : Tree) (lc : list ref) :
  renderFrame renderPass ->
  wfTree D t -> collNodes c t = Some lc ->
  (D + dataSize object < fuel)%nat -> sort (config t) = None ->
  (d_id object = "" \/
   forall m md, within (nodes t) lc m -> nodes t !! m = Some md ->
     id md <> d_id object) ->
  exists t' r rd,
    addNode api fuel c object t = Some (t', r) /\
    nodes t !! r = None /\ nodes t' !! r = Some rd /\
    text rd = d_text object /\
    collNodes c t' = Some (lc ++ [r]).
Proof.
  intros Hrf W Hc Hf Hsort Habs.
  destruct (insertAt_fresh api fuel D c (length lc) object t lc Hrf W Hc Hf Habs)
    as (t' & r & rd & E & _ & G & Hr & Hid & Hnew & Hcoll & Hp & Htx & Hd).
  exists t', r, rd. unfold addNode, addNodeIndex. rewrite Hc.
  cbn [mbind option_bind]. rewrite Hsort. cbn [mbind option_bind].
  split; [done|]. do 3 (split; [done|]).
  by rewrite Hcoll, take_ge, drop_ge by lia.
Qed.


Lemma removeById_total (h : gmap ref TreeNode) (i : string) (l : list ref) :
  (forall m, m ∈ l -> is_Some (h !! m)) ->
  exists l', removeById h i l = Some l'.
Proof.
  induction l as [|m l IH]; intros Hall; [by eexists|].
  destruct (Hall m) as [md Hm]; [apply list_elem_of_here|].
  destruct IH as (l' & Hl').
  { intros x Hx. apply Hall. by apply list_elem_of_further. }
  cbn [removeById]. rewrite Hm. cbn [mbind option_bind]. rewrite Hl'.
  by eexists.
Qed.

Lemma removeById_spec (h : gmap ref TreeNode) (i : string) (l l' : list ref) :
  removeById h i l = Some l' ->
  sublist l' l /\
  forall m, m ∈ l' <-> (m ∈ l /\ exists md, h !! m = Some md /\ id md <> i).
Proof.
  revert l'. induction l as [|x l IH]; intros l' Hr.
  - injection Hr as <-. split; [done|]. intros m. split.
    + intros Hm. by apply not_elem_of_nil in Hm.
    + intros [Hm _]. done.
  - cbn [removeById] in Hr. destruct (h !! x) as [xd|] eqn:Hx; [|done].
    cbn [mbind option_bind] in Hr.
    destruct (removeById h i l) as [r'|]; [|done].
    cbn [mbind option_bind] in Hr. injection Hr as <-.
    destruct (IH r' eq_refl) as (Hs & Hiff).
    destruct (decide (id xd = i)) as [Hid|Hid].
    + split; [by apply sublist_cons|]. intros m. rewrite Hiff. split.
      * intros [Hm Hd]. split; [by apply list_elem_of_further|done].
      * intros [Hm (md & Hmd & Hne)]. split; [|by exists md].
        apply elem_of_cons in Hm as [->|Hm]; [|done]. congruence.
    + split; [by apply sublist_skip|]. intros m. rewrite !elem_of_cons, Hiff.
      split.
      * intros [->|[Hm Hd]]; [split; [by left|by exists xd]|].
        split; [by right|done].
      * intros [[->|Hm] Hd]; [by left|right; by split].
Qed.

Lemma removeById_other (h : gmap ref TreeNode) (i : string) (l : list ref) :
  (forall m, m ∈ l -> exists md, h !! m = Some md /\ id md <> i) ->
  removeById h i l = Some l.
Proof.
  induction l as [|m l IH]; intros Hall; [done|].
  destruct (Hall m) as (md & Hm & Hid); [apply list_elem_of_here|].
  cbn [removeById]. rewrite Hm. cbn [mbind option_bind].
  rewrite IH by (intros x Hx; apply Hall; by apply list_elem_of_further).
  cbn [mbind option_bind]. by rewrite decide_False.
Qed.

Lemma removeById_splice (h : gmap ref TreeNode) (i : string)
    (l1 l2 : list ref) (r : ref) (rd : TreeNode) :
  (forall m, m ∈ l1 ++ l2 -> exists md, h !! m = Some md /\ id md <> i) ->
  h !! r = Some rd -> id rd = i ->
  removeById h i (l1 ++ r :: l2) = Some (l1 ++ l2).
Proof.
  intros Hall Hr Hid. induction l1 as [|m l1 IH].
  - cbn [app removeById]. rewrite Hr. cbn [mbind option_bind].
    rewrite removeById_other by done. cbn [mbind option_bind].
    by rewrite decide_True.
  - destruct (Hall m) as (md & Hm & Hne); [apply list_elem_of_here|].
    cbn [app removeById]. rewrite Hm. cbn [mbind option_bind].
    rewrite IH by (intros x Hx; apply Hall; by apply list_elem_of_further).
    cbn [mbind option_bind]. by rewrite decide_False.
Qed.

Lemma remove_takes (fuel D : nat) (n : ref) (t : Tree) (nd : TreeNode)
    (ctx : list ref) :
  renderFrame renderPass ->
  wfTree D t -> (D <= fuel)%nat -> nodes t !! n = Some nd ->
  context nd t = Some ctx ->
  exists t' ctx' nd',
    remove fuel n t = Some t' /\
    removeById (nodes t) (id nd) ctx = Some ctx' /\
    nodes t' !! n = Some nd' /\ id nd' = id nd /\ text nd' = text nd /\
    getParent nd' = getParent nd /\ children nd' = children nd /\
    match getParent nd with
    | None => model t' = ctx'
    | Some p =>
      model t' = model t /\
      exists pd pd', nodes t !! p = Some pd /\ nodes t' !! p = Some pd' /\
        getChildNodes pd' = ctx' /\
        forall l, children pd = ChNodes l -> children pd' = ChNodes ctx'
    end.
Proof.
  intros Hrf W Hf Hn Hctx. pose proof W as ((L & CB) & Mp).
  unfold remove. rewrite Hn. cbn [mbind option_bind].
  unfold context in Hctx.
  destruct (getParent nd) as [p|] eqn:Hp.
  - destruct (nodes t !! p) as [pd|] eqn:Hpd; [|done].
    cbn [mbind option_bind] in Hctx |- *. injection Hctx as <-.
    destruct (CB p pd Hpd) as (ancp & Hap & Hlp).
    assert (Hnp : n <> p).
    { intros ->. destruct (CB p nd Hn) as (l & Hl & _).
      inversion Hl as [? ? Hn' Hp'|? ? p' l' Hn' Hp' Hl']; subst;
        rewrite Hn in Hn'; injection Hn' as <-; rewrite Hp in Hp'; [done|].
      injection Hp' as <-.
      apply (ancestors_not_elem _ _ _ Hl), list_elem_of_here. }
    assert (Fin : forall t1 pd1 l1,
      linkedDown (nodes t1) -> ancestors (nodes t1) p ancp ->
      nodes t1 !! n = Some nd -> nodes t1 !! p = Some pd1 ->
      model t1 = model t -> getChildNodes pd1 = l1 ->
      (forall l, children pd = ChNodes l -> children pd1 = ChNodes l1) ->
      exists t' nd',
        (t2 ← refreshIndeterminateState fuel p t1;
         Some (applyChanges (emit (EvNode "node.removed" n) t2))) = Some t' /\
        nodes t' !! n = Some nd' /\ id nd' = id nd /\ text nd' = text nd /\
        getParent nd' = Some p /\ children nd' = children nd /\
        model t' = model t /\
        exists pd', nodes t' !! p = Some pd' /\ getChildNodes pd' = l1 /\
          forall l, children pd = ChNodes l -> children pd' = ChNodes l1).
    { intros t1 pd1 l1 L1 Ha1 Hn1 Hp1 Hm1 Hk1 Hc1.
      destruct (refresh_calm fuel p ancp t1 L1 Ha1) as (t2 & E2 & C2); [lia|].
      rewrite E2. cbn [mbind option_bind].
      assert (C : calm t1 (applyChanges (emit (EvNode "node.removed" n) t2))).
      { eapply calm_trans; [exact C2|].
        eapply calm_trans; [apply emit_calm|by apply applyChanges_calm]. }
      destruct (calm_lookup _ _ n nd C Hn1) as (nd' & Hn' & I & T & Ch & P & _).
      destruct (calm_lookup _ _ p pd1 C Hp1) as (pd' & Hp' & _ & _ & Chp & _).
      exists (applyChanges (emit (EvNode "node.removed" n) t2)), nd'.
      split; [done|]. split; [done|].
      do 2 (split; [done|]). split; [congruence|]. split; [done|].
      split; [destruct C as (_ & _ & ->); done|].
      exists pd'. split; [done|]. split.
      - unfold getChildNodes in *. by rewrite Chp.
      - intros l Hl. rewrite Chp. exact (Hc1 l Hl). }
    destruct (children pd) as [| |l] eqn:Hch.
    + destruct (Fin t pd []) as (t' & nd' & E & H1 & H2 & H3 & H4 & H5 & H6 & H7);
        try done.
      { unfold getChildNodes. by rewrite Hch. }
      exists t', [], nd'. unfold getChildNodes at 1. rewrite Hch.
      split; [done|]. split; [done|]. do 4 (split; [done|]).
      split; [done|]. split; [done|]. destruct H7 as (pd' & D1 & D2 & D3).
      exists pd, pd'. do 3 (split; [done|]).
      intros l Hl. rewrite Hch in Hl. exact (D3 l Hl).
    + destruct (Fin t pd []) as (t' & nd' & E & H1 & H2 & H3 & H4 & H5 & H6 & H7);
        try done.
      { unfold getChildNodes. by rewrite Hch. }
      exists t', [], nd'. unfold getChildNodes at 1. rewrite Hch.
      split; [done|]. split; [done|]. do 4 (split; [done|]).
      split; [done|]. split; [done|]. destruct H7 as (pd' & D1 & D2 & D3).
      exists pd, pd'. do 3 (split; [done|]).
      intros l Hl. rewrite Hch in Hl. exact (D3 l Hl).
    + assert (Hk : getChildNodes pd = l) by (unfold getChildNodes; by rewrite Hch).
      destruct (removeById_total (nodes t) (id nd) l) as (l' & Hl').
      { intros m Hm. rewrite <- Hk in Hm.
        destruct (L p pd m Hpd Hm) as (md & -> & _). done. }
      rewrite Hl'. cbn [mbind option_bind].
      destruct (removeById_spec _ _ _ _ Hl') as (Hsub & Hiff).
      destruct (Fin (set_nodes (<[p := set_children (ChNodes l') pd]> (nodes t)) t)
                  (set_children (ChNodes l') pd) l')
        as (t' & nd' & E & H1 & H2 & H3 & H4 & H5 & H6 & H7); try done.
      { apply linkedDown_set_children; [done|done|].
        intros k Hk'. eapply L; [done|]. rewrite Hk.
        by eapply elem_of_sublist. }
      { by apply ancestors_set_children. }
      { cbn [nodes set_nodes]. by rewrite lookup_insert_ne. }
      { cbn [nodes set_nodes]. apply lookup_insert_eq. }
      exists t', l', nd'. rewrite Hk. split; [done|]. split; [done|].
      do 4 (split; [done|]). split; [done|]. split; [done|].
      destruct H7 as (pd' & D1 & D2 & D3).
      exists pd, pd'. do 3 (split; [done|]).
      intros l0 Hl. rewrite Hch in Hl. exact (D3 l0 Hl).
  - injection Hctx as <-.
    destruct (removeById_total (nodes t) (id nd) (model t)) as (l' & Hl');
      [done|].
    rewrite Hl'. cbn [mbind option_bind].
    assert (C : calm (set_model l' t)
                  (applyChanges (emit (EvNode "node.removed" n) (set_model l' t)))).
    { eapply calm_trans; [apply emit_calm|by apply applyChanges_calm]. }
    destruct (calm_lookup _ _ n nd C Hn) as (nd' & Hn' & I & T & Ch & P & _).
    exists (applyChanges (emit (EvNode "node.removed" n) (set_model l' t))),
      l', nd'.
    split; [done|]. split; [done|]. split; [done|].
    do 2 (split; [done|]). split; [congruence|]. split; [done|].
    by destruct C as (_ & _ & ->).
Qed.

(** [remove()] takes the node out of its context (the children of its
    parent, or the root collection), together with every node of the
    context that has the same id; the other nodes of the context stay,
    in order. The node itself keeps its parent link. *)
Theorem remove_takes_node_out (fuel D : nat) (n : ref) (t : Tree)
    (nd : TreeNode) (ctx : list ref) :
  renderFrame renderPass ->
  wfTree D t -> (D <= fuel)%nat -> nodes t !! n = Some nd ->
  context nd t = Some ctx ->
  exists t' ctx' nd',
    remove fuel n t = Some t' /\
    nodes t' !! n = Some nd' /\ getParent nd' = getParent nd /\
    context nd' t' = Some ctx' /\ sublist ctx' ctx /\
    (forall m, m ∈ ctx' <->
       (m ∈ ctx /\ exists md, nodes t !! m = Some md /\ id md <> id nd)) /\
    n ∉ ctx'.
Proof.
  intros Hrf W Hf Hn Hctx.
  destruct (remove_takes fuel D n t nd ctx Hrf W Hf Hn Hctx)
    as (t' & ctx' & nd' & E & Hr & Hn' & _ & _ & Hp & _ & Hc).
  destruct (removeById_spec _ _ _ _ Hr) as (Hsub & Hiff).
  exists t', ctx', nd'. do 3 (split; [done|]). split; [|split; [done|split; [done|]]].
  - unfold context. rewrite Hp. destruct (getParent nd) as [p|].
    + destruct Hc as (_ & pd & pd' & _ & -> & <- & _). done.
    + by rewrite Hc.
  - intros Hin. apply Hiff in Hin as (_ & md & Hmd & Hne).
    rewrite Hn in Hmd. by injection Hmd as <-.
Qed.

(** [remove()] undoes [insertAt]: after data with an id that no node in
    or below the collection has is inserted, removing the node returned
    leaves the collection with exactly the nodes it held before, in
    order. *)
Theorem remove_undoes_insertAt (api : TreeMethods) (fuel D : nat)
    (c : Collection) (index : nat) (object : NodeData) (t : Tree)
    (lc : list ref) :
  renderFrame renderPass ->
  wfTree D t -> collNodes c t = Some lc ->
  (D + dataSize object < fuel)%nat ->
  d_id object <> "" ->
  (forall m md, within (nodes t) lc m -> nodes t !! m = Some md ->
     id md <> d_id object) ->
  exists t' r t'',
    insertAt api fuel c index object t = Some (t', r) /\
    collNodes c t' = Some (take index lc ++ r :: drop index lc) /\
    remove fuel r t' = Some t'' /\
    collNodes c t'' = Some lc.
Proof.
  intros Hrf W Hc Hf Hne Habs.
  destruct (insertAt_fresh api fuel D c index object t lc Hrf W Hc)
    as (t' & r & rd & E & W' & G & Hr & Hid & Hnew & Hcoll & Hp & Htx & Hd);
    [lia|by right|].
  assert (Hctx : context rd t' = Some (take index lc ++ r :: drop index lc)).
  { unfold context. rewrite Hp. destruct c as [|q]; cbn [collNodes] in Hcoll.
    - done.
    - destruct (nodes t' !! q) as [qd|]; [|done]. cbn [mbind option_bind] in *.
      unfold getChildNodes. by destruct (children qd); simplify_eq. }
  destruct (remove_takes fuel (D + dataSize object)%nat r t' rd
              (take index lc ++ r :: drop index lc) Hrf W')
    as (t'' & ctx' & rd' & E2 & Hrem & _ & _ & _ & _ & _ & Hcase);
    [lia|done|done|].
  rewrite (Hid Hne) in Hrem.
  rewrite removeById_splice with (rd := rd) in Hrem; [|  |done|by apply Hid].
  2: { intros m Hm. rewrite take_drop in Hm.
       destruct (collNodes_present D c t lc W Hc m Hm) as [md Hmd].
       destruct (proj1 G m md Hmd) as (md' & Hmd' & I & _).
       exists md'. split; [done|]. rewrite I. apply (Habs m md); [by left|done]. }
  rewrite take_drop in Hrem. injection Hrem as <-.
  exists t', r, t''. do 3 (split; [done|]).
  rewrite Hp in Hcase. destruct c as [|q]; cbn [collNodes] in *.
  - by rewrite Hcase.
  - destruct Hcase as (_ & qd & qd' & Hq & Hq' & _ & Hch).
    rewrite Hq in Hcoll. cbn [mbind option_bind] in Hcoll.
    rewrite Hq'. cbn [mbind option_bind].
    destruct (children qd) as [| |l] eqn:Hcq; try done.
    by rewrite (Hch l eq_refl).
Qed.

(** ** Queries over a collection *)

(** [node(id)] returns a node that has the id and sits in the
    collection or below one of its nodes; it returns nothing exactly
    when no such node has the id. *)
Theorem node_finds_iff_present (D fuel : nat) (c : Collection) (i : string)
    (t : Tree) (l : list ref) :
  wfTree D t -> collNodes c t = Some l -> (D <= fuel)%nat ->
  exists r,
    node fuel c i t = Some r /\
    match r with
    | Some e => within (nodes t) l e /\
                exists ed, nodes t !! e = Some ed /\ id ed = i
    | None => forall m md, within (nodes t) l m -> nodes t !! m = Some md ->
                id md <> i
    end.
Proof. apply node_finds. Qed.

Lemma recurseDown_collect (P : TreeNode -> bool) (t : Tree) :
  linkedDown (nodes t) ->
  forall (d fuel : nat) (c : ref) (acc : list ref),
    depthLe (nodes t) c d -> (d <= fuel)%nat ->
    exists out,
      recurseDown fst fuel (collectStep P) c (t, acc) = Some (t, acc ++ out) /\
      forall m, m ∈ out <->
        ((m = c \/ descendant (nodes t) c m) /\
         exists md, nodes t !! m = Some md /\ P md = true).
Proof.
  intros L. induction d as [|d IH]; intros fuel c acc D Hf; [inversion D|].
  inversion D as [c' nd d' Hc Hkids]; subst.
  destruct fuel as [|fuel]; [lia|]. cbn [recurseDown].
  assert (Est : collectStep P c (t, acc)
                = Some (t, if P nd then acc ++ [c] else acc)).
  { unfold collectStep. cbn [fst snd]. by rewrite Hc. }
  rewrite Est. cbn [mbind option_bind fst]. rewrite Hc. cbn [mbind option_bind].
  set (own := if P nd then [c] else []).
  assert (Eown : (if P nd then acc ++ [c] else acc) = acc ++ own).
  { unfold own. destruct (P nd); [done|by rewrite app_nil_r]. }
  rewrite Eown.
  assert (Hown : forall m, m ∈ own <->
            (m = c /\ exists md, nodes t !! m = Some md /\ P md = true)).
  { intros m. unfold own. destruct (P nd) eqn:HP.
    - rewrite list_elem_of_singleton. split.
      + intros ->. split; [done|]. by exists nd.
      + by intros [-> _].
    - split; [intros Hm; by apply not_elem_of_nil in Hm|].
      intros [-> (md & Hmd & HPm)]. congruence. }
  assert (Kids : forall l acc0, (forall k, k ∈ l -> k ∈ getChildNodes nd) ->
    exists out,
      forEach (recurseDown fst fuel (collectStep P)) l (t, acc0)
        = Some (t, acc0 ++ out) /\
      forall m, m ∈ out <->
        ((exists k, k ∈ l /\ (m = k \/ descendant (nodes t) k m)) /\
         exists md, nodes t !! m = Some md /\ P md = true)).
  { induction l as [|k l IHl]; intros acc0 Hsub.
    - exists []. rewrite app_nil_r. split; [done|]. intros m. split.
      + intros Hm. by apply not_elem_of_nil in Hm.
      + intros [(k & Hk & _) _]. by apply not_elem_of_nil in Hk.
    - destruct (IH fuel k acc0) as (o1 & E1 & H1).
      { apply Hkids, Hsub, list_elem_of_here. }
      { lia. }
      destruct (IHl (acc0 ++ o1)) as (o2 & E2 & H2).
      { intros x Hx. apply Hsub. by apply list_elem_of_further. }
      exists (o1 ++ o2). cbn [forEach]. rewrite E1. cbn [mbind option_bind].
      rewrite E2, app_assoc. split; [done|].
      intros m. rewrite elem_of_app, H1, H2. split.
      + intros [[Hm HP]|[(x & Hx & Hm) HP]].
        * split; [|done]. exists k. split; [apply list_elem_of_here|done].
        * split; [|done]. exists x. split; [by apply list_elem_of_further|done].
      + intros [(x & Hx & Hm) HP].
        apply elem_of_cons in Hx as [->|Hx]; [by left|].
        right. split; [by exists x|done]. }
  assert (Via : forall m,
    (exists k, k ∈ getChildNodes nd /\ (m = k \/ descendant (nodes t) k m))
    <-> descendant (nodes t) c m).
  { intros m. split.
    - intros (k & Hk & [->|Hd]); [by eapply descendant_child|].
      eapply descendant_trans; [by eapply descendant_child|done].
    - intros Hd. destruct (descendant_via_child _ _ _ _ Hc Hd) as (j & Hj & Hr).
      exists j. split; [done|]. destruct Hr as [->|Hr]; [by left|by right]. }
  destruct (hasChildren nd) eqn:Ehc.
  - destruct (Kids (getChildNodes nd) (acc ++ own)) as (o & E & Ho); [done|].
    exists (own ++ o). rewrite E, app_assoc. split; [done|].
    intros m. rewrite elem_of_app, Hown, Ho, Via. split.
    + intros [[-> HP]|[Hd HP]]; (split; [|done]); [by left|by right].
    + intros [[->|Hd] HP]; [by left|by right].
  - exists own. split; [done|]. intros m. rewrite Hown. split.
    + intros [-> HP]. split; [by left|done].
    + intros [[->|Hd] HP]; [done|].
      apply Via in Hd as (k & Hk & _).
      unfold hasChildren, getChildNodes in *.
      destruct (children nd) as [| |[|]]; try done;
        by apply not_elem_of_nil in Hk.
Qed.

Lemma recurseDownNodes_collect (P : TreeNode -> bool) (D fuel : nat)
    (t : Tree) (l : list ref) :
  wfDown D (nodes t) -> (D <= fuel)%nat ->
  (forall m, m ∈ l -> is_Some (nodes t !! m)) ->
  exists out,
    recurseDownNodes fst fuel (collectStep P) l (t, []) = Some (t, out) /\
    forall m, m ∈ out <->
      (within (nodes t) l m /\
       exists md, nodes t !! m = Some md /\ P md = true).
Proof.
  intros W Hf Hpres. unfold recurseDownNodes.
  assert (G : forall l0 acc, (forall k, k ∈ l0 -> is_Some (nodes t !! k)) ->
    exists out,
      forEach (recurseDown fst fuel (collectStep P)) l0 (t, acc)
        = Some (t, acc ++ out) /\
      forall m, m ∈ out <->
        (within (nodes t) l0 m /\
         exists md, nodes t !! m = Some md /\ P md = true)).
  { induction l0 as [|k l0 IHl]; intros acc Hp.
    - exists []. rewrite app_nil_r. split; [done|]. intros m. split.
      + intros Hm. by apply not_elem_of_nil in Hm.
      + intros [[Hm|(k & Hk & _)] _]; by apply not_elem_of_nil in Hm || 
          by apply not_elem_of_nil in Hk.
    - destruct (Hp k) as [kd Hkd]; [apply list_elem_of_here|].
      destruct (recurseDown_collect P t (proj1 W) D fuel k acc)
        as (o1 & E1 & H1); [by eapply wfDown_depthLe|done|].
      destruct (IHl (acc ++ o1)) as (o2 & E2 & H2).
      { intros x Hx. apply Hp. by apply list_elem_of_further. }
      exists (o1 ++ o2). cbn [forEach]. rewrite E1. cbn [mbind option_bind].
      rewrite E2, app_assoc. split; [done|].
      intros m. rewrite elem_of_app, H1, H2. unfold within. split.
      + intros [[[->|Hd] HP]|[[Hm|(x & Hx & Hd)] HP]]; (split; [|done]).
        * left. apply list_elem_of_here.
        * right. exists k. split; [apply list_elem_of_here|done].
        * left. by apply list_elem_of_further.
        * right. exists x. split; [by apply list_elem_of_further|done].
      + intros [[Hm|(x & Hx & Hd)] HP].
        * apply elem_of_cons in Hm as [->|Hm]; [left|right];
            (split; [|done]); [by left|by left].
        * apply elem_of_cons in Hx as [->|Hx]; [left|right];
            (split; [|done]); [by right|right; by exists x]. }
  destruct (G l [] Hpres) as (out & E & Ho). exists out. by rewrite E.
Qed.

(** [deepest()] returns the nodes of the collection and below whose
    children are undefined or [false], each once per place it is reached.
    A node whose children are an empty collection is not among them,
    although it has no children: an empty collection is not falsy. *)
Theorem deepest_members (D fuel : nat) (t : Tree) (l : list ref) :
  wfDown D (nodes t) -> (D <= fuel)%nat ->
  (forall m, m ∈ l -> is_Some (nodes t !! m)) ->
  exists out,
    deepest fuel l t = Some out /\
    (forall m, m ∈ out <->
       (within (nodes t) l m /\
        exists md, nodes t !! m = Some md /\ childrenFalsy md = true)) /\
    (forall m md, nodes t !! m = Some md -> children md = ChNodes [] ->
       m ∉ out).
Proof.
  intros W Hf Hp.
  destruct (recurseDownNodes_collect childrenFalsy D fuel t l W Hf Hp)
    as (out & E & Ho).
  exists out. unfold deepest.
  change (fun m (s : Tree * list ref) =>
            md ← nodes s.1 !! m;
            Some (s.1, if childrenFalsy md then s.2 ++ [m] else s.2))
    with (collectStep childrenFalsy).
  rewrite E. split; [done|]. split; [done|].
  intros m md Hm Hc Hin. apply Ho in Hin as (_ & md' & Hm' & Hf').
  rewrite Hm in Hm'. injection Hm' as <-.
  unfold childrenFalsy in Hf'. by rewrite Hc in Hf'.
Qed.

(** [nodes(refs)] returns the nodes of the collection and below whose
    id is one of [refs], and no other node. *)
Theorem nodes_refs_members (D fuel : nat) (refs : list string) (t : Tree)
    (l : list ref) :
  wfDown D (nodes t) -> (D <= fuel)%nat ->
  (forall m, m ∈ l -> is_Some (nodes t !! m)) ->
  exists out,
    nodes_refs fuel refs l t = Some out /\
    forall m, m ∈ out <->
      (within (nodes t) l m /\
       exists md, nodes t !! m = Some md /\ id md ∈ refs).
Proof.
  intros W Hf Hp.
  destruct (recurseDownNodes_collect (fun md => bool_decide (id md ∈ refs))
              D fuel t l W Hf Hp) as (out & E & Ho).
  exists out. unfold nodes_refs.
  change (fun m (s : Tree * list ref) =>
            md ← nodes s.1 !! m;
            Some (s.1, if bool_decide (id md ∈ refs) then s.2 ++ [m] else s.2))
    with (collectStep (fun md => bool_decide (id md ∈ refs))).
  rewrite E. split; [done|]. intros m. rewrite Ho. split.
  - intros [Hw (md & Hm & Hb)]. split; [done|]. exists md. split; [done|].
    by apply bool_decide_eq_true in Hb.
  - intros [Hw (md & Hm & Hb)]. split; [done|]. exists md. split; [done|].
    by apply bool_decide_eq_true.
Qed.

(** ** Root properties *)

(** [set(property, value)] writes the property and marks the node (and
    the clean part of its parent chain) dirty. It emits no event and
    does not apply changes: nothing is rendered, and apart from dirty
    marks every other node is as it was. *)
Theorem set_writes_and_marks_dirty (fuel : nat) (n : ref) (anc : list ref)
    (property : Property) (value : string) (t : Tree) (nd : TreeNode) :
  ancestors (nodes t) n anc -> (length anc < fuel)%nat ->
  nodes t !! n = Some nd ->
  exists t' nd',
    set fuel n property value t = Some t' /\
    nodes t' !! n = Some nd' /\
    (match property with
     | PropId => id nd' = value /\ text nd' = text nd
     | PropText => text nd' = value /\ id nd' = id nd
     end) /\
    children nd' = children nd /\ getParent nd' = getParent nd /\
    itree_state (itree nd') = itree_state (itree nd) /\
    itree_dirty (itree nd') = true /\
    events t' = events t /\ renders t' = renders t /\ model t' = model t /\
    forall m md, m <> n -> nodes t !! m = Some md ->
      exists md', nodes t' !! m = Some md' /\
                  set_dirty (itree_dirty (itree md)) md' = md.
Proof.
  intros Ha Hf Hn. unfold set. rewrite Hn. cbn [mbind option_bind].
  set (nd1 := match property with
              | PropId => set_id value nd
              | PropText => set_text value nd
              end).
  assert (Hp1 : getParent nd1 = getParent nd) by (by destruct property).
  set (t1 := set_nodes (<[n := nd1]> (nodes t)) t).
  assert (Ha1 : ancestors (nodes t1) n anc).
  { eapply ancestors_ext; [|exact Ha]. intros m md Hm. cbn [nodes t1 set_nodes].
    destruct (decide (m = n)) as [->|Hne].
    - rewrite lookup_insert_eq. exists nd1. split; [done|]. congruence.
    - rewrite lookup_insert_ne by done. by exists md. }
  rewrite (markDirty_closed fuel n anc t1 Ha1 Hf).
  pose proof (ancestors_all_present _ _ _ Ha1) as Hall.
  assert (Hprefix : isDirty (markAll (cleanPrefix (nodes t1) (n :: anc)) (nodes t1)) n
                    = true).
  { destruct (cleanPrefix_or_dirty_below (nodes t1) (n :: anc) 0%nat n eq_refl Hall)
      as [Hc|(j & b & Hj & Hb & Hd)].
    - rewrite isDirty_markAll, decide_True by done.
      apply bool_decide_eq_true_2, Hall, list_elem_of_here.
    - apply isDirty_markAll_mono. destruct j; [|lia]. cbn in Hb. congruence. }
  assert (Hn1 : nodes t1 !! n = Some nd1) by apply lookup_insert_eq.
  eexists. exists (if decide (n ∈ cleanPrefix (nodes t1) (n :: anc))
                   then set_dirty true nd1 else nd1).
  split; [done|]. cbn [nodes set_nodes events renders model].
  split; [rewrite lookup_markAll, Hn1; by destruct (decide _)|].
  split; [destruct property, (decide _); done|].
  split; [destruct property, (decide _); done|].
  split; [destruct property, (decide _); done|].
  split; [destruct property, (decide _); done|].
  split.
  { unfold isDirty in Hprefix. rewrite lookup_markAll, Hn1 in Hprefix.
    by destruct (decide _). }
  do 3 (split; [done|]).
  intros m md Hne Hm. rewrite lookup_markAll.
  assert (Hm1 : nodes t1 !! m = Some md).
  { unfold t1. cbn [nodes set_nodes]. by rewrite lookup_insert_ne. }
  rewrite Hm1.
  destruct (decide _); eexists; (split; [done|]); by destruct md as [? ? ? []].
Qed.

(** ** Expanding the ancestors *)

Lemma expand_with_children (fuel : nat) (a : ref) (anc : list ref)
    (t : Tree) (ad : TreeNode) :
  renderFrame renderPass ->
  ancestors (nodes t) a anc -> (length anc < fuel)%nat ->
  nodes t !! a = Some ad -> hasChildren ad = true ->
  exists t1 p ad1,
    expand fuel a t = Some (t1, p) /\
    kept (openOrRendered a) (nodes t) (nodes t1) /\
    nodes t1 !! a = Some ad1 /\
    truthy (collapsed ad1) = false /\ truthy (hidden ad1) = false.
Proof.
  intros HR H Hf Hn Hkids.
  assert (Hct : forall x, children x = children ad -> childrenIsTrue x = false).
  { intros x Hx. unfold childrenIsTrue. rewrite Hx.
    unfold hasChildren in Hkids. by destruct (children ad) as [|[]|]. }
  unfold expand, newPromise.
  cbn [nodes set_promises config]. rewrite Hn. cbn [mbind option_bind].
  rewrite Hkids. cbn [orb andb].
  destruct (truthy (collapsed ad) || truthy (hidden ad)) eqn:Hcol.
  - set (t0 := set_promises _ t).
    destruct (state_quiet fuel a anc "collapsed" false t0 H Hf)
      as (t1 & nd1 & -> & Q1 & _ & Hn1 & Hc1).
    cbn [mbind option_bind].
    pose proof (kept_ancestors _ _ _ _ _ (proj1 Q1) H) as H1.
    destruct (state_quiet fuel a anc "hidden" false t1 H1 Hf)
      as (t2 & nd2 & -> & Q2 & _ & Hn2 & Hh2).
    cbn [mbind option_bind nodes emit].
    pose proof (kept_ancestors _ _ _ _ _ (proj1 Q2) H1) as H2.
    rewrite Hn2. cbn [mbind option_bind config emit].
    destruct (kept_lookup _ _ _ _ _ (proj1 Q1) Hn) as (nd1' & Hn1' & K1).
    rewrite Hn1 in Hn1'. injection Hn1' as <-.
    destruct (kept_lookup _ _ _ _ _ (proj1 Q2) Hn1) as (nd2' & Hn2' & K2).
    rewrite Hn2 in Hn2'. injection Hn2' as <-.
    rewrite (Hct nd2), andb_false_r
      by (destruct K1 as (_&_&E1&_), K2 as (_&_&E2&_); by rewrite E2, E1).
    set (t3 := emit (EvNode "node.expanded" a) t2).
    destruct (markDirty_quiet fuel a anc t3 H2 Hf) as (t4 & -> & Q4 & _ & _).
    cbn [mbind option_bind].
    pose proof (applyChanges_quiet t4 HR) as Q5.
    destruct (kept_lookup _ _ _ _ _ (proj1 Q4) Hn2) as (nd4 & Hn4 & K4).
    destruct (kept_lookup _ _ _ _ _ (proj1 Q5) Hn4) as (nd5 & Hn5 & K5).
    destruct (settle_nodes (length (promises t)) (ResolvedNode a)
                (applyChanges t4)) as (Sn & _).
    eexists _, _, nd5. split; [done|]. rewrite Sn. split; [|split; [done|]].
    + eapply kept_trans; [|eapply kept_trans; [|eapply kept_trans]].
      * eapply kept_mono; [|exact (proj1 Q1)].
        intros m k [-> ->]. left. split; [done|by left].
      * eapply kept_mono; [|exact (proj1 Q2)].
        intros m k [-> ->]. left. split; [done|by right].
      * eapply kept_mono; [|exact (proj1 Q4)]. by intros m k [].
      * eapply kept_mono; [|exact (proj1 Q5)]. intros m k ->. by right.
    + destruct K2 as (_&_&_&_&K2), K4 as (_&_&_&_&K4), K5 as (_&_&_&_&K5).
      unfold collapsed, hidden.
      rewrite !K5 by (cbv beta; congruence). rewrite !K4 by (by intros []).
      rewrite Hh2. rewrite K2 by (intros [_ ?]; done). by rewrite Hc1.
  - destruct (settle_nodes (length (promises t)) (ResolvedNode a)
                (set_promises (promises t ++ [Pending]) t)) as (Sn & _).
    eexists _, _, ad. split; [done|]. rewrite Sn. split; [apply kept_refl|].
    split; [done|]. by apply orb_false_elim in Hcol.
Qed.

Lemma visible_when_open (fuel : nat) (n : ref) (anc : list ref) (t : Tree) :
  ancestors (nodes t) n anc -> (length anc < fuel)%nat ->
  (forall m md, m ∈ n :: anc -> nodes t !! m = Some md ->
     truthy (hidden md) = false /\ truthy (removed md) = false) ->
  (forall a ad, a ∈ anc -> nodes t !! a = Some ad ->
     truthy (collapsed ad) = false) ->
  visible fuel n t = Some true.
Proof.
  intros Ha. revert fuel.
  induction Ha as [n nd Hn Hp|n nd p l Hn Hp Hl IH]; intros fuel Hf Hshown Hopen;
    (destruct fuel as [|fuel]; [cbn in Hf; lia|]); rewrite visible_S, Hn;
    cbn [mbind option_bind];
    destruct (Hshown n nd (list_elem_of_here _ _) Hn) as [-> ->];
    cbn [orb]; rewrite Hp; [done|].
  destruct (ancestors_lookup _ _ _ Hl) as [pd Hpd]. rewrite Hpd.
  cbn [mbind option_bind].
  rewrite (Hopen p pd (list_elem_of_here _ _) Hpd).
  apply IH; [cbn in Hf; lia| |].
  - intros m md Hm. apply Hshown. by apply list_elem_of_further.
  - intros a ad Ha. apply Hopen. by apply list_elem_of_further.
Qed.

Lemma expandUp_opens (HR : renderFrame renderPass) :
  forall (anc : list ref) (fuel : nat) (a : ref) (t : Tree),
    ancestors (nodes t) a anc -> (length anc < fuel)%nat ->
    (forall m, m ∈ a :: anc ->
       exists md, nodes t !! m = Some md /\ hasChildren md = true) ->
    exists t',
      expandUp fuel a t = Some t' /\
      kept (openChainOrRendered (a :: anc)) (nodes t) (nodes t') /\
      forall m, m ∈ a :: anc ->
        exists md', nodes t' !! m = Some md' /\
                    truthy (collapsed md') = false /\
                    truthy (hidden md') = false.
Proof.
  induction anc as [|p anc IH]; intros fuel a t Ha Hf Hkids;
    (destruct fuel as [|fuel]; [cbn in Hf; lia|]);
    destruct (Hkids a (list_elem_of_here _ _)) as (ad & Had & Hka);
    destruct (expand_with_children (S fuel) a _ t ad HR Ha Hf Had Hka)
      as (t1 & pr & ad1 & E & K & Had1 & Hc1 & Hh1);
    cbn [expandUp]; rewrite E; cbn [mbind option_bind]; rewrite Had1;
    cbn [mbind option_bind];
    destruct (kept_lookup _ _ _ _ _ K Had) as (ad1' & Had1' & Kad);
    rewrite Had1 in Had1'; injection Had1' as <-;
    pose proof (proj1 (proj2 (proj2 (proj2 Kad)))) as Hpar;
    inversion Ha as [? ? Hn' Hp'|? ? p' l' Hn' Hp' Hl']; subst;
    rewrite Had in Hn'; injection Hn' as <-; unfold hasParent;
    change (itree_parent (itree ad1)) with (getParent ad1);
    rewrite Hpar, Hp'; cbn [mbind option_bind].
  - exists t1. split; [done|]. split.
    + eapply kept_mono; [|exact K]. intros m k [[-> Hk] | ->]; [left|by right].
      split; [apply list_elem_of_here|done].
    + intros m Hm. apply list_elem_of_singleton in Hm as ->. by exists ad1.
  - destruct (IH fuel p t1) as (t' & E' & K' & Hopen).
    + by eapply kept_ancestors.
    + cbn [length] in Hf. lia.
    + intros m Hm. destruct (Hkids m) as (md & Hmd & Hkm);
        [by apply list_elem_of_further|].
      destruct (kept_lookup _ _ _ _ _ K Hmd) as (md1 & Hmd1 & Km).
      exists md1. split; [done|]. by rewrite (nodeKept_hasChildren _ _ _ Km).
    + exists t'. split; [done|]. split.
      * eapply kept_trans.
        -- eapply kept_mono; [|exact K].
           intros m k [[-> Hk] | ->]; [left|by right].
           split; [apply list_elem_of_here|done].
        -- eapply kept_mono; [|exact K'].
           intros m k [[Hm Hk] | ->]; [left|by right].
           split; [by apply list_elem_of_further|done].
      * intros m Hm. apply elem_of_cons in Hm as [->|Hm]; [|by apply Hopen].
        destruct (kept_lookup _ _ _ _ _ K' Had1) as (ad' & Had' & (_&_&_&_&Kf)).
        exists ad'. split; [done|]. unfold collapsed, hidden in *.
        assert (Hna : a ∉ p :: anc) by (by eapply ancestors_not_elem).
        rewrite !Kf; [done| |];
          (intros [[Hin _]|Hr]; [by apply Hna|done]).
Qed.

(** [expandParents()] opens every ancestor of the node. Let each
    ancestor of the node have at least one child, as it has when the
    node below it on the parent chain is in its children collection
    ([expand()] does nothing on a node without children, which is what
    the parent of a node taken out by [remove()] may be). Then every
    ancestor is neither collapsed nor hidden afterwards, and no other
    flag than [collapsed] and [hidden] of the ancestors and [rendered] is
    written. A node that is neither hidden nor removed is then visible,
    unless one of its ancestors is removed. *)
Theorem expandParents_reveals (fuel : nat) (n : ref) (anc : list ref)
    (t : Tree) (nd : TreeNode) :
  renderFrame renderPass ->
  ancestors (nodes t) n anc -> (length anc < fuel)%nat ->
  nodes t !! n = Some nd ->
  (forall a ad, a ∈ anc -> nodes t !! a = Some ad -> hasChildren ad = true) ->
  exists t',
    expandParents fuel n t = Some t' /\
    kept (openChainOrRendered anc) (nodes t) (nodes t') /\
    (forall a, a ∈ anc ->
       exists ad', nodes t' !! a = Some ad' /\
                   truthy (collapsed ad') = false /\
                   truthy (hidden ad') = false) /\
    (truthy (hidden nd) = false -> truthy (removed nd) = false ->
     (forall a ad, a ∈ anc -> nodes t !! a = Some ad ->
        truthy (removed ad) = false) ->
     visible fuel n t' = Some true).
Proof.
  intros HR Ha Hf Hn Hkids. unfold expandParents. rewrite Hn.
  cbn [mbind option_bind]. unfold hasParent.
  inversion Ha as [? ? Hn' Hp'|? ? p l Hn' Hp' Hl]; subst;
    rewrite Hn in Hn'; injection Hn' as <-; pose proof Hp' as Hp;
    unfold getParent in Hp'; rewrite Hp'.
  - exists t. split; [done|]. split; [apply kept_refl|]. split.
    + intros a Hin. by apply not_elem_of_nil in Hin.
    + intros Hh Hr _. eapply visible_when_open; [done|done| |].
      * intros m md Hm Hmd. apply list_elem_of_singleton in Hm as ->.
        rewrite Hn in Hmd. by injection Hmd as <-.
      * intros a ad Hin. by apply not_elem_of_nil in Hin.
  - rewrite Hp. cbn [mbind option_bind].
    destruct (expandUp_opens HR l fuel p t Hl) as (t' & E & K & Hopen).
    + cbn [length] in Hf. lia.
    + intros m Hm.
      destruct (ancestors_all_present _ _ _ Ha m (list_elem_of_further _ _ _ Hm))
        as [md Hmd].
      exists md. split; [done|]. by eapply Hkids.
    + exists t'. split; [done|]. split; [done|]. split; [done|].
      intros Hh Hr Hrem.
      destruct (kept_lookup _ _ _ _ _ K Hn) as (nd' & Hn'' & (_&_&_&_&Kn)).
      assert (Hnn : n ∉ p :: l) by (by eapply ancestors_not_elem).
      eapply visible_when_open; [by eapply kept_ancestors|done| |].
      * intros m md' Hm Hmd'. apply elem_of_cons in Hm as [->|Hm].
        -- rewrite Hn'' in Hmd'. injection Hmd' as <-.
           unfold hidden, removed in *.
           rewrite !Kn; [done| |];
             (intros [[Hin _]|Hx]; [by apply Hnn|done]).
        -- destruct (Hopen m Hm) as (md'' & Hmd'' & _ & Hhm).
           rewrite Hmd' in Hmd''. injection Hmd'' as <-. split; [done|].
           destruct (kept_lookup_inv _ _ _ _ _ K Hmd') as (md & Hmd & (_&_&_&_&Km)).
           unfold removed. rewrite Km.
           ++ by eapply Hrem.
           ++ intros [[_ [Hk|Hk]]|Hk]; done.
      * intros a ad' Hin Had'. destruct (Hopen a Hin) as (ad'' & Had'' & Hc & _).
        rewrite Had' in Had''. by injection Had'' as <-.
Qed.

(** ** Checks that compute *)

Lemma idAbsentb_absent (i : string) (h : gmap ref TreeNode) :
  idAbsentb i h = true ->
  forall m md, h !! m = Some md -> id md <> i.
Proof.
  unfold idAbsentb. rewrite forallb_forall. intros Hall m md Hm.
  specialize (Hall (m, md)). rewrite <- list_elem_of_In in Hall.
  apply bool_decide_eq_true in Hall; [done|]. by apply elem_of_map_to_list.
Qed.

Lemma linkedDown_insert_leaf (h : gmap ref TreeNode) (r : ref) (rd : TreeNode) :
  linkedDown h -> h !! r = None -> getChildNodes rd = [] ->
  linkedDown (<[r := rd]> h).
Proof.
  intros L Hr Hk p pd c Hp Hc. destruct (decide (p = r)) as [->|Hne].
  - rewrite lookup_insert_eq in Hp. injection Hp as <-. rewrite Hk in Hc.
    by apply not_elem_of_nil in Hc.
  - rewrite lookup_insert_ne in Hp by done.
    destruct (L p pd c Hp Hc) as (cd & Hcd & Hpc).
    exists cd. split; [|done]. rewrite lookup_insert_ne; [done|]. congruence.
Qed.
End Model.

(** * The properties on the example tree *)

Lemma batch_nesting_renders_once_witness :
  batching (dom exampleTree) = 0 /\ (1 <= 2)%nat /\
  renderCalls
    (run renderEveryNode (repeat Batch 2 ++ repeat End 2) exampleTree) = 1%nat.
Proof.
  split; [reflexivity|]. split; [lia|].
  exact (proj1 (proj2 (proj2
    (batch_nesting_renders_once renderEveryNode exampleTree 2
       eq_refl (le_S 1 1 (le_n 1)))))).
Defined.

Lemma batching_nonneg_when_nested_witness :
  batching (dom exampleTree) = 0 /\
  nested 0 [Batch; ApplyChanges; Batch; End; End] = true /\
  0 <= batching (dom (run renderEveryNode [Batch; ApplyChanges; Batch; End]
                        exampleTree)).
Proof.
  split; [reflexivity|]. split; [reflexivity|].
  exact (proj1 (batching_nonneg_when_nested renderEveryNode exampleTree
           [Batch; ApplyChanges; Batch; End; End] eq_refl eq_refl)
         [Batch; ApplyChanges; Batch; End] [End] eq_refl).
Defined.

(** C8 as stated fails: one unmatched [end()] takes the counter of a
    fresh tree to -1. *)
Lemma batching_negative_after_unmatched_end :
  batching (dom exampleTree) = 0 /\
  batching (dom (run renderEveryNode [End] exampleTree)) = -1 /\
  ~ (0 <= batching (dom (run renderEveryNode [End] exampleTree))).
Proof. split; [reflexivity|]. split; [reflexivity|]. vm_compute. by intros H. Qed.

Lemma exampleTree_ancestors_4 : ancestors (nodes exampleTree) 4 [2; 1]%nat.
Proof.
  eapply ancestors_step; [reflexivity|reflexivity|].
  eapply ancestors_step; [reflexivity|reflexivity|].
  eapply ancestors_root; reflexivity.
Defined.

Lemma markDirty_propagates_and_is_idempotent_witness :
  ancestors (nodes exampleTree) 4 [2; 1]%nat /\ (2 < 3)%nat /\
  exists t', markDirty 3 4 exampleTree = Some t' /\ markDirty 3 4 t' = Some t'.
Proof.
  split; [exact exampleTree_ancestors_4|]. split; [lia|].
  destruct (markDirty_propagates_and_is_idempotent 3 4 [2; 1]%nat exampleTree
              exampleTree_ancestors_4 (le_n 3))
    as (t' & H1 & _ & _ & _ & _ & _ & H2 & _).
  by exists t'.
Defined.

Lemma visible_iff_shown_and_ancestors_open_witness :
  ancestors (nodes exampleTree) 4 [2; 1]%nat /\ (2 < 3)%nat /\
  exists nd b, nodes exampleTree !! 4%nat = Some nd /\
               visible 3 4 exampleTree = Some b.
Proof.
  split; [exact exampleTree_ancestors_4|]. split; [lia|].
  destruct (visible_iff_shown_and_ancestors_open 3 4 [2; 1]%nat exampleTree
              exampleTree_ancestors_4 (le_n 3))
    as (nd & b & H1 & H2 & _).
  by exists nd, b.
Defined.

Lemma recurseUp_stops_on_false_only_witness :
  ancestors (nodes exampleTree) 4 [2; 1]%nat /\ (2 < 3)%nat /\
  recurseUp 3 (logger (fun m => JSBool (negb (m =? 2)%nat))) 4 exampleTree []
  = Some [4; 2]%nat.
Proof.
  split; [exact exampleTree_ancestors_4|]. split; [lia|].
  exact (proj1 (proj2 (recurseUp_stops_on_false_only 3 4 [2; 1]%nat exampleTree
           exampleTree_ancestors_4 (le_n 3))) _).
Defined.

(** C9 as stated fails: an iteratee that returns undefined, a falsy
    value, at every node is still called on the whole chain, whereas a
    walk that stopped at the first falsy value would end at the node
    itself. *)
Lemma recurseUp_continues_on_undefined :
  recurseUp 3 (logger (fun _ => JSUndefined)) 4 exampleTree []
    = Some [4; 2; 1]%nat /\
  visitedUntil falsy (fun _ => JSUndefined) [4; 2; 1]%nat = [4%nat] /\
  recurseUp 3 (logger (fun _ => JSUndefined)) 4 exampleTree []
    <> Some (visitedUntil falsy (fun _ => JSUndefined) [4; 2; 1]%nat).
Proof. split; [reflexivity|]. split; [reflexivity|]. vm_compute. by intros H. Qed.

Lemma state_writes_only_on_change_witness :
  ancestors (nodes exampleTree) 4 [2; 1]%nat /\ (2 < 3)%nat /\
  nodes exampleTree !! 4%nat = Some (newNode "5" "E" ChUndefined (Some 2%nat)) /\
  state 3 4 "collapsed" (Some true) exampleTree = Some (exampleTree, Some true).
Proof.
  split; [exact exampleTree_ancestors_4|]. split; [lia|]. split; [reflexivity|].
  exact (proj1 (state_writes_only_on_change 3 4 [2; 1]%nat "collapsed" true
           exampleTree _ exampleTree_ancestors_4 (le_n 3) eq_refl) eq_refl).
Defined.

Lemma renderEveryNode_frame : renderFrame renderEveryNode.
Proof.
  intros h. split; [|done]. intros m. unfold renderEveryNode. cbn.
  rewrite lookup_fmap. destruct (h !! m) as [nd|]; [|done]. cbn.
  eexists. split; [done|]. repeat split.
  intros k Hk. unfold getState. cbn. by apply lookup_insert_ne.
Qed.

Lemma dynamicTree_ancestors_0 : ancestors (nodes dynamicTree) 0 [].
Proof. eapply ancestors_root; reflexivity. Defined.

Lemma load_failure_recovers_locally_witness :
  renderFrame renderEveryNode /\
  ancestors (nodes dynamicTree) 0 [] /\ (0 < 1)%nat /\
  nodes dynamicTree !! 0%nat = Some (newNode "1" "A" (ChBool true) None) /\
  isDynamic (config dynamicTree) = true /\
  childrenIsTrue (newNode "1" "A" (ChBool true) None) = true /\
  truthy (collapsed (newNode "1" "A" (ChBool true) None))
    || truthy (hidden (newNode "1" "A" (ChBool true) None)) = true /\
  exists t1 pe pl t2 nd2,
    expand renderEveryNode 1 0 dynamicTree = Some (t1, pe) /\
    loadChildren_error renderEveryNode 1 0 pl "failed" t1 = Some t2 /\
    nodes t2 !! 0%nat = Some nd2 /\
    collapsed nd2 = Some false /\ loading nd2 = Some false /\
    children nd2 = ChNodes [] /\
    promises t2 !! pe = Some (Rejected "failed") /\
    countLoadErrors (events t2) = 1%nat.
Proof.
  split; [exact renderEveryNode_frame|]. split; [exact dynamicTree_ancestors_0|].
  split; [lia|]. do 4 (split; [reflexivity|]).
  destruct (proj2 (load_failure_recovers_locally renderEveryNode 1 0 []
              dynamicTree _ "failed" renderEveryNode_frame
              dynamicTree_ancestors_0 (le_n 1) eq_refl eq_refl eq_refl) eq_refl)
    as (t1 & pe & pl & He & _ & _ & _ & _ & t2 & nd2 & evs & Herr & Hn2 & Hc
        & Hl & Hch & _ & Hpe & _ & _ & Hcnt & _).
  exists t1, pe, pl, t2, nd2. by repeat split.
Defined.

Lemma loadingTree_ancestors_0 : ancestors (nodes loadingTree) 0 [].
Proof. eapply ancestors_root; reflexivity. Defined.

Lemma second_load_is_not_guarded_witness :
  renderFrame renderEveryNode /\
  ancestors (nodes loadingTree) 0 [] /\ (0 < 1)%nat /\
  (exists nd, nodes loadingTree !! 0%nat = Some nd /\
              childrenIsTrue nd = true /\ truthy (loading nd) = true) /\
  isDynamic (config loadingTree) = true /\
  exists t2 p,
    loadChildren renderEveryNode 1 0 loadingTree = Some (t2, p) /\
    promises t2 !! p = Some Pending /\
    loaderCalls t2 = loaderCalls loadingTree ++ [0%nat].
Proof.
  split; [exact renderEveryNode_frame|].
  split; [exact loadingTree_ancestors_0|]. split; [lia|].
  split; [eexists; repeat split; reflexivity|]. split; [reflexivity|].
  destruct (proj1 (second_load_is_not_guarded renderEveryNode 1 0 []
              loadingTree _ renderEveryNode_frame loadingTree_ancestors_0
              (le_n 1) eq_refl eq_refl eq_refl eq_refl))
    as (t2 & p & nd2 & Hl & _ & Hp & Hlc & _).
  by exists t2, p.
Defined.

(** C7 as stated fails. [loadChildren()] on the node of the dynamic tree
    leaves the load in flight; a second [loadChildren()] issued then is
    not rejected (its promise, number 1, is pending) and the loader is
    called a second time. *)
Lemma second_loadChildren_fetches_again :
  loadChildren renderEveryNode 1 0 dynamicTree = Some (loadingTree, 0%nat) /\
  (exists nd, nodes loadingTree !! 0%nat = Some nd /\ loading nd = Some true) /\
  snd <$> loadChildren renderEveryNode 1 0 loadingTree = Some 1%nat /\
  (fun r => promises r.1 !! r.2) <$> loadChildren renderEveryNode 1 0 loadingTree
    = Some (Some Pending) /\
  (fun r => loaderCalls r.1) <$> loadChildren renderEveryNode 1 0 loadingTree
    = Some [0%nat; 0%nat].
Proof.
  split; [vm_compute; reflexivity|]. split; [eexists; split; reflexivity|].
  repeat split; vm_compute; reflexivity.
Qed.


Lemma exampleTree_ancestors_2 : ancestors (nodes exampleTree) 2 [1%nat].
Proof.
  eapply ancestors_step; [reflexivity|reflexivity|].
  eapply ancestors_root; reflexivity.
Defined.

Lemma exampleTree_linked : linked (nodes exampleTree).
Proof. apply linkedb_linked. vm_compute. reflexivity. Qed.



Lemma exampleTree_wf : wfTree 3 exampleTree.
Proof.
  apply chainsBelowb_wfTree; [exact (proj1 exampleTree_linked)|].
  vm_compute. reflexivity.
Qed.




(** * More of the code on the example trees *)

Lemma openTree_linked : linked (nodes openTree).
Proof. apply linkedb_linked. vm_compute. reflexivity. Qed.

Lemma openTree_wf : wfTree 3 openTree.
Proof.
  apply chainsBelowb_wfTree; [exact (proj1 openTree_linked)|].
  vm_compute. reflexivity.
Qed.

Lemma strayTree_wf : wfTree 3 strayTree.
Proof.
  apply chainsBelowb_wfTree; [|vm_compute; reflexivity].
  apply linkedDown_insert_leaf;
    [exact (proj1 openTree_linked)|reflexivity|reflexivity].
Qed.

Lemma getParents_is_parent_chain_witness :
  ancestors (nodes exampleTree) 4 [2; 1]%nat /\ (2 <= 2)%nat /\
  getParents 2 4 exampleTree = Some [2; 1]%nat.
Proof.
  split; [exact exampleTree_ancestors_4|]. split; [lia|].
  exact (getParents_is_parent_chain 2 4 [2; 1]%nat exampleTree
           exampleTree_ancestors_4 (le_n 2)).
Defined.

Lemma getTextualHierarchy_root_first_witness :
  ancestors (nodes exampleTree) 4 [2; 1]%nat /\ (2 < 3)%nat /\
  getTextualHierarchy 3 4 exampleTree
  = Some (textOf exampleTree <$> [1; 2; 4]%nat).
Proof.
  split; [exact exampleTree_ancestors_4|]. split; [lia|].
  exact (getTextualHierarchy_root_first 3 4 [2; 1]%nat exampleTree
           exampleTree_ancestors_4 (le_n 3)).
Defined.

Lemma exampleTree_chain_root (m : ref) (md : TreeNode) :
  m ∈ [4; 2; 1]%nat -> nodes exampleTree !! m = Some md ->
  getParent md = None -> m ∈ model exampleTree.
Proof.
  intros Hm Hmd Hp.
  repeat (apply elem_of_cons in Hm as [->|Hm]);
    [| |apply list_elem_of_further, list_elem_of_here
     |by apply not_elem_of_nil in Hm];
    vm_compute in Hmd; injection Hmd as <-; discriminate Hp.
Qed.

Lemma indexPath_positions_witness :
  ancestors (nodes exampleTree) 4 [2; 1]%nat /\ (2 < 3)%nat /\
  linkedUp (nodes exampleTree) /\
  exists ixs,
    indexPathIndices 3 4 exampleTree = Some ixs /\
    indexPath 3 4 exampleTree
    = Some (String.concat "." (pretty <$> reverse ixs)) /\
    length ixs = 3%nat.
Proof.
  split; [exact exampleTree_ancestors_4|]. split; [lia|].
  split; [exact (proj2 exampleTree_linked)|].
  destruct (indexPath_positions 3 4 [2; 1]%nat exampleTree
              exampleTree_ancestors_4 (le_n 3) (proj2 exampleTree_linked)
              exampleTree_chain_root)
    as (ixs & Hi & Hp & Hl & _).
  by exists ixs.
Defined.

Lemma nextVisibleChildNode_first_visible_witness :
  wfDown 3 (nodes openTree) /\ (3 <= 3)%nat /\
  nodes openTree !! 1%nat = Some openB /\
  exists r, nextVisibleChildNode 3 1 openTree = Some r /\
            firstVisible 3 openTree [2; 3]%nat r.
Proof.
  split; [exact (proj1 openTree_wf)|]. split; [lia|]. split; [reflexivity|].
  exact (nextVisibleChildNode_first_visible 3 3 1 openTree openB
           (proj1 openTree_wf) (le_n 3) eq_refl).
Defined.

Lemma openTree_before_C (m : ref) (md : TreeNode) :
  m ∈ @nil ref -> nodes openTree !! m = Some md -> id md <> id openC.
Proof. intros Hm. by apply not_elem_of_nil in Hm. Qed.

Lemma nextVisibleSiblingNode_first_after_witness :
  wfTree 3 openTree /\ (3 <= 3)%nat /\ nodes openTree !! 2%nat = Some openC /\
  siblings openC openTree = Some ([] ++ 2 :: [3])%nat /\
  exists r, nextVisibleSiblingNode 3 2 openTree = Some r /\
            firstVisible 3 openTree [3%nat] r.
Proof.
  split; [exact openTree_wf|]. split; [lia|]. split; [reflexivity|].
  split; [reflexivity|].
  exact (nextVisibleSiblingNode_first_after 3 3 2 openTree openC [] [3%nat]
           openTree_wf (le_n 3) eq_refl eq_refl openTree_before_C).
Defined.

Lemma openTree_before_D (m : ref) (md : TreeNode) :
  m ∈ [2%nat] -> nodes openTree !! m = Some md ->
  id md <> id (newNode "4" "D" ChUndefined (Some 1%nat)).
Proof.
  intros Hm Hmd. apply list_elem_of_singleton in Hm as ->.
  vm_compute in Hmd. injection Hmd as <-. discriminate.
Qed.

Lemma previousVisibleSiblingNode_last_before_witness :
  wfTree 3 openTree /\ (3 <= 3)%nat /\
  nodes openTree !! 3%nat = Some (newNode "4" "D" ChUndefined (Some 1%nat)) /\
  siblings (newNode "4" "D" ChUndefined (Some 1%nat)) openTree
  = Some ([2] ++ 3 :: [])%nat /\
  exists r, previousVisibleSiblingNode 3 3 openTree = Some r /\
            firstVisible 3 openTree (reverse [2%nat]) r.
Proof.
  split; [exact openTree_wf|]. split; [lia|]. split; [reflexivity|].
  split; [reflexivity|].
  exact (previousVisibleSiblingNode_last_before 3 3 3 openTree
           (newNode "4" "D" ChUndefined (Some 1%nat)) [2%nat] []
           openTree_wf (le_n 3) eq_refl eq_refl openTree_before_D).
Defined.

Lemma strayTree_no_F (m : ref) (md : TreeNode) :
  m ∈ [2; 3]%nat -> nodes strayTree !! m = Some md -> id md <> id strayF.
Proof.
  intros Hm Hmd.
  repeat (apply elem_of_cons in Hm as [->|Hm]);
    [| |by apply not_elem_of_nil in Hm];
    vm_compute in Hmd; injection Hmd as <-; discriminate.
Qed.

Lemma sibling_moves_of_a_stranger_witness :
  wfTree 3 strayTree /\ (3 <= 3)%nat /\
  nodes strayTree !! 5%nat = Some strayF /\
  siblings strayF strayTree = Some [2; 3]%nat /\
  exists r1 r2,
    nextVisibleSiblingNode 3 5 strayTree = Some r1 /\
    firstVisible 3 strayTree [2; 3]%nat r1 /\
    previousVisibleSiblingNode 3 5 strayTree = Some r2 /\
    firstVisible 3 strayTree (reverse [2%nat]) r2.
Proof.
  split; [exact strayTree_wf|]. split; [lia|]. split; [reflexivity|].
  split; [reflexivity|].
  exact (sibling_moves_of_a_stranger 3 3 5 strayTree strayF [2; 3]%nat
           strayTree_wf (le_n 3) eq_refl eq_refl strayTree_no_F).
Defined.

Lemma lastDeepestVisibleChild_outcome_witness :
  wfDown 3 (nodes openTree) /\ (2 * 3 <= 6)%nat /\
  nodes openTree !! 1%nat = Some openB /\
  lastDeepestVisibleChild 6 1 openTree = Some (Returns (Some 3%nat)) /\
  exists x xd,
    deepestWalk 6 openTree 1 x /\ nodes openTree !! x = Some xd /\
    lastDeepestVisibleChild 6 1 openTree
    = Some (if hasChildren xd && negb (truthy (collapsed xd)) then TypeError
            else if hasChildren openB && negb (truthy (collapsed openB))
                 then Returns (Some x)
                 else Returns None).
Proof.
  split; [exact (proj1 openTree_wf)|]. split; [lia|]. split; [reflexivity|].
  split; [reflexivity|].
  destruct (lastDeepestVisibleChild_outcome 3 6 1 openTree openB
              (proj1 openTree_wf) (le_n 6) eq_refl)
    as (x & xd & Wx & Hxd & E & _).
  by exists x, xd.
Defined.

Lemma nextVisibleNode_is_visible_witness :
  wfTree 3 openTree /\ (2 * 3 <= 6)%nat /\
  nodes openTree !! 4%nat
    = Some (newNode "5" "E" ChUndefined (Some 2%nat)) /\
  exists r, nextVisibleNode 6 4 openTree = Some r /\
            forall x, r = Some x -> visible 6 x openTree = Some true.
Proof.
  split; [exact openTree_wf|]. split; [lia|]. split; [reflexivity|].
  destruct (nextVisibleNode_is_visible 3 6 4 openTree
              (newNode "5" "E" ChUndefined (Some 2%nat))
              openTree_wf (le_n 6) eq_refl) as (r & rc & E & Hv & _).
  by exists r.
Defined.

Lemma previousVisibleNode_is_visible_witness :
  wfTree 3 openTree /\ (2 * 3 <= 6)%nat /\
  nodes openTree !! 3%nat
    = Some (newNode "4" "D" ChUndefined (Some 1%nat)) /\
  visible 6 3 openTree = Some true /\
  exists res, previousVisibleNode 6 3 openTree = Some res /\
    forall x, res = Returns (Some x) -> visible 6 x openTree = Some true.
Proof.
  split; [exact openTree_wf|]. split; [lia|]. split; [reflexivity|].
  split; [reflexivity|].
  destruct (previousVisibleNode_is_visible 3 6 3 openTree
              (newNode "4" "D" ChUndefined (Some 1%nat))
              openTree_wf (le_n 6) eq_refl eq_refl) as (res & E & Hv & _).
  by exists res.
Defined.

Lemma refreshIndeterminateState_without_checkboxes_witness :
  showCheckboxes (config plainTree) = false /\
  ancestors (nodes plainTree) 2 [1%nat] /\ (1 < 2)%nat /\
  exists t' nd',
    refreshIndeterminateState 2 2 plainTree = Some t' /\
    nodes t' !! 2%nat = Some nd' /\
    getState "indeterminate" nd' = Some false.
Proof.
  split; [reflexivity|]. split; [exact exampleTree_ancestors_2|].
  split; [lia|].
  destruct (refreshIndeterminateState_without_checkboxes 2 2 [1%nat] plainTree
              eq_refl exampleTree_ancestors_2 (le_n 2))
    as (t' & nd' & E & _ & _ & Hn & Hs).
  by exists t', nd'.
Defined.

Lemma exampleTree_ancestors_1 : ancestors (nodes exampleTree) 1 [].
Proof. eapply ancestors_root; reflexivity. Defined.

Lemma expand_opens_once_witness :
  renderFrame renderEveryNode /\
  ancestors (nodes exampleTree) 1 [] /\ (0 < 1)%nat /\
  nodes exampleTree !! 1%nat
    = Some (newNode "2" "B" (ChNodes [2%nat; 3%nat]) None) /\
  hasChildren (newNode "2" "B" (ChNodes [2%nat; 3%nat]) None) = true /\
  truthy (collapsed (newNode "2" "B" (ChNodes [2%nat; 3%nat]) None))
  || truthy (hidden (newNode "2" "B" (ChNodes [2%nat; 3%nat]) None)) = true /\
  exists t1 nd1,
    expand renderEveryNode 1 1 exampleTree = Some (t1, 0%nat) /\
    nodes t1 !! 1%nat = Some nd1 /\ collapsed nd1 = Some false.
Proof.
  split; [exact renderEveryNode_frame|].
  split; [exact exampleTree_ancestors_1|]. split; [lia|].
  split; [reflexivity|]. split; [reflexivity|]. split; [reflexivity|].
  destruct (expand_opens_once renderEveryNode 1 1 [] exampleTree
              (newNode "2" "B" (ChNodes [2%nat; 3%nat]) None)
              renderEveryNode_frame exampleTree_ancestors_1 (le_n 1)
              eq_refl eq_refl eq_refl)
    as (t1 & nd1 & E & Hn & Hc & _).
  by exists t1, nd1.
Defined.

Lemma exampleTree_ancestors_0 : ancestors (nodes exampleTree) 0 [].
Proof. eapply ancestors_root; reflexivity. Defined.

Lemma loadChildren_rejects_and_goes_on_witness :
  renderFrame renderEveryNode /\
  ancestors (nodes exampleTree) 0 [] /\ (0 < 1)%nat /\
  nodes exampleTree !! 0%nat = Some (newNode "1" "A" ChUndefined None) /\
  isDynamic (config exampleTree)
  && childrenIsTrue (newNode "1" "A" ChUndefined None) = false /\
  exists t1 nd1,
    loadChildren renderEveryNode 1 0 exampleTree = Some (t1, 0%nat) /\
    promises t1 !! 0%nat = Some (Rejected notDynamicError) /\
    nodes t1 !! 0%nat = Some nd1 /\ getState "loading" nd1 = Some true.
Proof.
  split; [exact renderEveryNode_frame|].
  split; [exact exampleTree_ancestors_0|]. split; [lia|].
  split; [reflexivity|]. split; [reflexivity|].
  destruct (loadChildren_rejects_and_goes_on renderEveryNode 1 0 []
              exampleTree (newNode "1" "A" ChUndefined None)
              renderEveryNode_frame exampleTree_ancestors_0 (le_n 1)
              eq_refl eq_refl)
    as (t1 & nd1 & E & Hp & Hn & Hs & _).
  by exists t1, nd1.
Defined.

Lemma exampleTree_no_9 (l : list ref) (m : ref) (md : TreeNode) :
  within (nodes exampleTree) l m -> nodes exampleTree !! m = Some md ->
  id md <> d_id newData.
Proof.
  intros _. apply (idAbsentb_absent "9" (nodes exampleTree)).
  vm_compute. reflexivity.
Qed.

Lemma newData_named : d_id newData <> "".
Proof. discriminate. Qed.

Lemma insertAt_inserts_new_node_witness :
  renderFrame renderEveryNode /\ wfTree 3 exampleTree /\
  collNodes CRoot exampleTree = Some [0; 1]%nat /\
  (3 + dataSize anonymousData < 5)%nat /\
  (d_id anonymousData = "" \/
   forall m md, within (nodes exampleTree) [0; 1]%nat m ->
     nodes exampleTree !! m = Some md -> id md <> d_id anonymousData) /\
  exists t' r rd,
    insertAt renderEveryNode noAutoDeselect 5 CRoot 1 anonymousData
      exampleTree = Some (t', r) /\
    nodes exampleTree !! r = None /\ nodes t' !! r = Some rd /\
    collNodes CRoot t' = Some [0; r; 1]%nat /\ text rd = "N".
Proof.
  split; [exact renderEveryNode_frame|]. split; [exact exampleTree_wf|].
  split; [reflexivity|]. split; [cbn; lia|]. split; [by left|].
  destruct (insertAt_inserts_new_node renderEveryNode noAutoDeselect 5 3
              CRoot 1 anonymousData exampleTree [0; 1]%nat
              renderEveryNode_frame exampleTree_wf eq_refl (le_n 5)
              (or_introl eq_refl))
    as (t' & r & rd & E & Hno & Hr & Hc & _ & Ht & _).
  by exists t', r, rd.
Defined.

Lemma addNode_appends_witness :
  renderFrame renderEveryNode /\ wfTree 3 exampleTree /\
  collNodes CRoot exampleTree = Some [0; 1]%nat /\
  (3 + dataSize newData < 5)%nat /\ sort (config exampleTree) = None /\
  (d_id newData = "" \/
   forall m md, within (nodes exampleTree) [0; 1]%nat m ->
     nodes exampleTree !! m = Some md -> id md <> d_id newData) /\
  exists t' r rd,
    addNode renderEveryNode noAutoDeselect 5 CRoot newData exampleTree
      = Some (t', r) /\
    nodes t' !! r = Some rd /\ text rd = "N" /\
    collNodes CRoot t' = Some [0; 1; r]%nat.
Proof.
  split; [exact renderEveryNode_frame|]. split; [exact exampleTree_wf|].
  split; [reflexivity|]. split; [cbn; lia|]. split; [reflexivity|].
  split; [right; exact (exampleTree_no_9 [0; 1]%nat)|].
  destruct (addNode_appends renderEveryNode noAutoDeselect 5 3 CRoot newData
              exampleTree [0; 1]%nat
              renderEveryNode_frame exampleTree_wf eq_refl (le_n 5) eq_refl
              (or_intror (exampleTree_no_9 [0; 1]%nat)))
    as (t' & r & rd & E & _ & Hr & Ht & Hc).
  by exists t', r, rd.
Defined.


Lemma remove_takes_node_out_witness :
  renderFrame renderEveryNode /\ wfTree 3 exampleTree /\ (3 <= 3)%nat /\
  nodes exampleTree !! 3%nat
    = Some (newNode "4" "D" ChUndefined (Some 1%nat)) /\
  context (newNode "4" "D" ChUndefined (Some 1%nat)) exampleTree
    = Some [2; 3]%nat /\
  exists t' ctx' nd',
    remove renderEveryNode 3 3 exampleTree = Some t' /\
    nodes t' !! 3%nat = Some nd' /\ getParent nd' = Some 1%nat /\
    context nd' t' = Some ctx' /\ sublist ctx' [2; 3]%nat /\ 3%nat ∉ ctx'.
Proof.
  split; [exact renderEveryNode_frame|]. split; [exact exampleTree_wf|].
  split; [lia|]. split; [reflexivity|]. split; [reflexivity|].
  destruct (remove_takes_node_out renderEveryNode 3 3 3 exampleTree
              (newNode "4" "D" ChUndefined (Some 1%nat)) [2; 3]%nat
              renderEveryNode_frame exampleTree_wf (le_n 3) eq_refl eq_refl)
    as (t' & ctx' & nd' & E & Hn & Hp & Hc & Hs & _ & Hno).
  by exists t', ctx', nd'.
Defined.

Lemma remove_undoes_insertAt_witness :
  renderFrame renderEveryNode /\ wfTree 3 exampleTree /\
  collNodes CRoot exampleTree = Some [0; 1]%nat /\
  (3 + dataSize newData < 5)%nat /\ d_id newData <> "" /\
  (forall m md, within (nodes exampleTree) [0; 1]%nat m ->
     nodes exampleTree !! m = Some md -> id md <> d_id newData) /\
  exists t' r t'',
    insertAt renderEveryNode noAutoDeselect 5 CRoot 1 newData exampleTree
      = Some (t', r) /\
    collNodes CRoot t' = Some [0; r; 1]%nat /\
    remove renderEveryNode 5 r t' = Some t'' /\
    collNodes CRoot t'' = Some [0; 1]%nat.
Proof.
  split; [exact renderEveryNode_frame|]. split; [exact exampleTree_wf|].
  split; [reflexivity|]. split; [cbn; lia|]. split; [exact newData_named|].
  split; [exact (exampleTree_no_9 [0; 1]%nat)|].
  exact (remove_undoes_insertAt renderEveryNode noAutoDeselect 5 3 CRoot 1
           newData exampleTree [0; 1]%nat
           renderEveryNode_frame exampleTree_wf eq_refl (le_n 5)
           newData_named (exampleTree_no_9 [0; 1]%nat)).
Defined.

Lemma node_finds_iff_present_witness :
  wfTree 3 exampleTree /\ collNodes CRoot exampleTree = Some [0; 1]%nat /\
  (3 <= 3)%nat /\
  exists r, node 3 CRoot "5" exampleTree = Some r.
Proof.
  split; [exact exampleTree_wf|]. split; [reflexivity|]. split; [lia|].
  destruct (node_finds_iff_present 3 3 CRoot "5" exampleTree [0; 1]%nat
              exampleTree_wf eq_refl (le_n 3)) as (r & E & _).
  by exists r.
Defined.

Lemma deepest_members_witness :
  wfDown 3 (nodes exampleTree) /\ (3 <= 3)%nat /\
  (forall m, m ∈ [0; 1]%nat -> is_Some (nodes exampleTree !! m)) /\
  exists out,
    deepest 3 [0; 1]%nat exampleTree = Some out /\
    forall m, m ∈ out <->
      (within (nodes exampleTree) [0; 1]%nat m /\
       exists md, nodes exampleTree !! m = Some md /\
                  childrenFalsy md = true).
Proof.
  split; [exact (proj1 exampleTree_wf)|]. split; [lia|].
  split; [exact (proj2 exampleTree_wf)|].
  destruct (deepest_members 3 3 exampleTree [0; 1]%nat
              (proj1 exampleTree_wf) (le_n 3) (proj2 exampleTree_wf))
    as (out & E & Hm & _).
  by exists out.
Defined.

Lemma nodes_refs_members_witness :
  wfDown 3 (nodes exampleTree) /\ (3 <= 3)%nat /\
  (forall m, m ∈ [0; 1]%nat -> is_Some (nodes exampleTree !! m)) /\
  exists out,
    nodes_refs 3 ["3"; "5"] [0; 1]%nat exampleTree = Some out /\
    forall m, m ∈ out <->
      (within (nodes exampleTree) [0; 1]%nat m /\
       exists md, nodes exampleTree !! m = Some md /\ id md ∈ ["3"; "5"]).
Proof.
  split; [exact (proj1 exampleTree_wf)|]. split; [lia|].
  split; [exact (proj2 exampleTree_wf)|].
  exact (nodes_refs_members 3 3 ["3"; "5"] exampleTree [0; 1]%nat
           (proj1 exampleTree_wf) (le_n 3) (proj2 exampleTree_wf)).
Defined.

Lemma set_writes_and_marks_dirty_witness :
  ancestors (nodes exampleTree) 4 [2; 1]%nat /\ (2 < 3)%nat /\
  nodes exampleTree !! 4%nat
    = Some (newNode "5" "E" ChUndefined (Some 2%nat)) /\
  exists t' nd',
    set 3 4 PropText "E2" exampleTree = Some t' /\
    nodes t' !! 4%nat = Some nd' /\ text nd' = "E2" /\ id nd' = "5" /\
    itree_dirty (itree nd') = true.
Proof.
  split; [exact exampleTree_ancestors_4|]. split; [lia|].
  split; [reflexivity|].
  destruct (set_writes_and_marks_dirty 3 4 [2; 1]%nat PropText "E2"
              exampleTree (newNode "5" "E" ChUndefined (Some 2%nat))
              exampleTree_ancestors_4 (le_n 3) eq_refl)
    as (t' & nd' & E & Hn & (Ht & Hi) & _ & _ & _ & Hd & _).
  by exists t', nd'.
Defined.

Lemma exampleTree_chain_children (a : ref) (ad : TreeNode) :
  a ∈ [2; 1]%nat -> nodes exampleTree !! a = Some ad -> hasChildren ad = true.
Proof.
  intros Ha Had.
  repeat (apply elem_of_cons in Ha as [->|Ha]);
    [| |by apply not_elem_of_nil in Ha];
    vm_compute in Had; injection Had as <-; reflexivity.
Qed.

Lemma expandParents_reveals_witness :
  renderFrame renderEveryNode /\
  ancestors (nodes exampleTree) 4 [2; 1]%nat /\ (2 < 3)%nat /\
  nodes exampleTree !! 4%nat
    = Some (newNode "5" "E" ChUndefined (Some 2%nat)) /\
  (forall a ad, a ∈ [2; 1]%nat -> nodes exampleTree !! a = Some ad ->
     hasChildren ad = true) /\
  visible 3 4 exampleTree = Some false /\
  exists t',
    expandParents renderEveryNode 3 4 exampleTree = Some t' /\
    visible 3 4 t' = Some true.
Proof.
  split; [exact renderEveryNode_frame|].
  split; [exact exampleTree_ancestors_4|]. split; [lia|].
  split; [reflexivity|]. split; [exact exampleTree_chain_children|].
  split; [reflexivity|].
  destruct (expandParents_reveals renderEveryNode 3 4 [2; 1]%nat exampleTree
              (newNode "5" "E" ChUndefined (Some 2%nat))
              renderEveryNode_frame
              exampleTree_ancestors_4 (le_n 3) eq_refl
              exampleTree_chain_children)
    as (t' & E & _ & _ & Hv).
  exists t'. split; [exact E|].
  apply Hv; [reflexivity|reflexivity|].
  intros a ad Ha Had.
  repeat (apply elem_of_cons in Ha as [->|Ha]);
    [| |by apply not_elem_of_nil in Ha];
    vm_compute in Had; injection Had as <-; reflexivity.
Defined.
